(** * chatlog: the streaming log parser and the upload guard

    The sources are [src/workers/parse.worker.ts] (the worker),
    [src/lib/types.ts] (its types) and [src/app/page.tsx] (the page that
    starts it).  In the tree at hand the worker and the page follow the
    chat panel in [src/app/components/ChatPanel.tsx]: the page from
    [const MAX_FILE_SIZE], the worker from [const SLICE_SIZE] to the end of
    [isJsonStart].

    The worker reads a [File] slice by slice, decodes each slice with a
    streaming [TextDecoder], splits the text into physical lines, groups the
    lines into log entries and posts [PROGRESS], [DONE] or [ERROR] messages.

    - JavaScript strings are sequences of UTF-16 code units: [list N].
    - JavaScript numbers that count lines and bytes are [Z]; the one
      fraction ([percent], the exact quotient the double rounds) and the
      clock readings are [Q].
    - The closure variables of [parseFile] are the fields of [Parser];
      every inner function takes and returns that state.
    - A [File] read can reject: [arrayBuffer] returns a sum.
    - Regular expressions, [split], [trim] and [TextDecoder] belong to
      the platform; they are written out after ECMAScript and the Encoding
      Standard, as far as the source uses them.

    The chat panel ([src/app/components/ChatPanel.tsx]), the viewer
    ([src/app/components/Viewer.tsx]) and the chat route
    ([src/app/api/chat/route.ts]) follow the page; what they take from
    the platform beyond the above ([Set], [sessionStorage], [fetch]) is
    written out or named where it comes in.

    The definitions come first: the program, then what the statements
    need.  The lemmas follow, then the claims, C1 to C10, and further
    properties of the code, X1 on. *)

From Stdlib.Strings Require Import String Ascii Byte.
From Stdlib Require Decimal DecimalString.
From Stdlib Require Import Bool NArith ZArith QArith Qminmax Lia List.
Import ListNotations.


Close Scope Q_scope.
Open Scope list_scope.

(* ================================================================== *)
(** * JavaScript strings and regular expressions                       *)
(* ================================================================== *)

Module JS.

(** A string value: UTF-16 code units. *)
Abbreviation jsString := (list N) (only parsing).

(** An ASCII literal of the source as a string value. *)
Definition str (s : string) : jsString :=
  map N_of_ascii (list_ascii_of_string s).

Definition LF : N := 10.
Definition CR : N := 13.

Definition inRange (lo hi c : N) : bool := ((lo <=? c) && (c <=? hi))%N.

(** [\s], and the characters [trim] strips: WhiteSpace and LineTerminator
    of ECMAScript (TAB LF VT FF CR, SP, NBSP, the Zs category, LS, PS,
    ZWNBSP). *)
Definition isWhiteSpace (c : N) : bool :=
  inRange 9 13 c || (c =? 32)%N || (c =? 160)%N || (c =? 5760)%N
  || inRange 8192 8202 c || (c =? 8232)%N || (c =? 8233)%N
  || (c =? 8239)%N || (c =? 8287)%N || (c =? 12288)%N || (c =? 65279)%N.

(** [\d] *)
Definition isDigit (c : N) : bool := inRange 48 57 c.

Definition isUpper (c : N) : bool := inRange 65 90 c.
Definition isLower (c : N) : bool := inRange 97 122 c.

(** The word characters of [\b] (no [u] flag): [A-Za-z0-9_]. *)
Definition isWordChar (c : N) : bool :=
  isUpper c || isLower c || isDigit c || (c =? 95)%N.

Fixpoint dropWhile (p : N -> bool) (s : jsString) : jsString :=
  match s with
  | [] => []
  | c :: s' => if p c then dropWhile p s' else s
  end.

Definition trimStart (s : jsString) : jsString := dropWhile isWhiteSpace s.
Definition trimEnd (s : jsString) : jsString :=
  rev (dropWhile isWhiteSpace (rev s)).

(** [String.prototype.trim] *)
Definition trim (s : jsString) : jsString := trimEnd (trimStart s).

(** [String.prototype.toUpperCase] on the Basic Latin letters.  The source
    applies it to a severity match only, which holds nothing else
    (lemma [severity_match_letters]). *)
Definition toUpperCase (s : jsString) : jsString :=
  map (fun c => if isLower c then (c - 32)%N else c) s.

(** [Array.prototype.join] *)
Fixpoint join (sep : jsString) (parts : list jsString) : jsString :=
  match parts with
  | [] => []
  | [p] => p
  | p :: rest => p ++ sep ++ join sep rest
  end.

(** [String.prototype.split] with a string separator of one code unit. *)
Fixpoint splitOn (sep : N) (s : jsString) : list jsString :=
  match s with
  | [] => [[]]
  | c :: s' =>
      if (c =? sep)%N then [] :: splitOn sep s'
      else match splitOn sep s' with
           | [] => [[c]]
           | p :: ps => (c :: p) :: ps
           end
  end.

(** ** Patterns

    The fragment of ECMAScript patterns the source uses.  A quantifier
    [r?] is [Alt r Empty], [r+] is [Seq r (Star r)], [r{n}] is [r]
    repeated.  None of the patterns has the [m], [s] or [u] flag. *)
Inductive RegExp : Type :=
| Empty                            (* the empty pattern *)
| Class (p : N -> bool)            (* one code unit of a class *)
| Seq (r1 r2 : RegExp)
| Alt (r1 r2 : RegExp)             (* r1|r2, r1 tried first *)
| Star (r : RegExp)                (* greedy r* *)
| Bol                              (* ^ *)
| WordBoundary.                    (* \b *)

(** A position in the subject: the code units before it, nearest first,
    and the code units from it on. *)
Abbreviation Pos := (list N * list N)%type (only parsing).

Definition wordBefore (x : Pos) : bool :=
  match fst x with c :: _ => isWordChar c | [] => false end.
Definition wordAfter (x : Pos) : bool :=
  match snd x with c :: _ => isWordChar c | [] => false end.

(** One more round of [r*]: the iterations that consume something, then
    the empty iteration (an iteration that consumes nothing is rejected,
    as RepeatMatcher does). *)
Fixpoint iterate (step : Pos -> list Pos) (fuel : nat) (x : Pos) : list Pos :=
  match fuel with
  | O => [x]
  | S fuel' =>
      flat_map (fun y =>
                  if (length (snd y) <? length (snd x))%nat
                  then iterate step fuel' y else [])
               (step x) ++ [x]
  end.

(** The positions where a match of [r] started at [x] can end, in the
    order a backtracking matcher tries them. *)
Fixpoint exec (r : RegExp) (x : Pos) : list Pos :=
  match r with
  | Empty => [x]
  | Class p =>
      match snd x with
      | c :: rest => if p c then [(c :: fst x, rest)] else []
      | [] => []
      end
  | Seq r1 r2 => flat_map (exec r2) (exec r1 x)
  | Alt r1 r2 => exec r1 x ++ exec r2 x
  | Star r' => iterate (exec r') (S (length (snd x))) x
  | Bol => match fst x with [] => [x] | _ :: _ => [] end
  | WordBoundary => if xorb (wordBefore x) (wordAfter x) then [x] else []
  end.

(** The match at a fixed start position: the first end the matcher finds. *)
Definition matchAt (r : RegExp) (x : Pos) : option Pos := hd_error (exec r x).

(** The code units between a position and a later one. *)
Definition consumed (x y : Pos) : jsString :=
  firstn (length (snd x) - length (snd y)) (snd x).

(** [RegExp.prototype.exec] without the [g] and [y] flags: the start
    positions are tried from left to right; the result is the matched
    substring [match[0]]. *)
Fixpoint searchFrom (r : RegExp) (before after : list N) : option jsString :=
  match matchAt r (before, after) with
  | Some y => Some (consumed (before, after) y)
  | None =>
      match after with
      | [] => None
      | c :: rest => searchFrom r (c :: before) rest
      end
  end.

(** [String.prototype.match] with such a pattern: [match[0]] or [null]. *)
Definition matchRe (r : RegExp) (s : jsString) : option jsString :=
  searchFrom r [] s.

(** [RegExp.prototype.test] *)
Definition test (r : RegExp) (s : jsString) : bool :=
  match matchRe r s with Some _ => true | None => false end.

(** [String.prototype.split] with a pattern that has no capture group and
    no limit.  [piece] holds, nearest first, the code units since the last
    separator (from [p] to [q] in the standard's algorithm); a match that
    ends where the piece began is skipped.  Every round moves [q] or
    empties the piece, so twice the length and one are rounds enough; for
    the pattern the source splits on, lemma [split_newline] gives the
    result outright. *)
Fixpoint splitLoop (r : RegExp) (fuel : nat) (piece before after : list N)
  : list jsString :=
  match fuel with
  | O => [rev piece ++ after]
  | S fuel' =>
      match after with
      | [] => [rev piece]
      | c :: rest =>
          match matchAt r (before, after) with
          | Some y =>
              if ((length (snd y) =? length after)%nat
                  && (length piece =? 0)%nat)%bool
              then splitLoop r fuel' (c :: piece) (c :: before) rest
              else rev piece :: splitLoop r fuel' [] (fst y) (snd y)
          | None => splitLoop r fuel' (c :: piece) (c :: before) rest
          end
      end
  end.

Definition split (r : RegExp) (s : jsString) : list jsString :=
  match s with
  | [] => match matchAt r ([], []) with Some _ => [] | None => [[]] end
  | _ :: _ => splitLoop r (2 * length s + 1) [] [] s
  end.

(** ** Pattern notation *)

Definition chr (a : ascii) : RegExp := Class (N.eqb (N_of_ascii a)).

(** A literal made of the code units of [s]. *)
Definition lit (s : string) : RegExp :=
  fold_right (fun c r => Seq (Class (N.eqb c)) r) Empty (str s).

(** Under the [i] flag (without [u]) two code units match when their
    Canonicalize values agree.  Canonicalize never maps a code unit from
    U+0080 up to one below it, so a Basic Latin letter of the pattern
    matches exactly its two cases. *)
Definition sameLetter (c d : N) : bool :=
  ((d =? c) || (isUpper c && (d =? c + 32)) || (isLower c && (d =? c - 32)))%N.

(** A literal of letters under the [i] flag. *)
Definition litI (s : string) : RegExp :=
  fold_right (fun c r => Seq (Class (sameLetter c)) r) Empty (str s).

Definition opt (r : RegExp) : RegExp := Alt r Empty.
Definition plus (r : RegExp) : RegExp := Seq r (Star r).
Fixpoint times (n : nat) (r : RegExp) : RegExp :=
  match n with O => Empty | S n' => Seq r (times n' r) end.
Definition seqs (rs : list RegExp) : RegExp := fold_right Seq Empty rs.
Fixpoint alts (r : RegExp) (rs : list RegExp) : RegExp :=
  match rs with [] => r | r' :: rs' => Alt r (alts r' rs') end.

End JS.

(* ================================================================== *)
(** * [new TextDecoder()]: UTF-8, not fatal, the BOM not ignored         *)
(* ================================================================== *)

(** The decoder is the platform's.  Its states and steps are those of
    the UTF-8 decoder and of [TextDecoder.decode] in the Encoding Standard,
    with the error mode [replacement]. *)

Module Encoding.
Import JS.

(** The state of the UTF-8 decoder of the Encoding Standard. *)
Record Utf8Decoder : Type := {
  codePoint : N;
  bytesSeen : N;
  bytesNeeded : N;
  lowerBoundary : N;
  upperBoundary : N
}.

Definition utf8Initial : Utf8Decoder :=
  {| codePoint := 0; bytesSeen := 0; bytesNeeded := 0;
     lowerBoundary := 0x80; upperBoundary := 0xBF |}.

Definition REPLACEMENT : N := 0xFFFD.

(** What the handler returns for one byte: nothing yet, a code point, an
    error, or an error with the byte put back on the queue. *)
Inductive HandlerResult : Type :=
| Continue
| CodePoint (cp : N)
| Error
| ErrorRestore.

(** The handler when no sequence is open. *)
Definition utf8Lead (b : N) : Utf8Decoder * HandlerResult :=
  if inRange 0x00 0x7F b then (utf8Initial, CodePoint b)
  else if inRange 0xC2 0xDF b then
    ({| codePoint := N.land b 0x1F; bytesSeen := 0; bytesNeeded := 1;
        lowerBoundary := 0x80; upperBoundary := 0xBF |}, Continue)
  else if inRange 0xE0 0xEF b then
    ({| codePoint := N.land b 0xF; bytesSeen := 0; bytesNeeded := 2;
        lowerBoundary := if (b =? 0xE0)%N then 0xA0 else 0x80;
        upperBoundary := if (b =? 0xED)%N then 0x9F else 0xBF |}, Continue)
  else if inRange 0xF0 0xF4 b then
    ({| codePoint := N.land b 0x7; bytesSeen := 0; bytesNeeded := 3;
        lowerBoundary := if (b =? 0xF0)%N then 0x90 else 0x80;
        upperBoundary := if (b =? 0xF4)%N then 0x8F else 0xBF |}, Continue)
  else (utf8Initial, Error).

(** The handler on a byte. *)
Definition utf8Handler (d : Utf8Decoder) (b : N)
  : Utf8Decoder * HandlerResult :=
  if (bytesNeeded d =? 0)%N then utf8Lead b
  else if negb (inRange (lowerBoundary d) (upperBoundary d) b) then
    (utf8Initial, ErrorRestore)
  else
    let cp := N.lor (N.shiftl (codePoint d) 6) (N.land b 0x3F) in
    if (bytesSeen d + 1 =? bytesNeeded d)%N then (utf8Initial, CodePoint cp)
    else ({| codePoint := cp; bytesSeen := bytesSeen d + 1;
             bytesNeeded := bytesNeeded d;
             lowerBoundary := 0x80; upperBoundary := 0xBF |}, Continue).

(** The handler at the end of the queue: an open sequence is an error. *)
Definition utf8End (d : Utf8Decoder) : Utf8Decoder * list N :=
  if (bytesNeeded d =? 0)%N then (d, [])
  else ({| codePoint := codePoint d; bytesSeen := bytesSeen d;
           bytesNeeded := 0; lowerBoundary := lowerBoundary d;
           upperBoundary := upperBoundary d |}, [REPLACEMENT]).

(** The code points a result contributes in the error mode
    [replacement] (the decoder is not fatal). *)
Definition emitted (r : HandlerResult) : list N :=
  match r with
  | Continue => []
  | CodePoint cp => [cp]
  | Error | ErrorRestore => [REPLACEMENT]
  end.

(** Processing one byte of the queue; a restored byte is handled again,
    then with no sequence open. *)
Definition utf8Byte (d : Utf8Decoder) (b : N) : Utf8Decoder * list N :=
  match utf8Handler d b with
  | (d', ErrorRestore) =>
      let (d'', r) := utf8Lead b in (d'', REPLACEMENT :: emitted r)
  | (d', r) => (d', emitted r)
  end.

Fixpoint utf8Run (d : Utf8Decoder) (input : list byte)
  : Utf8Decoder * list N :=
  match input with
  | [] => (d, [])
  | b :: rest =>
      let (d1, out1) := utf8Byte d (Byte.to_N b) in
      let (d2, out2) := utf8Run d1 rest in
      (d2, out1 ++ out2)
  end.

(** Whether the handler returns an error somewhere on the input, the end
    of the queue included: the byte stream is not UTF-8 text. *)
Fixpoint utf8Malformed (d : Utf8Decoder) (input : list byte) : bool :=
  match input with
  | [] => negb (bytesNeeded d =? 0)%N
  | b :: rest =>
      match utf8Handler d (Byte.to_N b) with
      | (_, Error) => true
      | (_, ErrorRestore) => true
      | (d', _) => utf8Malformed d' rest
      end
  end.

(** A code point as UTF-16 code units. *)
Definition utf16 (cp : N) : jsString :=
  if (cp <=? 0xFFFF)%N then [cp]
  else [(0xD800 + (cp - 0x10000) / 0x400)%N;
        (0xDC00 + (cp - 0x10000) mod 0x400)%N].

(** Serializing the decoder's output: the first code point is dropped when
    it is U+FEFF. *)
Definition serialize (bomSeen : bool) (cps : list N) : bool * jsString :=
  match cps with
  | [] => (bomSeen, [])
  | cp :: rest =>
      if bomSeen then (true, flat_map utf16 cps)
      else (true, if (cp =? 0xFEFF)%N then flat_map utf16 rest
                  else flat_map utf16 cps)
  end.

Record TextDecoder : Type := {
  utf8 : Utf8Decoder;
  bomSeen : bool;
  doNotFlush : bool
}.

(** [new TextDecoder()] *)
Definition newTextDecoder : TextDecoder :=
  {| utf8 := utf8Initial; bomSeen := false; doNotFlush := false |}.

(** [decoder.decode(input, { stream })]; [decoder.decode()] is
    [decode [] false]. *)
Definition decode (input : list byte) (stream : bool) (t : TextDecoder)
  : TextDecoder * jsString :=
  let t0 := if doNotFlush t then t else newTextDecoder in
  let (d1, out1) := utf8Run (utf8 t0) input in
  let (d2, out2) := if stream then (d1, []) else utf8End d1 in
  let (seen, s) := serialize (bomSeen t0) (out1 ++ out2) in
  ({| utf8 := d2; bomSeen := seen; doNotFlush := stream |}, s).

End Encoding.

(* ================================================================== *)
(** * [src/lib/types.ts] and [src/workers/parse.worker.ts]              *)
(* ================================================================== *)

Module Worker.
Import JS Encoding.

(** [LogEntry] of [src/lib/types.ts]; an optional field is an [option]. *)
Record LogEntry : Type := {
  lineStart : Z;
  lineEnd : Z;
  text : jsString;
  severity : option jsString;
  timestamp : option jsString
}.

(** What a rejected read carries: an [Error] with its message, or
    any other value. *)
Inductive Thrown : Type :=
| ErrorObject (message : string)
| OtherValue.

(** A [File]: its bytes, and for each offset whether reading the slice
    that starts there rejects. *)
Record File : Type := {
  contents : list byte;
  rejects : Z -> option Thrown
}.

(** [file.size] *)
Definition size (f : File) : Z := Z.of_nat (length (contents f)).

(** [file.slice(start, end)] for [0 <= start <= end]. *)
Definition slice (f : File) (start end_ : Z) : list byte :=
  firstn (Z.to_nat (end_ - start)) (skipn (Z.to_nat start) (contents f)).

(** [await file.slice(start, end).arrayBuffer()] *)
Definition arrayBuffer (f : File) (start end_ : Z) : Thrown + list byte :=
  match rejects f start with
  | Some e => inl e
  | None => inr (slice f start end_)
  end.

Module Progress.
Record payload : Type := {
  bytesProcessed : Z;
  totalBytes : Z;
  percent : Q;
  lines : Z;
  entries : Z
}.
End Progress.

Module Stats.
Record stats : Type := {
  bytesProcessed : Z;
  totalBytes : Z;
  lines : Z;
  entries : Z;
  durationMs : Q
}.
End Stats.

(** [ProgressMessage], [DoneMessage] and [ErrorMessage]. *)
Inductive Message : Type :=
| PROGRESS (payload : Progress.payload)
| DONE (entries : list LogEntry) (stats : Stats.stats)
| ERROR (error : string).

Definition SLICE_SIZE : Z := 256 * 1024.
Definition PROGRESS_INTERVAL_BYTES : Z := 1 * 1024 * 1024.

(** [currentEntry] when it is not [null]. *)
Record CurrentEntry : Type := {
  startLine : Z;
  lines : list jsString
}.

(** The variables of [parseFile] that its inner functions share. *)
Record Parser : Type := {
  entries : list LogEntry;
  currentEntry : option CurrentEntry;
  bytesProcessed : Z;
  lastProgressAt : Z;
  lineNumber : Z;
  leftover : jsString;
  decoder : TextDecoder
}.

Definition initial : Parser :=
  {| entries := []; currentEntry := None; bytesProcessed := 0;
     lastProgressAt := 0; lineNumber := 0; leftover := [];
     decoder := newTextDecoder |}.

Definition withEntries (v : list LogEntry) (st : Parser) : Parser :=
  {| entries := v; currentEntry := currentEntry st;
     bytesProcessed := bytesProcessed st; lastProgressAt := lastProgressAt st;
     lineNumber := lineNumber st; leftover := leftover st;
     decoder := decoder st |}.
Definition withCurrentEntry (v : option CurrentEntry) (st : Parser) : Parser :=
  {| entries := entries st; currentEntry := v;
     bytesProcessed := bytesProcessed st; lastProgressAt := lastProgressAt st;
     lineNumber := lineNumber st; leftover := leftover st;
     decoder := decoder st |}.
Definition withBytesProcessed (v : Z) (st : Parser) : Parser :=
  {| entries := entries st; currentEntry := currentEntry st;
     bytesProcessed := v; lastProgressAt := lastProgressAt st;
     lineNumber := lineNumber st; leftover := leftover st;
     decoder := decoder st |}.
Definition withLastProgressAt (v : Z) (st : Parser) : Parser :=
  {| entries := entries st; currentEntry := currentEntry st;
     bytesProcessed := bytesProcessed st; lastProgressAt := v;
     lineNumber := lineNumber st; leftover := leftover st;
     decoder := decoder st |}.
Definition withLineNumber (v : Z) (st : Parser) : Parser :=
  {| entries := entries st; currentEntry := currentEntry st;
     bytesProcessed := bytesProcessed st; lastProgressAt := lastProgressAt st;
     lineNumber := v; leftover := leftover st;
     decoder := decoder st |}.
Definition withLeftover (v : jsString) (st : Parser) : Parser :=
  {| entries := entries st; currentEntry := currentEntry st;
     bytesProcessed := bytesProcessed st; lastProgressAt := lastProgressAt st;
     lineNumber := lineNumber st; leftover := v;
     decoder := decoder st |}.
Definition withDecoder (v : TextDecoder) (st : Parser) : Parser :=
  {| entries := entries st; currentEntry := currentEntry st;
     bytesProcessed := bytesProcessed st; lastProgressAt := lastProgressAt st;
     lineNumber := lineNumber st; leftover := leftover st;
     decoder := v |}.

(** ** The patterns of the source *)

Definition digit : RegExp := Class isDigit.
Definition space : RegExp := Class isWhiteSpace.

(** [/\r?\n/] *)
Definition reNewline : RegExp :=
  seqs [opt (Class (N.eqb CR)); Class (N.eqb LF)].

(** [/\d{4}-\d{2}-\d{2}[T\s]\d{2}:\d{2}:\d{2}(?:\.\d+)?/] *)
Definition reTimestamp : RegExp :=
  seqs [times 4 digit; chr "-"; times 2 digit; chr "-"; times 2 digit;
        Class (fun c => (c =? N_of_ascii "T")%N || isWhiteSpace c);
        times 2 digit; chr ":"; times 2 digit; chr ":"; times 2 digit;
        opt (seqs [chr "."; plus digit])].

(** [/\b(ERROR|WARN|WARNING|INFO|DEBUG|TRACE|FATAL)\b/i].  The group lies
    between two assertions, which consume nothing: [match[1]] is
    [match[0]]. *)
Definition reSeverity : RegExp :=
  seqs [WordBoundary;
        alts (litI "ERROR") [litI "WARN"; litI "WARNING"; litI "INFO";
                             litI "DEBUG"; litI "TRACE"; litI "FATAL"];
        WordBoundary].

(** [/^\s*\{/] *)
Definition reJsonStart : RegExp := seqs [Bol; Star space; chr "{"].

(** [/^\s/], [/^at\s/], [/^Caused by/], [/^Traceback/] and
    [/^File\s+Q/], where Q stands for the double quote (code unit 34). *)
Definition reLeadingSpace : RegExp := seqs [Bol; space].
Definition reAt : RegExp := seqs [Bol; lit "at"; space].
Definition reCausedBy : RegExp := seqs [Bol; lit "Caused by"].
Definition reTraceback : RegExp := seqs [Bol; lit "Traceback"].
Definition reFile : RegExp :=
  seqs [Bol; lit "File"; plus space; Class (N.eqb 34)].

(** ** The inner functions of [parseFile] *)

Definition detectTimestamp (line : jsString) : option jsString :=
  matchRe reTimestamp line.

Definition detectSeverity (line : jsString) : option jsString :=
  match matchRe reSeverity line with
  | Some m => Some (toUpperCase m)
  | None => None
  end.

Definition isJsonStart (line : jsString) : bool := test reJsonStart line.

Definition isSome {A : Type} (o : option A) : bool :=
  match o with Some _ => true | None => false end.

Definition isEntryStart (line : jsString) : bool :=
  isSome (detectTimestamp line) || isSome (detectSeverity line)
  || isJsonStart line.

Definition isContinuationLine (line : jsString) : bool :=
  let trimmed := trim line in
  match trimmed with
  | [] => true
  | _ :: _ =>
      test reLeadingSpace line
      || test reAt trimmed
      || test reCausedBy trimmed
      || test reTraceback trimmed
      || test reFile trimmed
  end.

(** [lines[0]]; a current entry always has a first line
    (lemma [current_has_line]). *)
Definition firstLine (ls : list jsString) : jsString := hd [] ls.

Definition finalizeEntry (st : Parser) : Parser :=
  match currentEntry st with
  | None => st
  | Some cur =>
      let lineEnd := (startLine cur + Z.of_nat (length (lines cur)) - 1)%Z in
      let text := join [LF] (lines cur) in
      let severity := detectSeverity (firstLine (lines cur)) in
      let timestamp := detectTimestamp (firstLine (lines cur)) in
      let entry := {| lineStart := startLine cur; lineEnd := lineEnd;
                      text := text; severity := severity;
                      timestamp := timestamp |} in
      withCurrentEntry None (withEntries (entries st ++ [entry]) st)
  end.

Definition handleLine (line : jsString) (st : Parser) : Parser :=
  let st := withLineNumber (lineNumber st + 1)%Z st in
  let isStart := isEntryStart line in
  let isContinuation := isContinuationLine line in
  match currentEntry st with
  | None =>
      withCurrentEntry
        (Some {| startLine := lineNumber st; lines := [line] |}) st
  | Some cur =>
      if isStart && negb isContinuation then
        let st := finalizeEntry st in
        withCurrentEntry
          (Some {| startLine := lineNumber st; lines := [line] |}) st
      else
        withCurrentEntry
          (Some {| startLine := startLine cur;
                   lines := lines cur ++ [line] |}) st
  end.

(** [lines.pop() ?? ""]: the array without its last element, and that
    element. *)
Definition pop (ls : list jsString) : list jsString * jsString :=
  (removelast ls, last ls []).

(** Handles every complete line of [bufferText]; the result is the state
    and the trailing fragment. *)
Definition processText (bufferText : jsString) (st : Parser)
  : Parser * jsString :=
  let (ls, trailing) := pop (split reNewline bufferText) in
  (fold_left (fun s line => handleLine line s) ls st, trailing).

(** ** The body of [parseFile]

    The slice size and the progress interval are parameters of the loop;
    [parseFile] runs it at [SLICE_SIZE] and [PROGRESS_INTERVAL_BYTES]. *)

(** The two readings of [performance.now()]. *)
Record Clock : Type := {
  startTime : Q;
  doneTime : Q
}.

(** One round of the loop after its read: decode, split, count. *)
Definition consume (buffer : list byte) (st : Parser) : Parser :=
  let (dec, text) := decode buffer true (decoder st) in
  let (st1, trailing) :=
    processText (leftover st ++ text) (withDecoder dec st) in
  withBytesProcessed (bytesProcessed st1 + Z.of_nat (length buffer))%Z
    (withLeftover trailing st1).

(** [bytesProcessed - lastProgressAt >= PROGRESS_INTERVAL_BYTES ||
    bytesProcessed >= file.size] *)
Definition progressDue (interval : Z) (file : File) (st : Parser) : bool :=
  ((interval <=? bytesProcessed st - lastProgressAt st)
   || (size file <=? bytesProcessed st))%Z.

Definition progressMessage (file : File) (st : Parser) : Message :=
  PROGRESS
    {| Progress.bytesProcessed := bytesProcessed st;
       Progress.totalBytes := size file;
       Progress.percent :=
         Qmin 1 (inject_Z (bytesProcessed st) / inject_Z (size file))%Q;
       Progress.lines := lineNumber st;
       Progress.entries := Z.of_nat (length (entries st)) |}.

(** The progress step of one round: the state and the messages posted. *)
Definition report (interval : Z) (file : File) (st : Parser)
  : Parser * list Message :=
  if progressDue interval file st
  then (withLastProgressAt (bytesProcessed st) st, [progressMessage file st])
  else (st, []).

(** How the [while] loop ends: a read rejected, the condition false, or
    no end within the rounds allowed. *)
Inductive Loop : Type :=
| Rejected (e : Thrown) (posted : list Message)
| Exited (st : Parser) (posted : list Message)
| Unfinished.

Fixpoint readLoop (sliceSize interval : Z) (rounds : nat) (file : File)
  (st : Parser) (posted : list Message) : Loop :=
  if (bytesProcessed st <? size file)%Z then
    match rounds with
    | O => Unfinished
    | S rounds' =>
        match arrayBuffer file (bytesProcessed st)
                (bytesProcessed st + sliceSize) with
        | inl e => Rejected e posted
        | inr buffer =>
            let (st', msgs) := report interval file (consume buffer st) in
            readLoop sliceSize interval rounds' file st' (posted ++ msgs)
        end
    end
  else Exited st posted.

(** After the loop: flush the decoder and the leftover line, close the
    entry. *)
Definition flush (st : Parser) : Parser :=
  let (dec, finalText) := decode [] false (decoder st) in
  let st := withDecoder dec st in
  let st :=
    match finalText with
    | [] => st
    | _ :: _ =>
        let (st1, trailing) := processText (leftover st ++ finalText) st in
        withLeftover trailing st1
    end in
  let st :=
    match leftover st with
    | [] => st
    | _ :: _ => withLeftover [] (handleLine (leftover st) st)
    end in
  finalizeEntry st.

Definition doneMessage (clock : Clock) (file : File) (st : Parser) : Message :=
  DONE (entries st)
    {| Stats.bytesProcessed := bytesProcessed st;
       Stats.totalBytes := size file;
       Stats.lines := lineNumber st;
       Stats.entries := Z.of_nat (length (entries st));
       Stats.durationMs := (doneTime clock - startTime clock)%Q |}.

(** How the promise of [parseFile] settles. *)
Inductive Settled : Type :=
| Fulfilled
| RejectedWith (e : Thrown)
| Pending.

(** The messages [parseFile] posts, in order, and how its promise
    settles. *)
Definition parseFileWith (sliceSize interval : Z) (clock : Clock)
  (file : File) : list Message * Settled :=
  match readLoop sliceSize interval (length (contents file)) file
          initial [] with
  | Rejected e posted => (posted, RejectedWith e)
  | Exited st posted =>
      (posted ++ [doneMessage clock file (flush st)], Fulfilled)
  | Unfinished => ([], Pending)
  end.

Definition parseFile (clock : Clock) (file : File) : list Message * Settled :=
  parseFileWith SLICE_SIZE PROGRESS_INTERVAL_BYTES clock file.

(** [event.data] of a message to the worker. *)
Record ParseRequest : Type := {
  type : string;
  file : option File
}.

(** [ctx.onmessage]: every message the worker posts for one event. *)
Definition onmessage (clock : Clock) (data : option ParseRequest)
  : list Message :=
  match data with
  | Some {| type := t; file := Some f |} =>
      if String.eqb t "parse" then
        match parseFile clock f with
        | (posted, RejectedWith e) =>
            posted ++ [ERROR match e with
                             | ErrorObject m => m
                             | OtherValue => "Unknown worker error"
                             end]
        | (posted, _) => posted
        end
      else []
  | _ => []
  end.

End Worker.

(* ================================================================== *)
(** * [src/app/page.tsx]: the upload guard                              *)
(* ================================================================== *)

Module Page.
Import Worker.

Definition MAX_FILE_SIZE : Z := 30 * 1024 * 1024.

(** The state of [Home] that [handleFile] reads and sets.
    [workerRef.current] is the worker, known by the messages posted to
    it, or [null]. *)
Record State : Type := {
  workerRef : option (list ParseRequest);
  entries : list LogEntry;
  selectedEntries : list Z;
  stats : option Stats.stats;
  isParsing : bool;
  progress : Z;
  error : option string
}.

(** A number not below zero in decimal digits. *)
Definition decimal (n : Z) : string :=
  DecimalString.NilZero.string_of_uint (N.to_uint (Z.to_N n)).

(** [(size / (1024 * 1024)).toFixed(1)] for a size in bytes.  The
    division by a power of two is exact; [toFixed] takes the number of
    tenths nearest to it, the larger of two equally near. *)
Definition toFixed1 (size : Z) : string :=
  let tenths := ((20 * size + 1048576) / 2097152)%Z in
  (decimal (tenths / 10) ++ "." ++ decimal (tenths mod 10))%string.

Definition tooLarge (size : Z) : string :=
  ("File too large. Maximum size is 30MB, got " ++ toFixed1 size ++ "MB")%string.

Definition handleFile (file : File) (st : State) : State :=
  match workerRef st with
  | None => st
  | Some posted =>
      if (MAX_FILE_SIZE <? size file)%Z then
        {| workerRef := workerRef st; entries := entries st;
           selectedEntries := selectedEntries st; stats := stats st;
           isParsing := isParsing st; progress := progress st;
           error := Some (tooLarge (size file)) |}
      else
        {| workerRef :=
             Some (posted ++ [{| type := "parse"; file := Some file |}]);
           entries := []; selectedEntries := []; stats := None;
           isParsing := true; progress := 0; error := None |}
  end.

End Page.

(* ================================================================== *)
(** * What the patterns and the splitter mean                          *)
(* ================================================================== *)

Module Meaning.
Import JS.

(** [Matches r before s after]: the pattern [r] matches the code units [s]
    when [before] (nearest first) precedes them and [after] follows. *)
Inductive Matches : RegExp -> list N -> jsString -> list N -> Prop :=
| MEmpty : forall b a, Matches Empty b [] a
| MClass : forall (p : N -> bool) c b a,
    p c = true -> Matches (Class p) b [c] a
| MSeq : forall r1 r2 b s1 s2 a,
    Matches r1 b s1 (s2 ++ a) -> Matches r2 (rev s1 ++ b) s2 a ->
    Matches (Seq r1 r2) b (s1 ++ s2) a
| MAltL : forall r1 r2 b s a, Matches r1 b s a -> Matches (Alt r1 r2) b s a
| MAltR : forall r1 r2 b s a, Matches r2 b s a -> Matches (Alt r1 r2) b s a
| MStarNil : forall r b a, Matches (Star r) b [] a
| MStarCons : forall r b s1 s2 a,
    s1 <> [] ->
    Matches r b s1 (s2 ++ a) -> Matches (Star r) (rev s1 ++ b) s2 a ->
    Matches (Star r) b (s1 ++ s2) a
| MBol : forall a, Matches Bol [] [] a
| MWordBoundary : forall b a,
    xorb (wordBefore (b, a)) (wordAfter (b, a)) = true ->
    Matches WordBoundary b [] a.

(** A position reached by the matcher lies further in the same subject. *)
Definition Reaches (r : RegExp) (x y : Pos) : Prop :=
  exists s, snd x = s ++ snd y /\ fst y = rev s ++ fst x
            /\ Matches r (fst x) s (snd y).

(** A pattern that matches in at most one way from a position. *)
Definition AtMostOne (r : RegExp) : Prop :=
  forall x, (length (exec r x) <= 1)%nat.

(** A pattern whose preferred match is its longest. *)
Definition LongestFirst (r : RegExp) : Prop :=
  forall x y rest, exec r x = y :: rest ->
  Forall (fun z => (length (snd y) <= length (snd z))%nat) rest.

(** [s] occurs in [line] after [pre] and before [post] as a match of [r]. *)
Definition OccursAt (r : RegExp) (line pre s post : jsString) : Prop :=
  line = pre ++ s ++ post /\ Matches r (rev pre) s post.

(** ** Physical lines

    A line feed ends a line; a carriage return directly before it goes
    with it.  What follows the last line feed is the trailing fragment. *)

(** No line feed in a string. *)
Definition LFfree (l : jsString) : Prop := ~ In LF l.

(** A piece without the carriage return at its end, if it has one. *)
Definition stripCR (l : jsString) : jsString :=
  if (last l 0 =? CR)%N then removelast l else l.

Definition completeLines (t : jsString) : list jsString :=
  map stripCR (removelast (splitOn LF t)).

Definition trailing (t : jsString) : jsString := last (splitOn LF t) [].

(** The lines of a whole text: a trailing fragment that is not empty is
    the last line. *)
Definition physicalLines (t : jsString) : list jsString :=
  completeLines t ++ match trailing t with [] => [] | _ :: _ => [trailing t] end.

(** The splitter as a scan: [piece] holds the code units of the line so
    far, nearest first. *)
Fixpoint lineSplit (piece s : list N) : list jsString :=
  match s with
  | [] => [rev piece]
  | c :: s' =>
      if (LF =? c)%N then rev piece :: lineSplit [] s'
      else if ((CR =? c)%N
               && match s' with d :: _ => (LF =? d)%N | [] => false end)%bool
           then lineSplit piece s'
           else lineSplit (c :: piece) s'
  end.

(** The lines of a scan that has [pre] so far, from the pieces between
    the line feeds of the rest. *)
Definition finish (pre : jsString) (ps : list jsString) : list jsString :=
  match ps with
  | [] => [pre]
  | [p] => [pre ++ p]
  | p :: rest => stripCR (pre ++ p) :: map stripCR (removelast rest)
                 ++ [last rest []]
  end.

(** The scan never holds a carriage return right before a line feed. *)
Definition consistent (piece s : list N) : Prop :=
  match piece, s with
  | c :: _, d :: _ => c = CR -> d <> LF
  | _, _ => True
  end.

End Meaning.

(* ================================================================== *)
(** * What a parse computes                                            *)
(* ================================================================== *)

Module Denotation.
Import JS Encoding Worker Meaning.

(** [new TextDecoder().decode(bytes)]: the text of a whole file. *)
Definition decodeAll (bytes : list byte) : jsString :=
  snd (decode bytes false newTextDecoder).

(** The text a streaming decoder has returned for [bytes] so far. *)
Definition decodedSoFar (bytes : list byte) : jsString :=
  snd (decode bytes true newTextDecoder).

(** What [decode] reads of a decoder. *)
Definition core (t : TextDecoder) : Utf8Decoder * bool :=
  if doNotFlush t then (utf8 t, bomSeen t)
  else (utf8 newTextDecoder, bomSeen newTextDecoder).

(** Handling lines one after the other. *)
Definition feed (ls : list jsString) (st : Parser) : Parser :=
  fold_left (fun s line => handleLine line s) ls st.

(** Two states that agree on the entries, the current entry and the line
    count. *)
Definition sameGrouping (a b : Parser) : Prop :=
  entries a = entries b /\ currentEntry a = currentEntry b
  /\ lineNumber a = lineNumber b.

(** Two states that agree on the fields the grouping leaves alone. *)
Definition sameRest (a b : Parser) : Prop :=
  leftover a = leftover b /\ decoder a = decoder b
  /\ bytesProcessed a = bytesProcessed b
  /\ lastProgressAt a = lastProgressAt b.

(** The state after the loop has consumed [bytes], whatever the slices. *)
Definition Consumed (bytes : list byte) (st : Parser) : Prop :=
  sameGrouping st (feed (completeLines (decodedSoFar bytes)) initial)
  /\ leftover st = trailing (decodedSoFar bytes)
  /\ core (decoder st) = core (fst (decode bytes true newTextDecoder))
  /\ bytesProcessed st = Z.of_nat (length bytes).

(** The entries of a whole text: its lines handled in order, the last
    entry closed. *)
Definition grouped (t : jsString) : Parser :=
  finalizeEntry (feed (physicalLines t) initial).

(** Delivering a file in the given chunks, reads never rejecting. *)
Definition deliver (chunks : list (list byte)) : Parser :=
  flush (fold_left (fun st c => consume c st) chunks initial).

(** The text of the [ERROR] message for what a read threw. *)
Definition causeOf (e : Thrown) : string :=
  match e with
  | ErrorObject m => m
  | OtherValue => "Unknown worker error"
  end.

(** The bytes of the most recent progress message, zero when there is
    none. *)
Definition lastReported (posted : list Message) : Z :=
  fold_left (fun acc m => match m with
                          | PROGRESS p => Progress.bytesProcessed p
                          | _ => acc
                          end) posted 0%Z.

(** The rounds of the loop while the reads succeed: the bytes consumed,
    the state after the round and the messages posted so far. *)
Inductive Round (sliceSize interval : Z) (file : File)
  : list byte -> Parser -> list Message -> Prop :=
| RoundFirst : Round sliceSize interval file [] initial []
| RoundNext : forall B st posted,
    Round sliceSize interval file B st posted ->
    (length B < length (contents file))%nat ->
    rejects file (Z.of_nat (length B)) = None ->
    let c := slice file (Z.of_nat (length B))
               (Z.of_nat (length B) + sliceSize) in
    let r := report interval file (consume c st) in
    Round sliceSize interval file (B ++ c) (fst r) (posted ++ snd r).

(** The read that stops a parse: the first of the reads of the loop, at
    the multiples of the slice size below the size of the file, that
    rejects, and what it throws. *)
Definition FailedRead (sliceSize : Z) (file : File) (k : Z) (e : Thrown)
  : Prop :=
  (0 <= k)%Z /\ (k * sliceSize < size file)%Z
  /\ rejects file (k * sliceSize)%Z = Some e
  /\ forall j, (0 <= j < k)%Z -> rejects file (j * sliceSize)%Z = None.

(** No read of the loop rejects. *)
Definition ReadsSucceed (sliceSize : Z) (file : File) : Prop :=
  forall k, (0 <= k)%Z -> (k * sliceSize < size file)%Z ->
            rejects file (k * sliceSize)%Z = None.

(** The bytes a progress message reports. *)
Definition progressBytes (m : Message) : Z :=
  match m with PROGRESS p => Progress.bytesProcessed p | _ => 0%Z end.

(** Where [parseFile] reports progress on a file of a given size: at
    every whole number of intervals below the size, and at the size. *)
Definition reportOffsets (size : Z) : list Z :=
  if (size <=? 0)%Z then []
  else map (fun k => (Z.of_nat k * PROGRESS_INTERVAL_BYTES)%Z)
         (seq 1 (Z.to_nat ((size - 1) / PROGRESS_INTERVAL_BYTES)))
       ++ [size].

Definition isProgress (m : Message) : Prop :=
  match m with PROGRESS _ => True | _ => False end.

(** The [DONE] message of a file, from its whole text. *)
Definition doneOf (clock : Clock) (file : File) : Message :=
  doneMessage clock file
    (withBytesProcessed (size file) (grouped (decodeAll (contents file)))).

(** The lines of an entry: its text split at the line feeds. *)
Definition linesOf (e : LogEntry) : list jsString := splitOn LF (text e).

(** [Covers first es next]: the entries [es], in order, take the lines
    from number [first] up to [next - 1], each entry a range that is not
    empty and as many lines of text as its range has. *)
Fixpoint Covers (first : Z) (es : list LogEntry) (next : Z) : Prop :=
  match es with
  | [] => first = next
  | e :: es' =>
      lineStart e = first
      /\ (lineStart e <= lineEnd e)%Z
      /\ Z.of_nat (length (linesOf e)) = (lineEnd e - lineStart e + 1)%Z
      /\ Covers (lineEnd e + 1) es' next
  end.

(** The state of the grouping after the lines [ls]. *)
Definition Grouping (ls : list jsString) (st : Parser) : Prop :=
  lineNumber st = Z.of_nat (length ls)
  /\ match currentEntry st with
     | None => ls = [] /\ entries st = []
     | Some cur =>
         lines cur <> []
         /\ Forall LFfree (lines cur)
         /\ Covers 1 (entries st) (startLine cur)
         /\ (startLine cur + Z.of_nat (length (lines cur)) - 1
             = lineNumber st)%Z
         /\ concat (map linesOf (entries st)) ++ lines cur = ls
     end.

(** The state once the last entry is closed. *)
Definition Closed (ls : list jsString) (st : Parser) : Prop :=
  lineNumber st = Z.of_nat (length ls)
  /\ currentEntry st = None
  /\ Covers 1 (entries st) (lineNumber st + 1)
  /\ concat (map linesOf (entries st)) = ls.

End Denotation.

(* ================================================================== *)
(** * Line terminators and sample inputs                               *)
(* ================================================================== *)

Module Samples.
Import JS Encoding Worker Meaning Denotation.

(** A text written line by line: each line with its terminator, a
    carriage return and a line feed when the flag is set and a line feed
    alone otherwise, then what follows the last terminator. *)
Fixpoint render (ls : list (jsString * bool)) (tail : jsString) : jsString :=
  match ls with
  | [] => tail
  | (l, crlf) :: rest =>
      l ++ (if crlf then [CR; LF] else [LF]) ++ render rest tail
  end.

(** A line can be written with the given terminator: it has no line
    feed, and no carriage return at its end before a lone line feed. *)
Definition Writable (l : jsString * bool) : Prop :=
  LFfree (fst l) /\ (snd l = false -> last (fst l) 0%N <> CR).

(** Code units of Basic Latin only. *)
Definition Ascii (t : jsString) : Prop := Forall (fun c => (c < 128)%N) t.

(** The bytes of a string of code units below 256. *)
Definition bytesOf (s : jsString) : list byte :=
  map (fun c => match Byte.of_N c with Some b => b | None => x00 end) s.

(** A file whose reads never reject. *)
Definition plain (bs : list byte) : File :=
  {| contents := bs; rejects := fun _ => None |}.

Definition parseRequest (f : File) : option ParseRequest :=
  Some {| type := "parse"; file := Some f |}.

Definition scenarioLine1 : jsString :=
  str "2026-01-03T06:29:46.882Z TRACE hello".
Definition scenarioLine3 : jsString :=
  str "2026-01-03T06:29:47.000Z ERROR boom".

(** The input of the scenario of two entries. *)
Definition scenario : list byte :=
  bytesOf (scenarioLine1 ++ [LF] ++ str "world" ++ [LF]
           ++ scenarioLine3 ++ [LF]).

(** Bytes with a byte order mark, a two-byte and a four-byte character,
    both line terminators, a lone carriage return, a byte that is no
    UTF-8 and a sequence cut short. *)
Definition mixedBytes : list byte :=
  [xef; xbb; xbf; x49; x4e; x46; x4f; x20; xc3; xa9; x0d; x0a;
   x7b; xf0; x9f; x98; x80; x0d; x78; x0a; xff; xe2; x82].

(** The same bytes one per chunk, and cut inside the characters and
    between the carriage return and the line feed. *)
Definition mixedSingles : list (list byte) := map (fun b => [b]) mixedBytes.
Definition mixedCuts : list (list byte) :=
  [[xef; xbb]; [xbf; x49; x4e; x46; x4f; x20; xc3]; [xa9; x0d];
   [x0a; x7b; xf0; x9f]; [x98; x80; x0d; x78; x0a; xff; xe2]; [x82]].

End Samples.

(* ================================================================== *)
(** * Severity, timestamp, entry start and continuation, declaratively  *)
(* ================================================================== *)

Module Classification.
Import JS Encoding Worker Meaning Denotation.

Definition severityTokens : list string :=
  ["ERROR"; "WARN"; "WARNING"; "INFO"; "DEBUG"; "TRACE"; "FATAL"]%string.

(** No word character right before [post] ends [pre], nor starts [post]:
    what lies between them is a whole word when it is made of word
    characters. *)
Definition wordEdges (pre post : jsString) : Prop :=
  match rev pre with c :: _ => isWordChar c = false | [] => True end
  /\ match post with c :: _ => isWordChar c = false | [] => True end.

(** [w] is the token [tok], in any mix of cases, as a whole word of
    [line], after [pre] and before [post]. *)
Definition SeverityAt (line pre w post : jsString) (tok : string) : Prop :=
  line = pre ++ w ++ post
  /\ In tok severityTokens
  /\ toUpperCase w = str tok
  /\ wordEdges pre post.

Definition digits (n : nat) (s : jsString) : Prop :=
  length s = n /\ Forall (fun c => isDigit c = true) s.

(** Nothing, or a dot and one digit or more. *)
Definition Fraction (f : jsString) : Prop :=
  f = [] \/ exists ds, f = str "." ++ ds /\ ds <> []
                       /\ Forall (fun c => isDigit c = true) ds.

(** YYYY-MM-DD, then T or a white space, then HH:MM:SS, then an optional
    fraction. *)
Definition TimestampText (ts : jsString) : Prop :=
  exists Y M D sep h m s frac,
    ts = Y ++ str "-" ++ M ++ str "-" ++ D ++ [sep]
         ++ h ++ str ":" ++ m ++ str ":" ++ s ++ frac
    /\ digits 4 Y /\ digits 2 M /\ digits 2 D
    /\ (sep = N_of_ascii "T" \/ isWhiteSpace sep = true)
    /\ digits 2 h /\ digits 2 m /\ digits 2 s
    /\ Fraction frac.

Definition TimestampAt (line pre ts post : jsString) : Prop :=
  line = pre ++ ts ++ post /\ TimestampText ts.

(** The first line of an entry's text. *)
Definition firstLineOf (e : LogEntry) : jsString := hd [] (linesOf e).

(** Every entry is classified by its first line. *)
Definition Classified (es : list LogEntry) : Prop :=
  Forall (fun e => severity e = detectSeverity (firstLineOf e)
                   /\ timestamp e = detectTimestamp (firstLineOf e)) es.

Definition allWhiteSpace (ws : jsString) : Prop :=
  Forall (fun c => isWhiteSpace c = true) ws.

(** A line that looks like the start of a record: it holds a timestamp,
    or a severity token, or starts, after white space, with a brace. *)
Definition EntryStart (line : jsString) : Prop :=
  (exists pre ts post, TimestampAt line pre ts post)
  \/ (exists pre w post tok, SeverityAt line pre w post tok)
  \/ (exists ws rest, line = ws ++ str "{" ++ rest /\ allWhiteSpace ws).

(** A line that looks like more of the entry before it: blank, or
    starting with a white space, or, once trimmed, starting with [at] and a
    white space, with [Caused by], with [Traceback], or with [File], one
    white space or more, and a double quote (code unit 34). *)
Definition Continuation (line : jsString) : Prop :=
  trim line = []
  \/ (exists c rest, line = c :: rest /\ isWhiteSpace c = true)
  \/ (exists c rest, trim line = str "at" ++ c :: rest
                     /\ isWhiteSpace c = true)
  \/ (exists rest, trim line = str "Caused by" ++ rest)
  \/ (exists rest, trim line = str "Traceback" ++ rest)
  \/ (exists ws rest, trim line = str "File" ++ ws ++ 34%N :: rest
                      /\ ws <> [] /\ allWhiteSpace ws).

(** The entry [finalizeEntry] makes of a current entry. *)
Definition closedEntry (cur : CurrentEntry) : LogEntry :=
  {| lineStart := startLine cur;
     lineEnd := (startLine cur + Z.of_nat (length (lines cur)) - 1)%Z;
     text := join [LF] (lines cur);
     severity := detectSeverity (firstLine (lines cur));
     timestamp := detectTimestamp (firstLine (lines cur)) |}.

(** The line closes the current entry and opens one of its own. *)
Definition Opens (line : jsString) (cur : CurrentEntry) (st st' : Parser)
  : Prop :=
  entries st' = entries st ++ [closedEntry cur]
  /\ currentEntry st'
     = Some {| startLine := (lineNumber st + 1)%Z; lines := [line] |}.

(** The line goes to the end of the current entry. *)
Definition Appends (line : jsString) (cur : CurrentEntry) (st st' : Parser)
  : Prop :=
  entries st' = entries st
  /\ currentEntry st'
     = Some {| startLine := startLine cur; lines := lines cur ++ [line] |}.

(** ** The two tests as the claim words them *)

Fixpoint startsWith (p s : jsString) : bool :=
  match p, s with
  | [], _ => true
  | c :: p', d :: s' => (c =? d)%N && startsWith p' s'
  | _ :: _, [] => false
  end.

(** Blank, leading white space, or the trimmed line starting with
    [at] and a space, [Caused by], [Traceback], or [File], a space and a
    double quote. *)
Definition wordedContinuation (line : jsString) : bool :=
  match trim line with
  | [] => true
  | _ :: _ =>
      match line with c :: _ => isWhiteSpace c | [] => false end
      || startsWith (str "at ") (trim line)
      || startsWith (str "Caused by") (trim line)
      || startsWith (str "Traceback") (trim line)
      || startsWith (str "File " ++ [34%N]) (trim line)
  end.

(** A timestamp pattern, a severity token, or a brace after leading
    white space. *)
Definition wordedEntryStart (line : jsString) : bool :=
  isSome (detectTimestamp line) || isSome (detectSeverity line)
  || startsWith (str "{") (trimStart line).

End Classification.

(* ================================================================== *)
(** * More of the platform: strings, arrays and [Set]                  *)
(* ================================================================== *)

Module Builtins.
Import JS.

(** [a === b] on two strings. *)
Fixpoint strictEquals (a b : jsString) : bool :=
  match a, b with
  | [], [] => true
  | c :: a', d :: b' => (c =? d)%N && strictEquals a' b'
  | _, _ => false
  end.

(** [s.startsWith(p)] *)
Fixpoint startsWith (s p : jsString) {struct p} : bool :=
  match p, s with
  | [], _ => true
  | c :: p', d :: s' => (c =? d)%N && startsWith s' p'
  | _ :: _, [] => false
  end.

(** [s.includes(q)] *)
Fixpoint includes (s q : jsString) {struct s} : bool :=
  startsWith s q
  || match s with [] => false | _ :: s' => includes s' q end.

(** A string that is not empty is truthy. *)
Definition truthy (s : jsString) : bool :=
  match s with [] => false | _ :: _ => true end.

(** [String(n)] and [`${n}`] for an integer [n] (of size below 10^21). *)
Definition numberToString (n : Z) : jsString :=
  if (n <? 0)%Z then str "-" ++ str (Page.decimal (- n))
  else str (Page.decimal n).

(** [s.padStart(n)]: spaces before [s] up to the length [n]. *)
Definition padStart (n : nat) (s : jsString) : jsString :=
  repeat 32%N (n - length s) ++ s.

(** [array.slice(0, end)]: a negative [end] counts from the end. *)
Definition sliceTo {A : Type} (end_ : Z) (l : list A) : list A :=
  let len := Z.of_nat (length l) in
  let final := if (end_ <? 0)%Z then Z.max (len + end_) 0
               else Z.min end_ len in
  firstn (Z.to_nat final) l.

(** [array.filter((x, idx) => p)] and [array.map((x, idx) => f)], the
    index counted from [idx]. *)
Fixpoint filterFrom {A : Type} (p : A -> Z -> bool) (idx : Z) (l : list A)
  : list A :=
  match l with
  | [] => []
  | x :: rest =>
      if p x idx then x :: filterFrom p (idx + 1) rest
      else filterFrom p (idx + 1) rest
  end.

Fixpoint mapFrom {A B : Type} (f : A -> Z -> B) (idx : Z) (l : list A)
  : list B :=
  match l with
  | [] => []
  | x :: rest => f x idx :: mapFrom f (idx + 1) rest
  end.

(** ** [Set<number>]

    The elements in insertion order, each once. *)

(** [set.has(i)] *)
Definition has (i : Z) (s : list Z) : bool := existsb (Z.eqb i) s.

(** [set.add(i)] *)
Definition add (i : Z) (s : list Z) : list Z :=
  if has i s then s else s ++ [i].

(** [set.delete(i)] *)
Definition delete (i : Z) (s : list Z) : list Z :=
  filter (fun j => negb (j =? i)%Z) s.

(** [new Set(iterable)] *)
Definition newSet (l : list Z) : list Z :=
  fold_left (fun s i => add i s) l [].

(** [set.size] *)
Definition setSize (s : list Z) : Z := Z.of_nat (length s).

End Builtins.

(* ================================================================== *)
(** * [src/app/page.tsx]: the worker's messages and the selection       *)
(* ================================================================== *)

Module Home.
Import JS Worker Page Builtins.

Section Messages.

(** [Math.round(percent * 100)], as a function of the exact quotient
    whose double [percent] is. *)
Variable percentage : Q -> Z.

(** [worker.onmessage] *)
Definition onWorkerMessage (data : Message) (st : State) : State :=
  match data with
  | PROGRESS p =>
      {| workerRef := workerRef st; entries := entries st;
         selectedEntries := selectedEntries st; stats := stats st;
         isParsing := isParsing st;
         progress := percentage (Progress.percent p);
         error := error st |}
  | DONE es s =>
      {| workerRef := workerRef st; entries := es;
         selectedEntries := selectedEntries st; stats := Some s;
         isParsing := false; progress := 100; error := error st |}
  | ERROR e =>
      {| workerRef := workerRef st; entries := entries st;
         selectedEntries := selectedEntries st; stats := stats st;
         isParsing := false; progress := progress st; error := Some e |}
  end.

(** The messages of the worker handled in the order they were posted. *)
Definition deliverAll (msgs : list Message) (st : State) : State :=
  fold_left (fun s m => onWorkerMessage m s) msgs st.

End Messages.

Definition setSelectedEntries (v : list Z) (st : State) : State :=
  {| workerRef := workerRef st; entries := entries st;
     selectedEntries := v; stats := stats st;
     isParsing := isParsing st; progress := progress st;
     error := error st |}.

Definition handleSelectionChange (index : Z) (selected : bool) (st : State)
  : State :=
  let next := newSet (selectedEntries st) in
  setSelectedEntries (if selected then add index next else delete index next)
    st.

Definition handleSelectAll (indices : list Z) (st : State) : State :=
  setSelectedEntries (newSet indices) st.

Definition handleClearSelection (st : State) : State :=
  setSelectedEntries (newSet []) st.

(** [entries.filter((_, idx) => selectedEntries.has(idx))] *)
Definition selectedEntryObjects (st : State) : list LogEntry :=
  filterFrom (fun _ idx => has idx (selectedEntries st)) 0 (entries st).

End Home.

(* ================================================================== *)
(** * [src/app/components/Viewer.tsx]: filters and the rows shown       *)
(* ================================================================== *)

Module Viewer.
Import JS Worker Builtins.

Inductive SeverityFilter : Type := ALL | ERROR | WARN | INFO | DEBUG | TRACE.

(** The string a filter is. *)
Definition filterText (f : SeverityFilter) : jsString :=
  match f with
  | ALL => str "ALL"
  | ERROR => str "ERROR"
  | WARN => str "WARN"
  | INFO => str "INFO"
  | DEBUG => str "DEBUG"
  | TRACE => str "TRACE"
  end.

Definition SEVERITY_COLORS : list (jsString * string) :=
  [(str "ERROR", "text-red-600"%string);
   (str "FATAL", "text-red-600"%string);
   (str "WARN", "text-yellow-600"%string);
   (str "WARNING", "text-yellow-600"%string);
   (str "INFO", "text-blue-600"%string);
   (str "DEBUG", "text-neutral-500"%string);
   (str "TRACE", "text-neutral-400"%string)].

Definition DEFAULT_LIMIT : Z := 150.

(** The state of the component. *)
Record State : Type := {
  severityFilter : SeverityFilter;
  searchQuery : jsString;
  displayLimit : Z
}.

Definition initialState : State :=
  {| severityFilter := ALL; searchQuery := []; displayLimit := DEFAULT_LIMIT |}.

Record Indexed : Type := {
  entry : LogEntry;
  originalIndex : Z
}.

Definition indexedEntries (entries : list LogEntry) : list Indexed :=
  mapFrom (fun entry index => {| entry := entry; originalIndex := index |})
    0 entries.

(** [sev === s], where [sev] can be [undefined]. *)
Definition sevIs (sev : option jsString) (s : jsString) : bool :=
  match sev with Some v => strictEquals v s | None => false end.

(** The test of the severity filter when it is not ["ALL"].
    [toUpperCase] is that of the Basic Latin letters, which a severity
    of the worker is made of. *)
Definition severityPasses (severityFilter : SeverityFilter) (x : Indexed)
  : bool :=
  let sev := option_map toUpperCase (severity (entry x)) in
  match severityFilter with
  | WARN => sevIs sev (str "WARN") || sevIs sev (str "WARNING")
  | _ => sevIs sev (filterText severityFilter)
  end.

Section Search.

(** [String.prototype.toLowerCase] *)
Variable toLowerCase : jsString -> jsString.

Definition filteredEntries (st : State) (entries : list LogEntry)
  : list Indexed :=
  let result := indexedEntries entries in
  let result :=
    match severityFilter st with
    | ALL => result
    | _ => filter (severityPasses (severityFilter st)) result
    end in
  if truthy (trim (searchQuery st)) then
    let query := toLowerCase (searchQuery st) in
    filter (fun x => includes (toLowerCase (text (entry x))) query) result
  else result.

Definition displayedEntries (st : State) (entries : list LogEntry)
  : list Indexed :=
  sliceTo (displayLimit st) (filteredEntries st entries).

Definition hasMore (st : State) (entries : list LogEntry) : bool :=
  (displayLimit st <? Z.of_nat (length (filteredEntries st entries)))%Z.

(** [handleSelectAllVisible], with [onSelectAll] the page's
    [handleSelectAll]. *)
Definition handleSelectAllVisible (st : State) (page : Page.State)
  : Page.State :=
  let visibleIndices :=
    map originalIndex (displayedEntries st (Page.entries page)) in
  Home.handleSelectAll visibleIndices page.

Definition handleShowMore (st : State) : State :=
  {| severityFilter := severityFilter st; searchQuery := searchQuery st;
     displayLimit := (displayLimit st + 100)%Z |}.

Definition handleShowAll (st : State) (entries : list LogEntry) : State :=
  {| severityFilter := severityFilter st; searchQuery := searchQuery st;
     displayLimit := Z.of_nat (length (filteredEntries st entries)) |}.

End Search.

Definition formatLineNum (start end_ : Z) : jsString :=
  let lineStr :=
    if (start =? end_)%Z then numberToString start
    else numberToString start ++ str "-" ++ numberToString end_ in
  padStart 6 lineStr.

(** ** What a row shows of its entry *)

(** [entry.text.split(LF).length > 1] *)
Definition isMultiLine (entry : LogEntry) : bool :=
  (1 <? length (splitOn LF (text entry)))%nat.

(** [s.length > n ? s.slice(0, n) + "..." : s] *)
Definition cut (n : nat) (s : jsString) : jsString :=
  if (n <? length s)%nat then firstn n s ++ str "..." else s.

Definition shownText (entry : LogEntry) : jsString :=
  if isMultiLine entry then cut 1000 (text entry) else cut 500 (text entry).

(** The timestamp shown, when the entry has one. *)
Definition shownTimestamp (entry : LogEntry) : option jsString :=
  match timestamp entry with
  | Some ts =>
      if truthy ts
      then Some (if (24 <? length ts)%nat then firstn 24 ts else ts)
      else None
  | None => None
  end.

(** [SEVERITY_COLORS[key]] *)
Fixpoint lookup (key : jsString) (table : list (jsString * string))
  : option string :=
  match table with
  | [] => None
  | (k, v) :: rest => if strictEquals k key then Some v else lookup key rest
  end.

Definition getSeverityColor (severity : option jsString) : string :=
  match severity with
  | None => "text-neutral-600"
  | Some s =>
      if truthy s then
        match lookup (toUpperCase s) SEVERITY_COLORS with
        | Some color => color
        | None => "text-neutral-600"
        end
      else "text-neutral-600"
  end.

End Viewer.

(* ================================================================== *)
(** * What the page and the viewer show                                *)
(* ================================================================== *)

Module Shown.
Import JS Worker Builtins.

(** [l] is made of elements of [m], in the order they have there. *)
Inductive Subsequence {A : Type} : list A -> list A -> Prop :=
| SubNil : forall m, Subsequence [] m
| SubTake : forall x l m, Subsequence l m -> Subsequence (x :: l) (x :: m)
| SubSkip : forall y l m, Subsequence l m -> Subsequence l (y :: m).

(** Numbers that go up, each above [low]. *)
Fixpoint Ascending (low : Z) (l : list Z) : Prop :=
  match l with
  | [] => True
  | i :: rest => (low < i)%Z /\ Ascending i rest
  end.

(** The indices below [n] that a selection holds, in order. *)
Definition selectedIndices (sel : list Z) (n : nat) : list nat :=
  filter (fun i => has (Z.of_nat i) sel) (seq 0 n).

(** The state of the page that a parse leaves when it is done. *)
Definition showsParse (clock : Clock) (file : File) (st : Page.State)
  : Prop :=
  (exists s, Page.stats st = Some s
             /\ DONE (Page.entries st) s = Denotation.doneOf clock file)
  /\ Page.progress st = 100%Z
  /\ Page.error st = None.

(** The state of the page that a parse leaves when a read was
    rejected with [e]. *)
Definition showsFailure (e : Thrown) (st : Page.State) : Prop :=
  Page.entries st = []
  /\ Page.stats st = None
  /\ Page.error st = Some (Denotation.causeOf e).

End Shown.

(* ================================================================== *)
(** * [src/app/components/ChatPanel.tsx]                                *)
(* ================================================================== *)

Module ChatPanel.
Import JS Encoding Worker Builtins.

Inductive Role : Type := user | assistant.

Record Message : Type := {
  role : Role;
  content : jsString
}.

Definition MAX_TOKENS : Z := 16000.
Definition CHARS_PER_TOKEN : Z := 4.

(** The state of the component; [error] is [null] or a message. *)
Record State : Type := {
  apiKey : jsString;
  question : jsString;
  messages : list Message;
  isLoading : bool;
  error : option jsString
}.

Definition initialState : State :=
  {| apiKey := []; question := []; messages := []; isLoading := false;
     error := None |}.

Definition setApiKey (v : jsString) (st : State) : State :=
  {| apiKey := v; question := question st; messages := messages st;
     isLoading := isLoading st; error := error st |}.
Definition setQuestion (v : jsString) (st : State) : State :=
  {| apiKey := apiKey st; question := v; messages := messages st;
     isLoading := isLoading st; error := error st |}.
Definition setMessages (v : list Message) (st : State) : State :=
  {| apiKey := apiKey st; question := question st; messages := v;
     isLoading := isLoading st; error := error st |}.
Definition setIsLoading (v : bool) (st : State) : State :=
  {| apiKey := apiKey st; question := question st; messages := messages st;
     isLoading := v; error := error st |}.
Definition setError (v : option jsString) (st : State) : State :=
  {| apiKey := apiKey st; question := question st; messages := messages st;
     isLoading := isLoading st; error := v |}.

(** ** [sessionStorage]: the key/value pairs of the session *)

Definition Storage : Type := list (string * jsString).

Fixpoint getItem (key : string) (s : Storage) : option jsString :=
  match s with
  | [] => None
  | (k, v) :: rest => if String.eqb k key then Some v else getItem key rest
  end.

Fixpoint removeItem (key : string) (s : Storage) : Storage :=
  match s with
  | [] => []
  | (k, v) :: rest =>
      if String.eqb k key then removeItem key rest
      else (k, v) :: removeItem key rest
  end.

(** A new pair goes to the end; the value of a key that is there is
    replaced in place. *)
Fixpoint setItem (key : string) (value : jsString) (s : Storage) : Storage :=
  match s with
  | [] => [(key, value)]
  | (k, v) :: rest =>
      if String.eqb k key then (k, value) :: removeItem key rest
      else (k, v) :: setItem key value rest
  end.

(** The effect run on mount: the stored key, when there is one. *)
Definition onMount (storage : Storage) (st : State) : State :=
  match getItem "anthropic_api_key" storage with
  | Some stored => if truthy stored then setApiKey stored st else st
  | None => st
  end.

Definition handleApiKeyChange (key : jsString) (st : State)
  (storage : Storage) : State * Storage :=
  (setApiKey key st,
   if truthy key then setItem "anthropic_api_key" key storage
   else removeItem "anthropic_api_key" storage).

(** ** The estimate of tokens *)

Definition selectedText (selectedEntries : list LogEntry) : jsString :=
  join [LF] (map text selectedEntries).

(** [Math.ceil(selectedText.length / CHARS_PER_TOKEN)]; the quotient by
    4 is exact. *)
Definition estimatedTokens (selectedEntries : list LogEntry) : Z :=
  (- ((- Z.of_nat (length (selectedText selectedEntries)))
      / CHARS_PER_TOKEN))%Z.

Definition isOverLimit (selectedEntries : list LogEntry) : bool :=
  (MAX_TOKENS <? estimatedTokens selectedEntries)%Z.

Definition hasSelection (selectedEntries : list LogEntry) : bool :=
  (0 <? Z.of_nat (length selectedEntries))%Z.

(** [canSend] as a condition. *)
Definition canSend (selectedEntries : list LogEntry) (st : State) : bool :=
  hasSelection selectedEntries
  && truthy (trim (apiKey st)) && truthy (trim (question st))
  && negb (isLoading st) && negb (isOverLimit selectedEntries).

(** ** [handleSubmit] *)

(** The body of the request to [/api/chat]. *)
Record Request : Type := {
  requestApiKey : jsString;
  requestQuestion : jsString;
  requestEntries : list LogEntry
}.

(** What the request meets: [fetch] rejects; or the response is not
    [ok], with its status and the [error] of its body when the body is
    an object with one that is truthy; or the response has no body; or
    its body is read chunk by chunk until it is done or a read
    rejects. *)
Inductive Reply : Type :=
| Unreachable (e : Thrown)
| Refused (status : Z) (error : option jsString)
| NoBody
| Streamed (chunks : list (list byte)) (failure : option Thrown).

(** [err instanceof Error ? err.message : "Unknown error"] *)
Definition messageOf (e : Thrown) : jsString :=
  match e with
  | ErrorObject m => str m
  | OtherValue => str "Unknown error"
  end.

(** [updated[updated.length - 1] = m] on a copy of the array. *)
Definition setLast (m : Message) (l : list Message) : list Message :=
  match l with
  | [] => []
  | _ :: _ => removelast l ++ [m]
  end.

(** The loop over the chunks read. *)
Fixpoint readAll (chunks : list (list byte)) (decoder : TextDecoder)
  (assistantMessage : jsString) (st : State) : State :=
  match chunks with
  | [] => st
  | value :: rest =>
      let (decoder, chunk) := decode value true decoder in
      let assistantMessage := assistantMessage ++ chunk in
      readAll rest decoder assistantMessage
        (setMessages
           (setLast {| role := assistant; content := assistantMessage |}
              (messages st)) st)
  end.

(** The [catch] block. *)
Definition onCatch (message : jsString) (st : State) : State :=
  let st := setError (Some message) st in
  setMessages
    (match rev (messages st) with
     | m :: _ =>
         match role m with
         | assistant =>
             if truthy (content m) then messages st
             else removelast (messages st)
         | user => messages st
         end
     | [] => messages st
     end) st.

(** The state when [handleSubmit] has run to its end, and the request
    it made, if any. *)
Definition handleSubmit (selectedEntries : list LogEntry) (reply : Reply)
  (st : State) : State * option Request :=
  if negb (canSend selectedEntries st) then (st, None)
  else
    let userMessage := trim (question st) in
    let request := {| requestApiKey := trim (apiKey st);
                      requestQuestion := userMessage;
                      requestEntries := selectedEntries |} in
    let st := setQuestion [] st in
    let st := setError None st in
    let st := setMessages
                (messages st ++ [{| role := user; content := userMessage |}])
                st in
    let st := setIsLoading true st in
    let st :=
      match reply with
      | Unreachable e => onCatch (messageOf e) st
      | Refused status error =>
          onCatch
            (match error with
             | Some m => m
             | None => str "Request failed with status "
                       ++ numberToString status
             end) st
      | NoBody => onCatch (str "No response body") st
      | Streamed chunks failure =>
          let st := setMessages
                      (messages st ++ [{| role := assistant; content := [] |}])
                      st in
          let st := readAll chunks newTextDecoder [] st in
          match failure with
          | None => st
          | Some e => onCatch (messageOf e) st
          end
      end in
    (setIsLoading false st, Some request).

End ChatPanel.

(* ================================================================== *)
(** * [src/app/api/chat/route.ts]                                       *)
(* ================================================================== *)

Module Route.
Import JS Encoding Worker Builtins.

(** [ChatRequest]: the body of the request as [request.json()] returns
    it for what the chat panel sends, every field of its type. *)
Record ChatRequest : Type := {
  apiKey : jsString;
  question : jsString;
  entries : list LogEntry
}.

(** The body the chat panel sends. *)
Definition bodyOf (r : ChatPanel.Request) : ChatRequest :=
  {| apiKey := ChatPanel.requestApiKey r;
     question := ChatPanel.requestQuestion r;
     entries := ChatPanel.requestEntries r |}.

(** What [POST] answers: [Response.json({ error }, { status })], or the
    stream, known by the texts enqueued (each as its UTF-8 bytes). *)
Inductive Response : Type :=
| Json (status : Z) (error : jsString)
| Stream (texts : list jsString).

(** The checks of the request; [None] when it passes them. *)
Definition validate (body : ChatRequest) : option Response :=
  if negb (truthy (apiKey body)) then
    Some (Json 400 (str "API key is required"))
  else if negb (truthy (question body)) then
    Some (Json 400 (str "Question is required"))
  else
    match entries body with
    | [] => Some (Json 400 (str "At least one log entry is required"))
    | _ :: _ => None
    end.

(** A string that is there and not empty, between brackets. *)
Definition bracketed (field : option jsString) : jsString :=
  match field with
  | Some s => if truthy s then str "[" ++ s ++ str "]" else []
  | None => []
  end.

(** [lineInfo] in the callback of [entries.map]. *)
Definition lineInfo (entry : LogEntry) : jsString :=
  if negb (lineEnd entry =? lineStart entry)%Z
  then str "[Lines " ++ numberToString (lineStart entry) ++ str "-"
       ++ numberToString (lineEnd entry) ++ str "]"
  else str "[Line " ++ numberToString (lineStart entry) ++ str "]".

Definition formatEntry (entry : LogEntry) : jsString :=
  lineInfo entry ++ str " " ++ bracketed (severity entry) ++ str " "
  ++ bracketed (timestamp entry) ++ [LF] ++ text entry.

Definition formattedEntries (entries : list LogEntry) : jsString :=
  join ([LF; LF] ++ str "---" ++ [LF; LF]) (map formatEntry entries).

Definition userMessage (body : ChatRequest) : jsString :=
  str "Here are the selected log entries:" ++ [LF; LF]
  ++ formattedEntries (entries body)
  ++ [LF; LF] ++ str "---" ++ [LF; LF] ++ str "Question: " ++ question body.

(** What the request to the API meets: [fetch] rejects; or the response
    is not [ok], with its status and the message of the error in its
    body when there is one that is truthy; or the response is [ok], with
    no body, or a body read value by value until it is done or a read
    rejects. *)
Inductive Upstream : Type :=
| Unreachable (e : Thrown)
| NotOk (status : Z) (message : option jsString)
| Ok (body : option (list (list byte) * option Thrown)).

Section Events.

(** What one event enqueues: [JSON.parse(data)] and the two tests on
    what it returns give the texts, none when the parse throws. *)
Variable events : jsString -> list jsString.

(** The body of the loop over the lines. *)
Definition onLine (line : jsString) : list jsString :=
  if startsWith line (str "data: ") then
    let data := skipn 6 line in
    if strictEquals data (str "[DONE]") then [] else events data
  else [].

(** The variables of [start]. *)
Record Reader : Type := {
  decoder : TextDecoder;
  buffer : jsString
}.

(** One round of the loop on a value read: the state and the texts
    enqueued. *)
Definition onValue (value : list byte) (r : Reader)
  : Reader * list jsString :=
  let (dec, text) := decode value true (decoder r) in
  let buffer := buffer r ++ text in
  let lines := splitOn LF buffer in
  ({| decoder := dec; buffer := last lines [] |},
   flat_map onLine (removelast lines)).

Fixpoint readAll (values : list (list byte)) (r : Reader)
  : Reader * list jsString :=
  match values with
  | [] => (r, [])
  | value :: rest =>
      let (r1, out1) := onValue value r in
      let (r2, out2) := readAll rest r1 in
      (r2, out1 ++ out2)
  end.

(** [start(controller)]: every text enqueued before the stream is
    closed. *)
Definition start (body : option (list (list byte) * option Thrown))
  : list jsString :=
  match body with
  | None => []
  | Some (values, failure) =>
      snd (readAll values {| decoder := newTextDecoder; buffer := [] |})
      ++ match failure with
         | None => []
         | Some e =>
             [[LF; LF] ++ str "Stream error: " ++ ChatPanel.messageOf e]
         end
  end.

Definition POST (body : ChatRequest) (upstream : Upstream) : Response :=
  match validate body with
  | Some response => response
  | None =>
      match upstream with
      | Unreachable e =>
          Json 500 (match e with
                    | ErrorObject m => str m
                    | OtherValue => str "Internal server error"
                    end)
      | NotOk status message =>
          Json status
            (match message with
             | Some m => m
             | None => str "Anthropic API error: " ++ numberToString status
             end)
      | Ok body => Stream (start body)
      end
  end.

End Events.

End Route.

(* ================================================================== *)
(** * Progress and totals of a parse; the byte order mark             *)
(* ================================================================== *)

Module Counts.
Import JS Encoding Worker.

(** The byte order mark of UTF-8. *)
Definition BOM : list byte := [xef; xbb; xbf].

(** Whether the bytes start with the byte order mark. *)
Definition marked (bytes : list byte) : bool :=
  match bytes with
  | b0 :: b1 :: b2 :: _ =>
      ((Byte.to_N b0 =? 0xEF) && (Byte.to_N b1 =? 0xBB)
       && (Byte.to_N b2 =? 0xBF))%N
  | _ => false
  end.

(** The code points of a whole byte stream, the end of the stream
    handled. *)
Definition codePoints (bytes : list byte) : list N :=
  snd (utf8Run utf8Initial bytes)
  ++ snd (utf8End (fst (utf8Run utf8Initial bytes))).

(** Each progress report is beyond the one before it in bytes and
    not behind it in fraction, lines and entries. *)
Fixpoint Advancing (ps : list Progress.payload) : Prop :=
  match ps with
  | p :: rest =>
      match rest with
      | q :: _ =>
          (Progress.bytesProcessed p < Progress.bytesProcessed q)%Z
          /\ (Progress.percent p <= Progress.percent q)%Q
          /\ (Progress.lines p <= Progress.lines q)%Z
          /\ (Progress.entries p <= Progress.entries q)%Z
      | [] => True
      end /\ Advancing rest
  | [] => True
  end.

(** A progress report within the given bytes, fraction, lines and
    entries. *)
Definition Within (bytes : Z) (fraction : Q) (lines entries : Z)
  (p : Progress.payload) : Prop :=
  (Progress.bytesProcessed p <= bytes)%Z
  /\ (Progress.percent p <= fraction)%Q
  /\ (Progress.lines p <= lines)%Z
  /\ (Progress.entries p <= entries)%Z.

(** The fraction reported at [bytes] of [total]. *)
Definition fractionAt (bytes total : Z) : Q :=
  Qmin 1 (inject_Z bytes / inject_Z total)%Q.

(** The last report is at the end of the file. *)
Definition EndsAt (total : Z) (ps : list Progress.payload) : Prop :=
  exists front p, ps = front ++ [p]
                  /\ Progress.bytesProcessed p = total
                  /\ (Progress.percent p == 1)%Q.

(** What holds of the reports posted when the loop has read [B]. *)
Definition Reported (file : File) (B : list byte) (st : Parser)
  (posted : list Message) : Prop :=
  bytesProcessed st = Z.of_nat (length B)
  /\ exists ps,
       posted = map PROGRESS ps
       /\ Advancing ps
       /\ Forall (Within (bytesProcessed st)
                    (fractionAt (bytesProcessed st) (size file))
                    (lineNumber st) (Z.of_nat (length (entries st)))) ps
       /\ (B <> [] -> (size file <= bytesProcessed st)%Z ->
           EndsAt (size file) ps).

End Counts.

(* ================================================================== *)
(** * [new TextEncoder().encode]: a string as UTF-8                      *)
(* ================================================================== *)

(** The encoder is the platform's: the conversion of a string to
    scalar values of Web IDL, then the UTF-8 encoder of the Encoding
    Standard. *)

Module Encoder.
Import JS Encoding.

Definition isHighSurrogate (c : N) : bool := inRange 0xD800 0xDBFF c.
Definition isLowSurrogate (c : N) : bool := inRange 0xDC00 0xDFFF c.

(** The scalar values of a string: a high surrogate and the low one
    after it are one scalar value, a surrogate alone is U+FFFD. *)
Fixpoint scalarValues (s : jsString) : list N :=
  match s with
  | [] => []
  | c :: rest =>
      if isHighSurrogate c then
        match rest with
        | d :: rest' =>
            if isLowSurrogate d
            then (0x10000 + (c - 0xD800) * 0x400 + (d - 0xDC00))%N
                 :: scalarValues rest'
            else REPLACEMENT :: scalarValues rest
        | [] => [REPLACEMENT]
        end
      else if isLowSurrogate c then REPLACEMENT :: scalarValues rest
      else c :: scalarValues rest
  end.

(** The bytes after the first one: six bits each, the highest first. *)
Fixpoint continuation (cp : N) (count : nat) : list N :=
  match count with
  | O => []
  | S k =>
      N.lor 0x80 (N.land (N.shiftr cp (6 * N.of_nat k)) 0x3F)
      :: continuation cp k
  end.

(** The UTF-8 encoder on a scalar value. *)
Definition utf8Encode (cp : N) : list N :=
  if inRange 0x00 0x7F cp then [cp]
  else
    let (count, offset) :=
      if inRange 0x80 0x7FF cp then (1%nat, 0xC0%N)
      else if inRange 0x800 0xFFFF cp then (2%nat, 0xE0%N)
      else (3%nat, 0xF0%N) in
    (N.shiftr cp (6 * N.of_nat count) + offset)%N :: continuation cp count.

(** A number below 256 as a byte. *)
Definition toByte (n : N) : byte :=
  match Byte.of_N n with Some b => b | None => x00 end.

(** [encoder.encode(s)] *)
Definition encode (s : jsString) : list byte :=
  map toByte (flat_map utf8Encode (scalarValues s)).

(** [s.toWellFormed()]: the string with U+FFFD for every surrogate that
    is alone. *)
Definition toWellFormed (s : jsString) : jsString :=
  flat_map utf16 (scalarValues s).

(** [s.isWellFormed()]: no surrogate is alone. *)
Fixpoint isWellFormed (s : jsString) : bool :=
  match s with
  | [] => true
  | c :: rest =>
      if isHighSurrogate c then
        match rest with
        | d :: rest' => isLowSurrogate d && isWellFormed rest'
        | [] => false
        end
      else negb (isLowSurrogate c) && isWellFormed rest
  end.

(** A string of code units, each below 2^16. *)
Definition CodeUnits (s : jsString) : Prop :=
  Forall (fun c => (c < 0x10000)%N) s.

(** A scalar value: a code point that is no surrogate. *)
Definition Scalar (cp : N) : Prop :=
  (cp <= 0x10FFFF)%N /\ ~ (0xD800 <= cp <= 0xDFFF)%N.

(** The string without the byte order mark at its start, if it has
    one. *)
Definition dropMark (s : jsString) : jsString :=
  match s with
  | c :: rest => if (c =? 0xFEFF)%N then rest else s
  | [] => []
  end.

End Encoder.

(* ================================================================== *)
(** * The matcher finds exactly the matches                            *)
(* ================================================================== *)

Section Matcher.
Import JS Meaning.

Lemma in_flat_map_iff (A B : Type) (f : A -> list B) (l : list A) (y : B) :
  In y (flat_map f l) <-> exists x, In x l /\ In y (f x).
Proof. apply in_flat_map. Qed.

(** More rounds than code units left never change the iteration. *)
Lemma iterate_rounds (step : Pos -> list Pos) (n m : nat) :
  forall x, (length (snd x) < n)%nat -> (length (snd x) < m)%nat ->
  iterate step n x = iterate step m x.
Proof.
  revert m. induction n as [|n IH]; intros m x Hn Hm; [lia|].
  destruct m as [|m]; [lia|]. simpl. f_equal.
  apply flat_map_ext. intros y.
  destruct (Nat.ltb_spec (length (snd y)) (length (snd x))); auto.
  apply IH; lia.
Qed.

Lemma iterate_sound (r : RegExp) :
  (forall x y, In y (exec r x) -> Reaches r x y) ->
  forall n x y, In y (iterate (exec r) n x) -> Reaches (Star r) x y.
Proof.
  intros Hr. induction n as [|n IH]; intros x y Hin; simpl in Hin.
  - destruct Hin as [<-|[]]. exists []. repeat split; constructor.
  - apply in_app_or in Hin. destruct Hin as [Hin|[<-|[]]].
    + apply in_flat_map in Hin. destruct Hin as (z & Hz & Hy).
      destruct (Nat.ltb_spec (length (snd z)) (length (snd x))) as [Hlt|];
        [|contradiction].
      apply Hr in Hz. destruct Hz as (s1 & E1 & F1 & M1).
      apply IH in Hy. destruct Hy as (s2 & E2 & F2 & M2).
      exists (s1 ++ s2). split; [|split].
      * rewrite E1, E2, app_assoc. reflexivity.
      * rewrite F2, F1, rev_app_distr, app_assoc. reflexivity.
      * apply MStarCons.
        -- intros ->. rewrite E1 in Hlt. simpl in Hlt. lia.
        -- rewrite <- E2. exact M1.
        -- rewrite <- F1. exact M2.
    + exists []. repeat split; constructor.
Qed.

Lemma exec_sound (r : RegExp) :
  forall x y, In y (exec r x) -> Reaches r x y.
Proof.
  induction r as [|p|r1 IH1 r2 IH2|r1 IH1 r2 IH2|r IH| |]; intros x y Hin.
  - destruct Hin as [<-|[]]. exists []. repeat split; constructor.
  - simpl in Hin. destruct x as [b [|c a]]; simpl in Hin; [contradiction|].
    destruct (p c) eqn:Hp; [|contradiction].
    destruct Hin as [<-|[]]. exists [c]. repeat split. simpl. apply MClass. exact Hp.
  - simpl in Hin. apply in_flat_map in Hin. destruct Hin as (z & Hz & Hy).
    apply IH1 in Hz. destruct Hz as (s1 & E1 & F1 & M1).
    apply IH2 in Hy. destruct Hy as (s2 & E2 & F2 & M2).
    exists (s1 ++ s2). split; [|split].
    + rewrite E1, E2, app_assoc. reflexivity.
    + rewrite F2, F1, rev_app_distr, app_assoc. reflexivity.
    + apply MSeq; [rewrite <- E2|rewrite <- F1]; assumption.
  - simpl in Hin. apply in_app_or in Hin. destruct Hin as [Hin|Hin].
    + apply IH1 in Hin. destruct Hin as (s & E & F & M).
      exists s. repeat split; auto. now apply MAltL.
    + apply IH2 in Hin. destruct Hin as (s & E & F & M).
      exists s. repeat split; auto. now apply MAltR.
  - exact (iterate_sound r IH _ _ _ Hin).
  - simpl in Hin. destruct x as [[|c b] a]; simpl in Hin; [|contradiction].
    destruct Hin as [<-|[]]. exists []. repeat split; constructor.
  - simpl in Hin.
    destruct (xorb (wordBefore x) (wordAfter x)) eqn:Hx; [|contradiction].
    destruct Hin as [<-|[]]. exists []. repeat split.
    destruct x; now constructor.
Qed.

Lemma exec_complete (r : RegExp) (b s a : list N) :
  Matches r b s a -> In (rev s ++ b, a) (exec r (b, s ++ a)).
Proof.
  induction 1; simpl.
  - now left.
  - rewrite H. now left.
  - apply in_flat_map. exists (rev s1 ++ b, s2 ++ a). split.
    + rewrite <- app_assoc. exact IHMatches1.
    + rewrite rev_app_distr, <- app_assoc. exact IHMatches2.
  - apply in_or_app. now left.
  - apply in_or_app. now right.
  - apply in_or_app. right. now left.
  - apply in_or_app. left. apply in_flat_map.
    exists (rev s1 ++ b, s2 ++ a). split.
    + rewrite <- app_assoc. exact IHMatches1.
    + simpl.
      assert (Hlen : (length (s2 ++ a) < length ((s1 ++ s2) ++ a))%nat).
      { rewrite <- app_assoc, (length_app s1). destruct s1; [congruence|].
        simpl. lia. }
      destruct (Nat.ltb_spec (length (s2 ++ a)) (length ((s1 ++ s2) ++ a)));
        [|lia].
      rewrite rev_app_distr, <- app_assoc.
      simpl in IHMatches2.
      rewrite (iterate_rounds (exec r) (length ((s1 ++ s2) ++ a))
                 (S (length (s2 ++ a)))); simpl; try lia.
      exact IHMatches2.
  - now left.
  - simpl in H. rewrite H. now left.
Qed.

(** The matcher reaches a position exactly when the pattern matches the
    code units in between. *)
Lemma exec_matches (r : RegExp) (b s a : list N) :
  In (rev s ++ b, a) (exec r (b, s ++ a)) <-> Matches r b s a.
Proof.
  split; [|apply exec_complete].
  intros Hin. apply exec_sound in Hin. destruct Hin as (s' & E & F & M).
  simpl in *. apply app_inv_tail in E. now subst.
Qed.

(** ** The search from left to right *)

Lemma consumed_exact (b s a : list N) (y : Pos) :
  snd y = a -> consumed (b, s ++ a) y = s.
Proof.
  intros H. unfold consumed. simpl. rewrite H, length_app.
  replace (length s + length a - length a)%nat with (length s) by lia.
  rewrite firstn_app, firstn_all, Nat.sub_diag. simpl. apply app_nil_r.
Qed.

Lemma matchAt_reaches (r : RegExp) (x y : Pos) :
  matchAt r x = Some y -> Reaches r x y.
Proof.
  unfold matchAt. intros H. apply exec_sound.
  destruct (exec r x); simpl in H; [discriminate|].
  injection H as ->. now left.
Qed.

Lemma matchAt_none (r : RegExp) (b s a : list N) :
  matchAt r (b, s ++ a) = None -> ~ Matches r b s a.
Proof.
  unfold matchAt. intros H M. apply exec_complete in M.
  destruct (exec r (b, s ++ a)); [contradiction|discriminate].
Qed.

Lemma matchAt_some (r : RegExp) (b s a : list N) :
  Matches r b s a -> exists y, matchAt r (b, s ++ a) = Some y.
Proof.
  intros M. apply exec_complete in M. unfold matchAt.
  destruct (exec r (b, s ++ a)) as [|y l]; [contradiction|].
  now exists y.
Qed.

Lemma matchAt_found (r : RegExp) (b a : list N) (y : Pos) :
  matchAt r (b, a) = Some y ->
  exists s post, a = s ++ post /\ y = (rev s ++ b, post)
                 /\ Matches r b s post /\ consumed (b, a) y = s.
Proof.
  intros E. destruct (matchAt_reaches _ _ _ E) as (s & E1 & F1 & M1).
  destruct y as [yb ya]. simpl in *. subst.
  exists s, ya. repeat split; auto. now apply consumed_exact.
Qed.

(** A successful search returns the match at the leftmost start that has
    one, and there the one the matcher prefers. *)
Lemma searchFrom_some (r : RegExp) :
  forall a b m, searchFrom r b a = Some m ->
  exists pre post,
    a = pre ++ m ++ post
    /\ Matches r (rev pre ++ b) m post
    /\ matchAt r (rev pre ++ b, m ++ post) = Some (rev m ++ rev pre ++ b, post)
    /\ forall pre' m' post',
         a = pre' ++ m' ++ post' -> (length pre' < length pre)%nat ->
         ~ Matches r (rev pre' ++ b) m' post'.
Proof.
  assert (Here : forall a b y,
             matchAt r (b, a) = Some y ->
             exists pre post,
               a = pre ++ consumed (b, a) y ++ post
               /\ Matches r (rev pre ++ b) (consumed (b, a) y) post
               /\ matchAt r (rev pre ++ b, consumed (b, a) y ++ post)
                  = Some (rev (consumed (b, a) y) ++ rev pre ++ b, post)
               /\ forall pre' m' post',
                    a = pre' ++ m' ++ post' ->
                    (length pre' < length pre)%nat ->
                    ~ Matches r (rev pre' ++ b) m' post').
  { intros a b y E.
    destruct (matchAt_found _ _ _ _ E) as (s & post & E1 & E2 & M & C).
    rewrite C. exists [], post. simpl. repeat split; auto.
    - now rewrite <- E1, E, E2.
    - intros; simpl in *; lia. }
  induction a as [|c rest IH]; intros b m H; simpl in H.
  - destruct (matchAt r (b, [])) as [y|] eqn:E; [|discriminate].
    injection H as <-. now apply Here.
  - destruct (matchAt r (b, c :: rest)) as [y|] eqn:E.
    + injection H as <-. now apply Here.
    + apply IH in H. destruct H as (pre & post & E1 & M1 & P1 & L1).
      exists (c :: pre), post. simpl. rewrite <- !app_assoc. simpl.
      repeat split; auto.
      * now rewrite E1.
      * intros [|c' pre'] m' post' E2 Hlen; simpl in *.
        -- rewrite E2 in E. now apply matchAt_none.
        -- injection E2 as -> E2. rewrite <- app_assoc. simpl.
           apply L1; [assumption|lia].
Qed.

(** A failed search: the pattern matches nowhere in the subject. *)
Lemma searchFrom_none (r : RegExp) :
  forall a b, searchFrom r b a = None ->
  forall pre m post, a = pre ++ m ++ post ->
  ~ Matches r (rev pre ++ b) m post.
Proof.
  induction a as [|c rest IH]; intros b H pre m post E; simpl in H.
  - destruct (matchAt r (b, [])) eqn:E1; [discriminate|].
    symmetry in E. apply app_eq_nil in E. destruct E as [-> E].
    apply app_eq_nil in E. destruct E as [-> ->].
    apply matchAt_none. exact E1.
  - destruct (matchAt r (b, c :: rest)) eqn:E1; [discriminate|].
    destruct pre as [|c' pre]; simpl in *.
    + rewrite E in E1. now apply matchAt_none.
    + injection E as -> E. rewrite <- app_assoc. simpl.
      eapply IH; eauto.
Qed.

Lemma matchRe_some (r : RegExp) (line m : jsString) :
  matchRe r line = Some m ->
  exists pre post,
    OccursAt r line pre m post
    /\ matchAt r (rev pre, m ++ post) = Some (rev m ++ rev pre, post)
    /\ forall pre' m' post',
         (length pre' < length pre)%nat -> ~ OccursAt r line pre' m' post'.
Proof.
  intros H. apply searchFrom_some in H.
  destruct H as (pre & post & E & M & P & L).
  rewrite app_nil_r in *. exists pre, post. repeat split; auto.
  intros pre' m' post' Hlen [E' M']. apply (L pre' m' post' E' Hlen).
  now rewrite app_nil_r.
Qed.

Lemma matchRe_none (r : RegExp) (line : jsString) :
  matchRe r line = None ->
  forall pre m post, ~ OccursAt r line pre m post.
Proof.
  intros H pre m post [E M].
  apply (searchFrom_none _ _ _ H pre m post E). now rewrite app_nil_r.
Qed.

(** A pattern anchored with [^] is tried at the start only. *)
Lemma searchFrom_bol (r : RegExp) :
  forall a c b, searchFrom (Seq Bol r) (c :: b) a = None.
Proof.
  induction a as [|d a IH]; intros c b; simpl; auto.
Qed.

Lemma searchFrom_unfold (r : RegExp) (b a : list N) :
  searchFrom r b a =
  match matchAt r (b, a) with
  | Some y => Some (consumed (b, a) y)
  | None => match a with
            | [] => None
            | c :: rest => searchFrom r (c :: b) rest
            end
  end.
Proof. destruct a; reflexivity. Qed.

Lemma exec_bol_start (r : RegExp) (s : list N) :
  exec (Seq Bol r) ([], s) = exec r ([], s).
Proof. cbn [exec fst flat_map]. apply app_nil_r. Qed.

Lemma test_bol (r : RegExp) (s : jsString) :
  test (Seq Bol r) s = match matchAt r ([], s) with
                       | Some _ => true | None => false end.
Proof.
  unfold test, matchRe. rewrite searchFrom_unfold.
  unfold matchAt. rewrite exec_bol_start.
  destruct (exec r ([], s)); simpl; [|reflexivity].
  destruct s; [reflexivity|]. now rewrite searchFrom_bol.
Qed.

End Matcher.

(* ================================================================== *)
(** * Lines                                                            *)
(* ================================================================== *)

Section Lines.
Import JS Meaning Worker.
Local Arguments N.eqb : simpl never.

Lemma matchAt_newline (b a : list N) :
  matchAt reNewline (b, a) =
  match a with
  | c :: rest =>
      if (LF =? c)%N then Some (c :: b, rest)
      else if (CR =? c)%N then
        match rest with
        | d :: rest' => if (LF =? d)%N then Some (d :: c :: b, rest') else None
        | [] => None
        end
      else None
  | [] => None
  end.
Proof.
  unfold matchAt, reNewline, seqs, opt, CR, LF.
  destruct a as [|c [|d rest]]; simpl.
  - reflexivity.
  - destruct (13 =? c)%N eqn:E1; simpl;
      destruct (10 =? c)%N eqn:E2; simpl; reflexivity.
  - destruct (13 =? c)%N eqn:E1; simpl;
      destruct (10 =? c)%N eqn:E2; simpl; try reflexivity.
    + apply N.eqb_eq in E1, E2. congruence.
    + destruct (10 =? d)%N; reflexivity.
Qed.

Lemma splitLoop_newline :
  forall fuel a piece b, (length a < fuel)%nat ->
  splitLoop reNewline fuel piece b a = lineSplit piece a.
Proof.
  induction fuel as [|fuel IH]; intros a piece b Hlen; [lia|].
  destruct a as [|c rest]; [reflexivity|].
  cbn [splitLoop lineSplit]. rewrite matchAt_newline.
  simpl in Hlen.
  destruct (LF =? c)%N.
  - cbn [snd fst].
    replace (length rest =? length (c :: rest))%nat with false.
    2:{ symmetry. apply Nat.eqb_neq. simpl. lia. }
    cbn [andb]. f_equal. apply IH. lia.
  - destruct (CR =? c)%N; cbn [andb]; [|apply IH; lia].
    destruct rest as [|d rest']; [apply IH; simpl in *; lia|].
    destruct (N.eqb_spec LF d) as [<-|Hd]; [|apply IH; simpl in *; lia].
    cbn [snd fst].
    replace (length rest' =? length (c :: LF :: rest'))%nat with false
      by (symmetry; apply Nat.eqb_neq; simpl; lia).
    cbn [andb lineSplit]. rewrite N.eqb_refl. f_equal.
    apply IH. simpl in *. lia.
Qed.

Lemma split_lineSplit (t : list N) : split reNewline t = lineSplit [] t.
Proof.
  destruct t as [|c t]; [reflexivity|].
  unfold split. apply splitLoop_newline. simpl. lia.
Qed.

Lemma splitOn_nonempty (x : N) (s : list N) : splitOn x s <> [].
Proof.
  destruct s as [|c s]; simpl; [discriminate|].
  destruct (c =? x)%N; [discriminate|].
  destruct (splitOn x s); discriminate.
Qed.

Lemma splitOn_cons (x c : N) (s : list N) :
  splitOn x (c :: s) =
  if (c =? x)%N then [] :: splitOn x s
  else (c :: hd [] (splitOn x s)) :: tl (splitOn x s).
Proof.
  simpl. destruct (c =? x)%N; [reflexivity|].
  pose proof (splitOn_nonempty x s).
  destruct (splitOn x s); [contradiction|reflexivity].
Qed.

Lemma stripCR_snoc_CR (l : list N) : stripCR (l ++ [CR]) = l.
Proof. unfold stripCR. now rewrite last_last, removelast_last. Qed.

Lemma stripCR_snoc_other (l : list N) (c : N) :
  c <> CR -> stripCR (l ++ [c]) = l ++ [c].
Proof.
  intros H. unfold stripCR. rewrite last_last.
  destruct (N.eqb_spec c CR); [contradiction|reflexivity].
Qed.

Lemma stripCR_nil : stripCR [] = [].
Proof. reflexivity. Qed.

Lemma finish_nil (ps : list jsString) :
  ps <> [] -> finish [] ps = map stripCR (removelast ps) ++ [last ps []].
Proof.
  destruct ps as [|p [|q rest]]; [contradiction| |]; reflexivity.
Qed.

Lemma finish_cons (pre : list N) (c : N) (ps : list jsString) :
  ps <> [] ->
  finish pre ((c :: hd [] ps) :: tl ps) = finish (pre ++ [c]) ps.
Proof.
  destruct ps as [|p [|q rest]]; [contradiction| |]; intros _; simpl;
    now rewrite <- app_assoc.
Qed.

Lemma lineSplit_finish :
  forall n a piece, (length a <= n)%nat -> consistent piece a ->
  lineSplit piece a = finish (rev piece) (splitOn LF a).
Proof.
  induction n as [|n IH]; intros a piece Hlen Hc.
  - destruct a; [|simpl in Hlen; lia]. simpl. now rewrite app_nil_r.
  - destruct a as [|c rest]; [simpl; now rewrite app_nil_r|].
    simpl in Hlen. cbn [lineSplit]. rewrite splitOn_cons.
    pose proof (splitOn_nonempty LF rest) as Hne.
    rewrite (N.eqb_sym c LF).
    destruct (N.eqb_spec LF c) as [<-|Hlf].
    + rewrite (IH rest []) by (simpl; auto; lia).
      change (rev (@nil N)) with (@nil N).
      rewrite (finish_nil _ Hne).
      destruct (splitOn LF rest) as [|q qs]; [contradiction|].
      cbn [finish]. rewrite app_nil_r. f_equal.
      destruct piece as [|d piece]; [reflexivity|].
      simpl in Hc. cbn [rev]. symmetry. apply stripCR_snoc_other.
      intros ->. now apply Hc.
    + destruct (N.eqb_spec CR c) as [<-|Hcr]; cbn [andb].
      * destruct rest as [|d rest']; cbn [andb].
        -- reflexivity.
        -- destruct (N.eqb_spec LF d) as [<-|Hd].
           ++ cbn [lineSplit]. rewrite N.eqb_refl.
              rewrite (IH rest' []) by (simpl in *; auto; lia).
              change (rev (@nil N)) with (@nil N).
              pose proof (splitOn_nonempty LF rest') as Hne'.
              rewrite (finish_nil _ Hne').
              rewrite splitOn_cons, N.eqb_refl. cbn [hd tl].
              destruct (splitOn LF rest') as [|q qs]; [contradiction|].
              cbn [finish]. now rewrite stripCR_snoc_CR.
           ++ rewrite (IH (d :: rest') (CR :: piece)); [|lia|simpl; auto].
              rewrite finish_cons by apply splitOn_nonempty. reflexivity.
      * rewrite (IH rest (c :: piece)); [|lia|].
        -- rewrite finish_cons by assumption. reflexivity.
        -- destruct rest; simpl; auto; intros E; now symmetry in E.
Qed.

(** [split(/\r?\n/)]: the complete lines, then the trailing fragment. *)
Lemma split_newline (t : list N) :
  split reNewline t = completeLines t ++ [trailing t].
Proof.
  rewrite split_lineSplit.
  rewrite (lineSplit_finish (length t) t []); simpl; auto.
  apply finish_nil, splitOn_nonempty.
Qed.

Lemma pop_split_newline (t : list N) :
  pop (split reNewline t) = (completeLines t, trailing t).
Proof.
  unfold pop. rewrite split_newline.
  now rewrite removelast_last, last_last.
Qed.

(** ** Pieces between separators *)

Lemma splitOn_free (x : N) (s : list N) :
  Forall (fun p => ~ In x p) (splitOn x s).
Proof.
  induction s as [|c s IH]; simpl.
  - constructor; auto.
  - destruct (N.eqb_spec c x) as [->|Hc].
    + constructor; auto.
    + destruct (splitOn x s) as [|p ps].
      * constructor; auto. intros [E|[]]. congruence.
      * inversion IH; subst. constructor; auto.
        intros [E|Hin]; [congruence|contradiction].
Qed.

Lemma splitOn_free_app (x : N) (u t : list N) :
  ~ In x u -> splitOn x (u ++ x :: t) = u :: splitOn x t.
Proof.
  induction u as [|c u IH]; intros Hu; simpl.
  - now rewrite N.eqb_refl.
  - destruct (N.eqb_spec c x) as [->|Hc]; [exfalso; apply Hu; now left|].
    rewrite IH; [reflexivity|]. intros Hin. apply Hu. now right.
Qed.

Lemma splitOn_free_id (x : N) (u : list N) :
  ~ In x u -> splitOn x u = [u].
Proof.
  induction u as [|c u IH]; intros Hu; simpl; [reflexivity|].
  destruct (N.eqb_spec c x) as [->|Hc]; [exfalso; apply Hu; now left|].
  rewrite IH; [reflexivity|]. intros Hin. apply Hu. now right.
Qed.

Lemma removelast_cons (A : Type) (a : A) (l : list A) :
  l <> [] -> removelast (a :: l) = a :: removelast l.
Proof. destruct l; [contradiction|reflexivity]. Qed.

Lemma last_cons (A : Type) (a d : A) (l : list A) :
  l <> [] -> last (a :: l) d = last l d.
Proof. destruct l; [contradiction|reflexivity]. Qed.

Lemma last_append (A : Type) (l1 l2 : list A) (d : A) :
  l2 <> [] -> last (l1 ++ l2) d = last l2 d.
Proof.
  intros H. induction l1 as [|a l1 IH]; [reflexivity|].
  rewrite <- app_comm_cons, last_cons; auto.
  destruct l1; simpl; auto. discriminate.
Qed.

Lemma splitOn_app (x : N) (s t : list N) :
  splitOn x (s ++ t) =
  removelast (splitOn x s) ++ splitOn x (last (splitOn x s) [] ++ t).
Proof.
  induction s as [|c s IH]; [reflexivity|].
  pose proof (splitOn_nonempty x s) as Hne.
  rewrite <- app_comm_cons, !splitOn_cons.
  destruct (N.eqb_spec c x) as [->|Hc].
  - rewrite removelast_cons, last_cons by assumption.
    rewrite IH. reflexivity.
  - rewrite IH. destruct (splitOn x s) as [|p [|q ps]]; [contradiction| |].
    + cbn [removelast last hd tl app].
      rewrite splitOn_cons.
      destruct (N.eqb_spec c x); [contradiction|reflexivity].
    + cbn [hd tl]. rewrite !removelast_cons, !last_cons by discriminate.
      reflexivity.
Qed.

Lemma splitOn_last_free (x : N) (s : list N) :
  ~ In x (last (splitOn x s) []).
Proof.
  pose proof (splitOn_free x s) as H.
  pose proof (splitOn_nonempty x s) as Hne.
  rewrite Forall_forall in H. apply H.
  destruct (exists_last Hne) as (l & a & ->).
  rewrite last_last. apply in_or_app. right. now left.
Qed.

(** ** Lines across a chunk boundary *)

Lemma trailing_free (t : list N) : LFfree (trailing t).
Proof. apply splitOn_last_free. Qed.

Lemma stripCR_incl (l : list N) (c : N) : In c (stripCR l) -> In c l.
Proof.
  unfold stripCR. destruct (last l 0 =? CR)%N; auto.
  destruct l as [|a l] using rev_ind; auto.
  rewrite removelast_last. intros H. apply in_or_app. now left.
Qed.

Lemma in_removelast (A : Type) (l : list A) (a : A) :
  In a (removelast l) -> In a l.
Proof.
  destruct l as [|b l] using rev_ind; auto.
  rewrite removelast_last. intros H. apply in_or_app. now left.
Qed.

Lemma completeLines_free (t : list N) : Forall LFfree (completeLines t).
Proof.
  unfold completeLines. rewrite Forall_map, Forall_forall.
  intros p Hp Hin. apply stripCR_incl in Hin. apply in_removelast in Hp.
  pose proof (splitOn_free LF t) as H. rewrite Forall_forall in H.
  exact (H p Hp Hin).
Qed.

Lemma physicalLines_free (t : list N) : Forall LFfree (physicalLines t).
Proof.
  unfold physicalLines. apply Forall_app. split.
  - apply completeLines_free.
  - pose proof (trailing_free t). destruct (trailing t); auto.
Qed.

Lemma lines_of_fragment (u : list N) :
  LFfree u -> completeLines u = [] /\ trailing u = u.
Proof.
  intros H. unfold completeLines, trailing.
  now rewrite (splitOn_free_id LF u H).
Qed.

(** Splitting what is left over with the next text gives the lines of the
    two texts together. *)
Lemma completeLines_app (s t : list N) :
  completeLines (s ++ t) = completeLines s ++ completeLines (trailing s ++ t).
Proof.
  unfold completeLines, trailing. rewrite splitOn_app.
  rewrite removelast_app by apply splitOn_nonempty.
  now rewrite map_app.
Qed.

Lemma trailing_app (s t : list N) :
  trailing (s ++ t) = trailing (trailing s ++ t).
Proof.
  unfold trailing. rewrite splitOn_app.
  apply last_append. apply splitOn_nonempty.
Qed.

(** ** Joining lines and splitting the text again *)

Lemma splitOn_join (ls : list jsString) :
  ls <> [] -> Forall LFfree ls -> splitOn LF (join [LF] ls) = ls.
Proof.
  induction ls as [|p ls IH]; intros Hne Hall; [contradiction|].
  inversion Hall as [|? ? Hp Hls]; subst.
  destruct ls as [|q ls].
  - simpl. now apply splitOn_free_id.
  - change (join [LF] (p :: q :: ls)) with (p ++ LF :: join [LF] (q :: ls)).
    rewrite splitOn_free_app by assumption.
    rewrite IH; auto. discriminate.
Qed.

End Lines.

(* ================================================================== *)
(** * The streaming decoder                                            *)
(* ================================================================== *)

Section Streaming.
Import JS Encoding Worker Meaning Denotation.

Lemma utf8Run_app (a b : list byte) :
  forall d,
  utf8Run d (a ++ b) =
  (fst (utf8Run (fst (utf8Run d a)) b),
   snd (utf8Run d a) ++ snd (utf8Run (fst (utf8Run d a)) b)).
Proof.
  induction a as [|x a IH]; intros d; simpl.
  - now destruct (utf8Run d b).
  - destruct (utf8Byte d (Byte.to_N x)) as [d1 o1]. rewrite IH.
    destruct (utf8Run d1 a) as [d2 o2]. simpl.
    destruct (utf8Run d2 b) as [d3 o3]. simpl. now rewrite app_assoc.
Qed.

Lemma serialize_app (seen : bool) (x y : list N) :
  serialize seen (x ++ y) =
  (fst (serialize (fst (serialize seen x)) y),
   snd (serialize seen x) ++ snd (serialize (fst (serialize seen x)) y)).
Proof.
  destruct x as [|c x]; simpl.
  - now destruct (serialize seen y).
  - destruct seen; simpl.
    + destruct y; simpl; rewrite ?app_nil_r; [reflexivity|].
      rewrite flat_map_app, app_assoc. reflexivity.
    + destruct y as [|e y]; simpl; rewrite ?app_nil_r; [reflexivity|].
      destruct (c =? 65279)%N; rewrite flat_map_app; simpl;
        now rewrite ?app_assoc.
Qed.

Lemma decode_core (input : list byte) (stream : bool) (t1 t2 : TextDecoder) :
  core t1 = core t2 -> decode input stream t1 = decode input stream t2.
Proof.
  unfold core, decode. intros H.
  destruct (doNotFlush t1), (doNotFlush t2); simpl in *; try reflexivity;
    inversion H as [[H1 H2]]; reflexivity.
Qed.

Lemma core_decode_stream (input : list byte) (t : TextDecoder) :
  core (fst (decode input true t))
  = (fst (utf8Run (fst (core t)) input),
     fst (serialize (snd (core t)) (snd (utf8Run (fst (core t)) input)))).
Proof.
  unfold core, decode.
  destruct (doNotFlush t); simpl;
    match goal with |- context [utf8Run ?d input] =>
      destruct (utf8Run d input) as [d1 o1] end;
    simpl; rewrite app_nil_r;
    match goal with |- context [serialize ?b ?o] =>
      destruct (serialize b o) end; reflexivity.
Qed.

Lemma text_decode_stream (input : list byte) (t : TextDecoder) :
  snd (decode input true t)
  = snd (serialize (snd (core t)) (snd (utf8Run (fst (core t)) input))).
Proof.
  unfold core, decode.
  destruct (doNotFlush t); simpl;
    match goal with |- context [utf8Run ?d input] =>
      destruct (utf8Run d input) as [d1 o1] end;
    simpl; rewrite app_nil_r;
    match goal with |- context [serialize ?b ?o] =>
      destruct (serialize b o) end; reflexivity.
Qed.

Lemma text_decode_flush (input : list byte) (t : TextDecoder) :
  snd (decode input false t)
  = snd (serialize (snd (core t))
           (snd (utf8Run (fst (core t)) input)
            ++ snd (utf8End (fst (utf8Run (fst (core t)) input))))).
Proof.
  unfold core, decode.
  destruct (doNotFlush t); simpl;
    match goal with |- context [utf8Run ?d input] =>
      destruct (utf8Run d input) as [d1 o1] end;
    simpl; destruct (utf8End d1) as [d2 o2]; simpl;
    match goal with |- context [serialize ?b ?o] =>
      destruct (serialize b o) end; reflexivity.
Qed.

(** Decoding two chunks in a stream gives the text of decoding them as
    one, and leaves the decoder in the same state. *)
Lemma decode_stream_app (a b : list byte) (t : TextDecoder) :
  snd (decode (a ++ b) true t)
  = snd (decode a true t) ++ snd (decode b true (fst (decode a true t)))
  /\ core (fst (decode (a ++ b) true t))
     = core (fst (decode b true (fst (decode a true t)))).
Proof.
  rewrite !text_decode_stream, !core_decode_stream. simpl.
  rewrite utf8Run_app. simpl. rewrite serialize_app. simpl. auto.
Qed.

(** The final [decode()] of a stream completes the text of the whole. *)
Lemma decode_flush_app (a : list byte) (t : TextDecoder) :
  snd (decode a false t)
  = snd (decode a true t) ++ snd (decode [] false (fst (decode a true t))).
Proof.
  rewrite text_decode_flush, text_decode_stream, text_decode_flush.
  rewrite core_decode_stream. simpl.
  rewrite serialize_app. reflexivity.
Qed.

End Streaming.

(* ================================================================== *)
(** * The state of a parse is a function of the bytes consumed         *)
(* ================================================================== *)

Section Frames.
Import JS Encoding Worker Meaning Denotation.

Lemma processText_lines (t : list N) (st : Parser) :
  processText t st = (feed (completeLines t) st, trailing t).
Proof. unfold processText. now rewrite pop_split_newline. Qed.

Lemma sameGrouping_refl (a : Parser) : sameGrouping a a.
Proof. repeat split. Qed.

Lemma sameGrouping_sym (a b : Parser) : sameGrouping a b -> sameGrouping b a.
Proof. intros (H1 & H2 & H3). repeat split; auto. Qed.

Lemma sameGrouping_trans (a b c : Parser) :
  sameGrouping a b -> sameGrouping b c -> sameGrouping a c.
Proof.
  intros (H1 & H2 & H3) (K1 & K2 & K3). repeat split; congruence.
Qed.

Lemma finalizeEntry_grouping (a b : Parser) :
  sameGrouping a b -> sameGrouping (finalizeEntry a) (finalizeEntry b).
Proof.
  destruct a, b. unfold sameGrouping, finalizeEntry. simpl.
  intros (-> & -> & ->). destruct currentEntry1; simpl; auto.
Qed.

Lemma handleLine_grouping (l : list N) (a b : Parser) :
  sameGrouping a b -> sameGrouping (handleLine l a) (handleLine l b).
Proof.
  destruct a, b. unfold sameGrouping, handleLine, finalizeEntry. simpl.
  intros (-> & -> & ->). destruct currentEntry1; simpl; auto.
  destruct (isEntryStart l && negb (isContinuationLine l)); simpl; auto.
Qed.

Lemma feed_grouping (ls : list jsString) :
  forall a b, sameGrouping a b -> sameGrouping (feed ls a) (feed ls b).
Proof.
  unfold feed. induction ls as [|l ls IH]; intros a b H; simpl; auto.
  apply IH. now apply handleLine_grouping.
Qed.

Lemma finalizeEntry_rest (a : Parser) : sameRest (finalizeEntry a) a.
Proof.
  destruct a. unfold sameRest, finalizeEntry. simpl.
  destruct currentEntry0; simpl; auto.
Qed.

Lemma handleLine_rest (l : list N) (a : Parser) : sameRest (handleLine l a) a.
Proof.
  destruct a. unfold sameRest, handleLine, finalizeEntry. simpl.
  destruct currentEntry0; simpl; auto.
  destruct (isEntryStart l && negb (isContinuationLine l)); simpl; auto.
Qed.

Lemma feed_rest (ls : list jsString) : forall a, sameRest (feed ls a) a.
Proof.
  unfold feed. induction ls as [|l ls IH]; intros a; simpl.
  - repeat split.
  - destruct (IH (handleLine l a)) as (H1 & H2 & H3 & H4).
    destruct (handleLine_rest l a) as (K1 & K2 & K3 & K4).
    repeat split; congruence.
Qed.

Lemma feed_app (l1 l2 : list jsString) (st : Parser) :
  feed (l1 ++ l2) st = feed l2 (feed l1 st).
Proof. unfold feed. apply fold_left_app. Qed.

(** ** One round *)

Lemma consume_fields (c : list byte) (st : Parser) :
  let text := snd (decode c true (decoder st)) in
  sameGrouping (consume c st)
    (feed (completeLines (leftover st ++ text)) st)
  /\ leftover (consume c st) = trailing (leftover st ++ text)
  /\ decoder (consume c st) = fst (decode c true (decoder st))
  /\ bytesProcessed (consume c st)
     = (bytesProcessed st + Z.of_nat (length c))%Z
  /\ lastProgressAt (consume c st) = lastProgressAt st.
Proof.
  unfold consume. destruct (decode c true (decoder st)) as [dec text].
  rewrite processText_lines. simpl.
  set (ls := completeLines (leftover st ++ text)).
  destruct (feed_rest ls (withDecoder dec st)) as (H1 & H2 & H3 & H4).
  repeat split; simpl; auto.
  - apply (feed_grouping ls (withDecoder dec st) st). repeat split.
  - apply (feed_grouping ls (withDecoder dec st) st). repeat split.
  - apply (feed_grouping ls (withDecoder dec st) st). repeat split.
  - now rewrite H3.
Qed.

Lemma consumed_initial : Consumed [] initial.
Proof. repeat split. Qed.

Lemma consumed_step (B c : list byte) (st : Parser) :
  Consumed B st -> Consumed (B ++ c) (consume c st).
Proof.
  intros (G & L & D & P).
  destruct (consume_fields c st) as (G' & L' & D' & P' & _).
  destruct (decode_stream_app B c newTextDecoder) as (T & K).
  pose proof (decode_core c true _ _ D) as E.
  unfold Consumed, decodedSoFar. rewrite T, K, <- E.
  fold (decodedSoFar B). split; [|split; [|split]].
  - rewrite completeLines_app, feed_app, <- L.
    eapply sameGrouping_trans; [exact G'|]. now apply feed_grouping.
  - rewrite L', L. symmetry. apply trailing_app.
  - now rewrite D'.
  - rewrite P', P, length_app. lia.
Qed.

Lemma consumed_report (interval : Z) (file : File) (B : list byte)
  (st : Parser) :
  Consumed B st -> Consumed B (fst (report interval file st)).
Proof.
  unfold report. destruct (progressDue interval file st); auto.
Qed.

(** ** After the loop *)

Lemma flush_grouped (B : list byte) (st : Parser) :
  Consumed B st -> sameGrouping (flush st) (grouped (decodeAll B)).
Proof.
  intros (G & L & D & P).
  pose proof (decode_core [] false _ _ D) as E.
  assert (T : decodeAll B
              = decodedSoFar B ++ snd (decode [] false (decoder st))).
  { unfold decodeAll, decodedSoFar. rewrite decode_flush_app. now rewrite E. }
  unfold flush. destruct (decode [] false (decoder st)) as [dec fin].
  simpl in T.
  set (st1 := match fin with
              | [] => withDecoder dec st
              | _ :: _ =>
                  let (s1, tr) :=
                    processText (leftover (withDecoder dec st) ++ fin)
                      (withDecoder dec st) in
                  withLeftover tr s1
              end).
  assert (G1 : sameGrouping st1 (feed (completeLines (decodeAll B)) initial)).
  { rewrite T, completeLines_app, feed_app, <- L. subst st1.
    destruct fin as [|c fin'].
    - rewrite app_nil_r.
      destruct (lines_of_fragment (leftover st)) as (-> & _).
      { rewrite L. apply trailing_free. }
      simpl. destruct G as (G1 & G2 & G3). repeat split; auto.
    - rewrite processText_lines. simpl.
      eapply sameGrouping_trans;
        [apply (feed_grouping _ (withDecoder dec st) st); repeat split|].
      now apply feed_grouping. }
  assert (L1 : leftover st1 = trailing (decodeAll B)).
  { rewrite T, trailing_app, <- L. subst st1.
    destruct fin as [|c fin'].
    - rewrite app_nil_r.
      destruct (lines_of_fragment (leftover st)) as (_ & ->); auto.
      rewrite L. apply trailing_free.
    - rewrite processText_lines. reflexivity. }
  clearbody st1.
  unfold grouped, physicalLines. rewrite feed_app, <- L1.
  apply finalizeEntry_grouping.
  destruct (leftover st1) as [|c lo] eqn:El; simpl; auto.
  destruct (handleLine_grouping (c :: lo) _ _ G1) as (H1 & H2 & H3).
  repeat split; simpl; auto.
Qed.

End Frames.

(* ================================================================== *)
(** * The loop                                                         *)
(* ================================================================== *)

Section Loop.
Import JS Encoding Worker Meaning Denotation.

Variables (sliceSize interval : Z) (file : File).
Hypothesis sliceSize_pos : (0 < sliceSize)%Z.

Lemma slice_next (B R : list byte) :
  contents file = B ++ R ->
  slice file (Z.of_nat (length B)) (Z.of_nat (length B) + sliceSize)
  = firstn (Z.to_nat sliceSize) R.
Proof.
  intros E. unfold slice. rewrite E, Nat2Z.id.
  rewrite skipn_app, skipn_all, Nat.sub_diag. simpl.
  f_equal. f_equal. lia.
Qed.

Lemma size_split (B R : list byte) :
  contents file = B ++ R ->
  size file = (Z.of_nat (length B) + Z.of_nat (length R))%Z.
Proof. intros E. unfold size. rewrite E, length_app. lia. Qed.

(** An invariant of the rounds holds when the loop exits; a loop that
    does not exit stopped at a rejected read; the rounds allowed are
    enough. *)
Lemma readLoop_invariant (Inv : list byte -> Parser -> list Message -> Prop) :
  (forall B st posted,
      Inv B st posted -> bytesProcessed st = Z.of_nat (length B)) ->
  (forall B R st posted,
      contents file = B ++ R -> R <> [] -> Inv B st posted ->
      rejects file (Z.of_nat (length B)) = None ->
      let c := firstn (Z.to_nat sliceSize) R in
      let r := report interval file (consume c st) in
      Inv (B ++ c) (fst r) (posted ++ snd r)) ->
  forall rounds B R st posted,
    contents file = B ++ R -> (length R <= rounds)%nat -> Inv B st posted ->
    match readLoop sliceSize interval rounds file st posted with
    | Exited st' posted' => Inv (contents file) st' posted'
    | Rejected e posted' =>
        exists B' R' st',
          contents file = B' ++ R' /\ R' <> [] /\ Inv B' st' posted'
          /\ rejects file (Z.of_nat (length B')) = Some e
    | Unfinished => False
    end.
Proof.
  intros Hbytes Hstep.
  induction rounds as [|rounds IH]; intros B R st posted E Hlen HI.
  - destruct R; [|simpl in Hlen; lia]. simpl.
    rewrite (Hbytes _ _ _ HI), (size_split B [] E). simpl.
    rewrite Z.add_0_r, Z.ltb_irrefl. now rewrite app_nil_r in E; rewrite E.
  - cbn [readLoop]. rewrite (Hbytes _ _ _ HI), (size_split B R E).
    destruct R as [|x R'].
    + simpl. rewrite Z.add_0_r, Z.ltb_irrefl.
      now rewrite app_nil_r in E; rewrite E.
    + replace (Z.of_nat (length B)
               <? Z.of_nat (length B) + Z.of_nat (length (x :: R')))%Z
        with true by (symmetry; apply Z.ltb_lt; cbn [length]; lia).
      unfold arrayBuffer.
      destruct (rejects file (Z.of_nat (length B))) as [e|] eqn:Er.
      * exists B, (x :: R'), st. repeat split; auto. discriminate.
      * rewrite (slice_next B (x :: R') E).
        pose proof (Hstep B (x :: R') st posted E ltac:(discriminate) HI Er)
          as Hnext.
        cbv zeta in Hnext.
        destruct (report interval file
                    (consume (firstn (Z.to_nat sliceSize) (x :: R')) st))
          as [st' msgs].
        simpl in Hnext.
        apply (IH (B ++ firstn (Z.to_nat sliceSize) (x :: R'))
                 (skipn (Z.to_nat sliceSize) (x :: R'))); auto.
        -- rewrite <- app_assoc, firstn_skipn. exact E.
        -- rewrite length_skipn. cbn [length] in *. lia.
Qed.

End Loop.

(* ================================================================== *)
(** * The outcome of [parseFile]                                       *)
(* ================================================================== *)

Section Outcome.
Import JS Encoding Worker Meaning Denotation.

Lemma flush_bytesProcessed (st : Parser) :
  bytesProcessed (flush st) = bytesProcessed st.
Proof.
  unfold flush. destruct (decode [] false (decoder st)) as [dec fin].
  set (st1 := match fin with
              | [] => withDecoder dec st
              | _ :: _ =>
                  let (s1, tr) :=
                    processText (leftover (withDecoder dec st) ++ fin)
                      (withDecoder dec st) in
                  withLeftover tr s1
              end).
  assert (H : bytesProcessed st1 = bytesProcessed st).
  { subst st1. destruct fin as [|c fin']; [reflexivity|].
    rewrite processText_lines. simpl.
    now destruct (feed_rest (completeLines (leftover st ++ c :: fin'))
                    (withDecoder dec st)) as (_ & _ & -> & _). }
  clearbody st1.
  match goal with |- bytesProcessed (finalizeEntry ?x) = _ =>
    destruct (finalizeEntry_rest x) as (_ & _ & -> & _) end.
  destruct (leftover st1) as [|c lo] eqn:El; [exact H|]. simpl.
  now destruct (handleLine_rest (c :: lo) st1) as (_ & _ & -> & _).
Qed.

Lemma report_progress (interval : Z) (file : File) (st : Parser) :
  Forall isProgress (snd (report interval file st)).
Proof.
  unfold report. destruct (progressDue interval file st); simpl.
  - constructor; simpl; auto.
  - constructor.
Qed.

(** With a slice size above zero the loop ends: at a rejected read, after
    progress messages only, or with every byte consumed. *)
Lemma readLoop_outcome (sliceSize interval : Z) (file : File) :
  (0 < sliceSize)%Z ->
  match readLoop sliceSize interval (length (contents file)) file initial []
  with
  | Exited st posted => Consumed (contents file) st /\ Forall isProgress posted
  | Rejected e posted =>
      Forall isProgress posted /\ exists o, rejects file o = Some e
  | Unfinished => False
  end.
Proof.
  intros Hs.
  pose proof (readLoop_invariant sliceSize interval file Hs
                (fun B st posted => Consumed B st /\ Forall isProgress posted))
    as H.
  specialize (H ltac:(now intros B st posted [(_ & _ & _ & P) _])).
  assert (Hstep : forall B R st posted,
             contents file = B ++ R -> R <> [] ->
             Consumed B st /\ Forall isProgress posted ->
             rejects file (Z.of_nat (length B)) = None ->
             let c := firstn (Z.to_nat sliceSize) R in
             let r := report interval file (consume c st) in
             Consumed (B ++ c) (fst r) /\ Forall isProgress (posted ++ snd r)).
  { intros B R st posted E Hne [HC HP] _. split.
    - apply consumed_report. now apply consumed_step.
    - apply Forall_app. split; auto. apply report_progress. }
  specialize (H Hstep (length (contents file)) [] (contents file) initial []
                eq_refl (Nat.le_refl _) (conj consumed_initial (Forall_nil _))).
  destruct (readLoop sliceSize interval (length (contents file)) file
              initial []) as [e posted|st posted|]; auto.
  destruct H as (B' & R' & st' & E & Hne & [HC HP] & Hr).
  split; eauto.
Qed.

(** What [parseFile] posts and how it settles, for any slice size above
    zero. *)
Lemma parseFileWith_outcome (sliceSize interval : Z) (clock : Clock)
  (file : File) :
  (0 < sliceSize)%Z ->
  exists posted,
    Forall isProgress posted
    /\ ((exists e o, rejects file o = Some e
                    /\ parseFileWith sliceSize interval clock file
                       = (posted, RejectedWith e))
        \/ parseFileWith sliceSize interval clock file
           = (posted ++ [doneOf clock file], Fulfilled)).
Proof.
  intros Hs. pose proof (readLoop_outcome sliceSize interval file Hs) as H.
  unfold parseFileWith.
  destruct (readLoop sliceSize interval (length (contents file)) file
              initial []) as [e posted|st posted|]; [| |contradiction].
  - destruct H as (HP & o & Hr). exists posted. split; auto.
    left. now exists e, o.
  - destruct H as (HC & HP). exists posted. split; auto. right.
    f_equal. f_equal. unfold doneOf, doneMessage.
    destruct (flush_grouped _ _ HC) as (G1 & G2 & G3).
    rewrite flush_bytesProcessed.
    destruct HC as (_ & _ & _ & P). rewrite P. fold (size file).
    simpl. now rewrite G1, G3.
Qed.

Lemma parseFileWith_never_rejects (sliceSize interval : Z) (clock : Clock)
  (file : File) :
  (0 < sliceSize)%Z -> (forall o, rejects file o = None) ->
  exists posted,
    Forall isProgress posted
    /\ parseFileWith sliceSize interval clock file
       = (posted ++ [doneOf clock file], Fulfilled).
Proof.
  intros Hs Hr.
  destruct (parseFileWith_outcome sliceSize interval clock file Hs)
    as (posted & HP & [(e & o & Ho & _)|H]).
  - rewrite Hr in Ho. discriminate.
  - now exists posted.
Qed.

End Outcome.

(* ================================================================== *)
(** * The entries take the lines in order                              *)
(* ================================================================== *)

Section Partition.
Import JS Encoding Worker Meaning Denotation.

Lemma Covers_snoc (es : list LogEntry) (e : LogEntry) :
  forall first next,
  Covers first (es ++ [e]) next <->
  Covers first es (lineStart e)
  /\ (lineStart e <= lineEnd e)%Z
  /\ Z.of_nat (length (linesOf e)) = (lineEnd e - lineStart e + 1)%Z
  /\ (lineEnd e + 1)%Z = next.
Proof.
  induction es as [|e' es IH]; intros first next; simpl.
  - intuition congruence.
  - rewrite IH. intuition.
Qed.

Lemma linesOf_entry (cur : CurrentEntry) (sev ts : option (list N)) (n : Z) :
  lines cur <> [] -> Forall LFfree (lines cur) ->
  linesOf {| lineStart := startLine cur; lineEnd := n;
             text := join [LF] (lines cur); severity := sev;
             timestamp := ts |} = lines cur.
Proof. intros H1 H2. unfold linesOf. simpl. now apply splitOn_join. Qed.

Lemma handleLine_Grouping (ls : list jsString) (l : list N) (st : Parser) :
  Grouping ls st -> LFfree l -> Grouping (ls ++ [l]) (handleLine l st).
Proof.
  intros (Hn & H) Hl. destruct st as [es cur bp lp n lo dec].
  unfold Grouping, handleLine, finalizeEntry in *. simpl in *.
  destruct cur as [cur|].
  - destruct H as (Hne & Hfree & Hcov & Hend & Hcat).
    destruct (isEntryStart l && negb (isContinuationLine l)); simpl.
    + split; [rewrite length_app; simpl; lia|].
      split; [discriminate|]. split; [now constructor|].
      split; [|split; [simpl; lia|]].
      * apply Covers_snoc. simpl. rewrite linesOf_entry by assumption.
        repeat split; auto; try lia.
        destruct (lines cur); [contradiction|]. simpl length. lia.
      * rewrite map_app, concat_app. simpl.
        rewrite linesOf_entry by assumption.
        rewrite app_nil_r, <- app_assoc. simpl.
        rewrite <- Hcat, <- app_assoc. reflexivity.
    + split; [rewrite length_app; simpl; lia|].
      split; [now destruct (lines cur)|].
      split; [apply Forall_app; split; auto|].
      split; [assumption|]. split.
      * rewrite length_app. simpl. lia.
      * now rewrite app_assoc, Hcat.
  - destruct H as (-> & ->). simpl in *. subst n.
    split; [reflexivity|]. split; [discriminate|].
    split; [now constructor|]. repeat split.
Qed.

(** A current entry has a first line. *)
Lemma current_has_line (ls : list jsString) (st : Parser)
  (cur : CurrentEntry) :
  Grouping ls st -> currentEntry st = Some cur -> lines cur <> [].
Proof. intros (_ & H) E. rewrite E in H. tauto. Qed.

Lemma initial_Grouping : Grouping [] initial.
Proof. repeat split. Qed.

Lemma feed_Grouping (more : list jsString) :
  forall ls st, Grouping ls st -> Forall LFfree more ->
  Grouping (ls ++ more) (feed more st).
Proof.
  induction more as [|l more IH]; intros ls st H Hall; simpl.
  - now rewrite app_nil_r.
  - inversion Hall; subst.
    replace (ls ++ l :: more) with ((ls ++ [l]) ++ more)
      by (now rewrite <- app_assoc).
    apply IH; auto. now apply handleLine_Grouping.
Qed.

Lemma finalizeEntry_Closed (ls : list jsString) (st : Parser) :
  Grouping ls st -> Closed ls (finalizeEntry st).
Proof.
  intros (Hn & H). destruct st as [es cur bp lp n lo dec].
  unfold Closed, finalizeEntry. simpl in *.
  destruct cur as [cur|]; simpl.
  - destruct H as (Hne & Hfree & Hcov & Hend & Hcat).
    split; [assumption|]. split; [reflexivity|]. split.
    + apply Covers_snoc. simpl. rewrite linesOf_entry by assumption.
      repeat split; auto; try lia.
      destruct (lines cur); [contradiction|]. simpl length. lia.
    + rewrite map_app, concat_app. simpl.
      rewrite linesOf_entry by assumption. now rewrite app_nil_r.
  - destruct H as (-> & ->). simpl in *. subst n. repeat split.
Qed.

Lemma grouped_Closed (t : list N) : Closed (physicalLines t) (grouped t).
Proof.
  unfold grouped. apply finalizeEntry_Closed.
  apply (feed_Grouping (physicalLines t) [] initial initial_Grouping).
  apply physicalLines_free.
Qed.

(** ** What [Covers] says, entry by entry *)

Lemma Covers_ranges (es : list LogEntry) :
  forall first next, Covers first es next ->
  Forall (fun e => (lineStart e <= lineEnd e)%Z
                   /\ Z.of_nat (length (linesOf e))
                      = (lineEnd e - lineStart e + 1)%Z) es.
Proof.
  induction es as [|e es IH]; intros first next H; [constructor|].
  destruct H as (H1 & H2 & H3 & H4). constructor; eauto.
Qed.

Lemma Covers_adjacent (es : list LogEntry) :
  forall first next i e1 e2, Covers first es next ->
  nth_error es i = Some e1 -> nth_error es (S i) = Some e2 ->
  lineStart e2 = (lineEnd e1 + 1)%Z.
Proof.
  induction es as [|e es IH]; intros first next i e1 e2 H N1 N2.
  - destruct i; discriminate.
  - destruct H as (H1 & H2 & H3 & H4). destruct i as [|i]; simpl in *.
    + injection N1 as <-. destruct es as [|e' es']; [discriminate|].
      injection N2 as <-. now destruct H4.
    + eapply IH; eauto.
Qed.

Lemma Covers_last (es : list LogEntry) (e : LogEntry) (first next : Z) :
  Covers first (es ++ [e]) next -> (lineEnd e + 1)%Z = next.
Proof. intros H. apply Covers_snoc in H. tauto. Qed.

Lemma Covers_le (es : list LogEntry) :
  forall first next, Covers first es next -> (first <= next)%Z.
Proof.
  induction es as [|e es IH]; intros first next H; simpl in H; [lia|].
  destruct H as (H1 & H2 & H3 & H4). apply IH in H4. lia.
Qed.

End Partition.

(* ================================================================== *)
(** * Reading the patterns                                             *)
(* ================================================================== *)

Section Patterns.
Import JS Encoding Worker Meaning Denotation.

Lemma Matches_empty (b s a : list N) : Matches Empty b s a <-> s = [].
Proof. split; [now inversion 1|intros ->; constructor]. Qed.

Lemma Matches_class (p : N -> bool) (b s a : list N) :
  Matches (Class p) b s a <-> exists c, s = [c] /\ p c = true.
Proof.
  split.
  - inversion 1; subst. eauto.
  - intros (c & -> & H). now constructor.
Qed.

Lemma Matches_seq (r1 r2 : RegExp) (b s a : list N) :
  Matches (Seq r1 r2) b s a <->
  exists s1 s2, s = s1 ++ s2 /\ Matches r1 b s1 (s2 ++ a)
                /\ Matches r2 (rev s1 ++ b) s2 a.
Proof.
  split.
  - inversion 1; subst. eauto.
  - intros (s1 & s2 & -> & H1 & H2). now constructor.
Qed.

Lemma Matches_alt (r1 r2 : RegExp) (b s a : list N) :
  Matches (Alt r1 r2) b s a <-> Matches r1 b s a \/ Matches r2 b s a.
Proof.
  split.
  - inversion 1; subst; auto.
  - intros [H|H]; [now apply MAltL|now apply MAltR].
Qed.

Lemma Matches_bol (b s a : list N) : Matches Bol b s a <-> b = [] /\ s = [].
Proof. split; [now inversion 1|intros [-> ->]; constructor]. Qed.

Lemma Matches_wordBoundary (b s a : list N) :
  Matches WordBoundary b s a <->
  s = [] /\ xorb (wordBefore (b, a)) (wordAfter (b, a)) = true.
Proof. split; [now inversion 1|intros [-> H]; now constructor]. Qed.

Lemma Matches_alts (rs : list RegExp) :
  forall r b s a,
  Matches (alts r rs) b s a <-> exists r', In r' (r :: rs) /\ Matches r' b s a.
Proof.
  induction rs as [|r2 rs IH]; intros r b s a; simpl.
  - split; [intros H; exists r; auto|intros (r' & [<-|[]] & H); auto].
  - rewrite Matches_alt, IH. simpl. split.
    + intros [H|(r' & Hin & H)]; [exists r; auto|exists r'; auto].
    + intros (r' & [<-|Hin] & H); [now left|right; now exists r'].
Qed.

(** A run of code units of one class. *)
Lemma Matches_star_class (p : N -> bool) (s : list N) :
  forall b a, Matches (Star (Class p)) b s a <-> Forall (fun c => p c = true) s.
Proof.
  split.
  - intros H. remember (Star (Class p)) as r eqn:Er.
    induction H; try discriminate; [constructor|].
    injection Er as ->. apply Forall_app. split; auto.
    apply Matches_class in H0. destruct H0 as (c & -> & Hc).
    now constructor.
  - revert b. induction s as [|c s IH]; intros b H; [constructor|].
    inversion H; subst. change (c :: s) with ([c] ++ s).
    apply MStarCons; [discriminate|now constructor|now apply IH].
Qed.

Lemma Matches_plus_class (p : N -> bool) (b s a : list N) :
  Matches (plus (Class p)) b s a <->
  s <> [] /\ Forall (fun c => p c = true) s.
Proof.
  unfold plus. rewrite Matches_seq. split.
  - intros (s1 & s2 & -> & H1 & H2).
    apply Matches_class in H1. destruct H1 as (c & -> & Hc).
    apply Matches_star_class in H2. split; [discriminate|now constructor].
  - intros (Hne & H). destruct s as [|c s]; [contradiction|].
    inversion H; subst. exists [c], s. repeat split.
    + now constructor.
    + now apply Matches_star_class.
Qed.

Lemma Matches_times_class (p : N -> bool) (n : nat) :
  forall b s a,
  Matches (times n (Class p)) b s a <->
  length s = n /\ Forall (fun c => p c = true) s.
Proof.
  induction n as [|n IH]; intros b s a; simpl.
  - rewrite Matches_empty. split.
    + intros ->. auto.
    + intros [H _]. now destruct s.
  - rewrite Matches_seq. split.
    + intros (s1 & s2 & -> & H1 & H2).
      apply Matches_class in H1. destruct H1 as (c & -> & Hc).
      apply IH in H2. destruct H2 as (<- & H2). split; auto.
      now constructor.
    + intros (Hlen & H). destruct s as [|c s]; [discriminate|].
      inversion H; subst. exists [c], s. repeat split.
      * now constructor.
      * apply IH. split; auto.
Qed.

(** A literal: the code units themselves. *)
Lemma Matches_literal (cs : list N) :
  forall b s a,
  Matches (fold_right (fun c r => Seq (Class (N.eqb c)) r) Empty cs) b s a
  <-> s = cs.
Proof.
  induction cs as [|c cs IH]; intros b s a; simpl.
  - apply Matches_empty.
  - rewrite Matches_seq. split.
    + intros (s1 & s2 & -> & H1 & H2).
      apply Matches_class in H1. destruct H1 as (d & -> & Hd).
      apply N.eqb_eq in Hd. subst d. apply IH in H2. now subst.
    + intros ->. exists [c], cs. repeat split.
      * constructor. apply N.eqb_refl.
      * now apply IH.
Qed.

Lemma Matches_lit (w : string) (b s a : list N) :
  Matches (lit w) b s a <-> s = str w.
Proof. apply Matches_literal. Qed.

Lemma Matches_chr (x : ascii) (b s a : list N) :
  Matches (chr x) b s a <-> s = [N_of_ascii x].
Proof.
  unfold chr. rewrite Matches_class. split.
  - intros (c & -> & H). apply N.eqb_eq in H. now subst.
  - intros ->. exists (N_of_ascii x). split; auto. apply N.eqb_refl.
Qed.

(** A literal under the [i] flag: the same letters, in either case. *)
Lemma Matches_literalI (cs : list N) :
  forall b s a,
  Matches (fold_right (fun c r => Seq (Class (sameLetter c)) r) Empty cs) b s a
  <-> Forall2 (fun c d => sameLetter c d = true) cs s.
Proof.
  induction cs as [|c cs IH]; intros b s a; simpl.
  - rewrite Matches_empty. split; [intros ->; constructor|now inversion 1].
  - rewrite Matches_seq. split.
    + intros (s1 & s2 & -> & H1 & H2).
      apply Matches_class in H1. destruct H1 as (d & -> & Hd).
      apply IH in H2. now constructor.
    + inversion 1; subst. exists [y], l'. repeat split.
      * now constructor.
      * now apply IH.
Qed.

Lemma sameLetter_upper (c d : N) :
  isUpper c = true ->
  sameLetter c d = true <-> (if isLower d then (d - 32)%N else d) = c.
Proof.
  unfold sameLetter, isUpper, isLower, inRange. intros Hc.
  apply andb_prop in Hc. destruct Hc as [H1 H2].
  apply N.leb_le in H1, H2.
  destruct (N.leb_spec 97 d), (N.leb_spec d 122); simpl;
    rewrite ?orb_true_iff, ?andb_true_iff, ?N.eqb_eq, ?N.leb_le; lia.
Qed.

Lemma sameLetters_upper (cs s : list N) :
  Forall (fun c => isUpper c = true) cs ->
  Forall2 (fun c d => sameLetter c d = true) cs s <-> toUpperCase s = cs.
Proof.
  intros Hup. revert s. induction Hup as [|c cs Hc _ IH]; intros s.
  - split; [now inversion 1|]. destruct s; [constructor|discriminate].
  - split.
    + inversion 1; subst. simpl. f_equal.
      * now apply sameLetter_upper.
      * now apply IH.
    + destruct s as [|d s]; [discriminate|]. simpl. intros E.
      injection E as E1 E2. constructor.
      * now apply sameLetter_upper.
      * now apply IH.
Qed.

End Patterns.

(** Taking a sequence apart in a hypothesis, and putting one together in
    the goal, its two parts being read off the subject. *)
Ltac seq_cut H s1 s2 H1 :=
  apply Matches_seq in H; destruct H as (s1 & s2 & -> & H1 & H).
Ltac seq_glue :=
  apply Matches_seq; do 2 eexists; split; [reflexivity|]; split.


(* ================================================================== *)
(** * The severity pattern                                             *)
(* ================================================================== *)

Section Severity.
Import JS Encoding Worker Meaning Denotation Classification.

Lemma tokens_upper :
  Forall (fun t => Forall (fun c => isUpper c = true) (str t)) severityTokens.
Proof. repeat constructor. Qed.

Lemma upper_word (cs w : list N) :
  Forall (fun c => isUpper c = true) cs -> toUpperCase w = cs ->
  Forall (fun d => isWordChar d = true) w.
Proof.
  intros Hup. revert w. induction Hup as [|c cs Hc _ IH]; intros w E.
  - destruct w; [constructor|discriminate].
  - destruct w as [|d w]; [discriminate|]. simpl in E. injection E as E1 E2.
    constructor; [|now apply IH].
    unfold isWordChar. destruct (isLower d) eqn:El.
    + now rewrite orb_true_r.
    + subst d. now rewrite Hc.
Qed.

(** A word of word characters between two word boundaries: no word
    character on either side. *)
Lemma boundaries_word (b w a : list N) :
  w <> [] -> Forall (fun d => isWordChar d = true) w ->
  (xorb (wordBefore (b, w ++ a)) (wordAfter (b, w ++ a)) = true
   /\ xorb (wordBefore (rev w ++ b, a)) (wordAfter (rev w ++ b, a)) = true)
  <-> (match b with c :: _ => isWordChar c = false | [] => True end
       /\ match a with c :: _ => isWordChar c = false | [] => True end).
Proof.
  intros Hne Hall.
  assert (H1 : wordAfter (b, w ++ a) = true).
  { destruct w as [|d w]; [contradiction|]. inversion Hall; subst. assumption. }
  assert (H2 : wordBefore (rev w ++ b, a) = true).
  { destruct w as [|d w] using rev_ind; [contradiction|].
    rewrite rev_app_distr. simpl. apply Forall_app in Hall.
    destruct Hall as [_ Hd]. now inversion Hd. }
  rewrite H1, H2. unfold wordBefore, wordAfter. simpl.
  destruct b as [|c b], a as [|d a]; simpl;
    try destruct (isWordChar c); try destruct (isWordChar d); simpl;
    intuition discriminate.
Qed.

Lemma Matches_reSeverity (b w a : list N) :
  Matches reSeverity b w a <->
  (exists tok, In tok severityTokens /\ toUpperCase w = str tok)
  /\ match b with c :: _ => isWordChar c = false | [] => True end
  /\ match a with c :: _ => isWordChar c = false | [] => True end.
Proof.
  unfold reSeverity, seqs. cbn [fold_right].
  change (alts (litI "ERROR")
            [litI "WARN"; litI "WARNING"; litI "INFO"; litI "DEBUG";
             litI "TRACE"; litI "FATAL"])
    with (alts (litI "ERROR") (map litI (tl severityTokens))).
  pose proof tokens_upper as Hup. rewrite Forall_forall in Hup.
  split.
  - intros H. seq_cut H s1 s2 H1.
    apply Matches_wordBoundary in H1. destruct H1 as (-> & B1).
    seq_cut H s2' s3 H2.
    seq_cut H s4 s5 H3.
    apply Matches_wordBoundary in H3. destruct H3 as (-> & B2).
    apply Matches_empty in H. subst s5. simpl in *.
    rewrite app_nil_r in *.
    apply (proj1 (Matches_alts (map litI (tl severityTokens))
                    (litI "ERROR") b s2' a)) in H2.
    destruct H2 as (r' & Hin & H2).
    change (litI "ERROR" :: map litI (tl severityTokens))
      with (map litI severityTokens) in Hin.
    apply in_map_iff in Hin. destruct Hin as (tok & <- & Hin).
    apply Matches_literalI in H2.
    apply sameLetters_upper in H2; [|now apply Hup].
    assert (Hw : Forall (fun d => isWordChar d = true) s2').
    { eapply upper_word; [|exact H2]. now apply Hup. }
    assert (Hne : s2' <> []).
    { intros ->. simpl in H2.
      destruct Hin as [<-|[<-|[<-|[<-|[<-|[<-|[<-|[]]]]]]]]; discriminate. }
    split; [now exists tok|].
    apply (boundaries_word b s2' a Hne Hw). auto.
  - intros ((tok & Hin & E) & Hb & Ha).
    assert (Hw : Forall (fun d => isWordChar d = true) w).
    { eapply upper_word; [|exact E]. now apply Hup. }
    assert (Hne : w <> []).
    { intros ->. simpl in E.
      destruct Hin as [<-|[<-|[<-|[<-|[<-|[<-|[<-|[]]]]]]]]; discriminate. }
    destruct (proj2 (boundaries_word b w a Hne Hw) (conj Hb Ha)) as [B1 B2].
    apply Matches_seq. exists [], w. split; [reflexivity|]. split.
    + apply Matches_wordBoundary. auto.
    + apply Matches_seq. exists w, []. split; [now rewrite app_nil_r|].
      simpl. split.
      * apply (proj2 (Matches_alts (map litI (tl severityTokens))
                        (litI "ERROR") b w a)).
        exists (litI tok). split.
        -- change (litI "ERROR" :: map litI (tl severityTokens))
             with (map litI severityTokens). now apply in_map.
        -- apply Matches_literalI. apply sameLetters_upper; auto.
      * apply Matches_seq. exists [], []. repeat split.
        -- apply Matches_wordBoundary. auto.
        -- constructor.
Qed.

Lemma occurs_severity (line pre w post : list N) :
  OccursAt reSeverity line pre w post
  <-> exists tok, SeverityAt line pre w post tok.
Proof.
  unfold OccursAt, SeverityAt, wordEdges. rewrite Matches_reSeverity. split.
  - intros (E & (tok & Hin & Hu) & Hb & Ha). exists tok. auto.
  - intros (tok & E & Hin & Hu & Hb & Ha). eauto 10.
Qed.

(** The severity found is a token, in upper case, that the line has as a
    whole word in some mix of cases, and no token stands further left. *)
Lemma detectSeverity_some (line sev : list N) :
  detectSeverity line = Some sev ->
  exists pre w post tok,
    SeverityAt line pre w post tok /\ sev = str tok
    /\ forall pre' w' post' tok',
         SeverityAt line pre' w' post' tok' ->
         (length pre <= length pre')%nat.
Proof.
  unfold detectSeverity. destruct (matchRe reSeverity line) as [m|] eqn:E;
    [|discriminate].
  intros H. injection H as <-.
  apply matchRe_some in E. destruct E as (pre & post & Ho & _ & Hleft).
  pose proof Ho as Ho'. apply occurs_severity in Ho'.
  destruct Ho' as (tok & Hs). exists pre, m, post, tok.
  split; [assumption|]. split; [now destruct Hs as (_ & _ & -> & _)|].
  intros pre' w' post' tok' Hs'.
  destruct (Nat.le_gt_cases (length pre) (length pre')) as [|Hlt]; auto.
  exfalso. apply (Hleft pre' w' post' Hlt).
  apply occurs_severity. now exists tok'.
Qed.

Lemma detectSeverity_none (line : list N) :
  detectSeverity line = None ->
  forall pre w post tok, ~ SeverityAt line pre w post tok.
Proof.
  unfold detectSeverity. destruct (matchRe reSeverity line) as [m|] eqn:E;
    [discriminate|].
  intros _ pre w post tok Hs.
  apply (matchRe_none _ _ E pre w post). apply occurs_severity. now exists tok.
Qed.

(** What [toUpperCase] is applied to holds letters only. *)
Lemma severity_match_letters (line m : list N) :
  matchRe reSeverity line = Some m ->
  Forall (fun c => isUpper c = true \/ isLower c = true) m.
Proof.
  intros E. apply matchRe_some in E. destruct E as (pre & post & Ho & _).
  apply occurs_severity in Ho.
  destruct Ho as (tok & _ & Hin & Hu & _).
  pose proof tokens_upper as Hup. rewrite Forall_forall in Hup.
  specialize (Hup tok Hin). clear Hin. revert Hup Hu.
  generalize (str tok). clear. induction m as [|d m IH]; intros cs Hup Hu.
  - constructor.
  - destruct cs as [|c cs]; [discriminate|]. simpl in Hu.
    injection Hu as H1 H2. inversion Hup; subst. constructor; eauto.
    destruct (isLower d); auto.
Qed.

End Severity.

(* ================================================================== *)
(** * The timestamp pattern                                            *)
(* ================================================================== *)

Section Timestamp.
Import JS Encoding Worker Meaning Denotation Classification.

Lemma Matches_fraction (b f a : list N) :
  Matches (opt (seqs [chr "."; plus digit])) b f a <-> Fraction f.
Proof.
  unfold opt, seqs, Fraction. cbn [fold_right].
  rewrite Matches_alt, Matches_empty. split.
  - intros [H|H]; [right|now left].
    seq_cut H s1 s2 H1.
    apply Matches_chr in H1. subst s1.
    seq_cut H ds s3 H2.
    apply Matches_empty in H. subst s3. rewrite app_nil_r.
    apply Matches_plus_class in H2. destruct H2 as [Hne Hd].
    now exists ds.
  - intros [->|(ds & -> & Hne & Hd)]; [now right|left].
    apply Matches_seq. exists (str "."), ds. split; [reflexivity|]. split.
    + now apply Matches_chr.
    + apply Matches_seq. exists ds, []. split; [now rewrite app_nil_r|].
      split; [now apply Matches_plus_class|constructor].
Qed.

Lemma Matches_reTimestamp (b ts a : list N) :
  Matches reTimestamp b ts a <-> TimestampText ts.
Proof.
  unfold reTimestamp, seqs, TimestampText, digits. cbn [fold_right]. split.
  - intros H.
    seq_cut H Y r1 HY. seq_cut H d1 r2 Hd1. seq_cut H M r3 HM.
    seq_cut H d2 r4 Hd2. seq_cut H D r5 HD. seq_cut H sp r6 Hsp.
    seq_cut H h r7 Hh. seq_cut H c1 r8 Hc1. seq_cut H m r9 Hm.
    seq_cut H c2 r10 Hc2. seq_cut H s r11 Hs. seq_cut H f r12 Hf.
    apply Matches_empty in H. subst r12.
    apply Matches_times_class in HY, HM, HD, Hh, Hm, Hs.
    apply Matches_chr in Hd1, Hd2, Hc1, Hc2. subst d1 d2 c1 c2.
    apply Matches_class in Hsp. destruct Hsp as (sep & -> & Hsep).
    apply (proj1 (Matches_fraction _ _ _)) in Hf.
    exists Y, M, D, sep, h, m, s, f. rewrite app_nil_r.
    repeat split; try tauto.
    apply orb_true_iff in Hsep. destruct Hsep as [Hsep|Hsep]; auto.
    left. now apply N.eqb_eq in Hsep.
  - intros (Y & M & D & sep & h & m & s & f & -> & HY & HM & HD & Hsep
            & Hh & Hm & Hs & Hf).
    seq_glue; [now apply Matches_times_class|].
    seq_glue; [now apply Matches_chr|].
    seq_glue; [now apply Matches_times_class|].
    seq_glue; [now apply Matches_chr|].
    seq_glue; [now apply Matches_times_class|].
    seq_glue.
    { apply Matches_class. exists sep. split; [reflexivity|].
      apply orb_true_iff. destruct Hsep as [->|Hsep]; auto. }
    seq_glue; [now apply Matches_times_class|].
    seq_glue; [now apply Matches_chr|].
    seq_glue; [now apply Matches_times_class|].
    seq_glue; [now apply Matches_chr|].
    seq_glue; [now apply Matches_times_class|].
    apply Matches_seq. exists f, []. split; [now rewrite app_nil_r|]. split.
    { now apply (proj2 (Matches_fraction _ _ _)). }
    constructor.
Qed.

(** ** The fraction is taken when there is one *)

Lemma exec_shorter (r : RegExp) (x y : list N * list N) :
  In y (exec r x) -> (length (snd y) <= length (snd x))%nat.
Proof.
  intros H. apply exec_sound in H. destruct H as (s & E & _).
  rewrite E, length_app. lia.
Qed.

Lemma AtMostOne_class (p : N -> bool) : AtMostOne (Class p).
Proof.
  intros [b [|c a]]; simpl; auto. destruct (p c); simpl; auto.
Qed.

Lemma AtMostOne_empty : AtMostOne Empty.
Proof. intros x. simpl. auto. Qed.

Lemma AtMostOne_seq (r1 r2 : RegExp) :
  AtMostOne r1 -> AtMostOne r2 -> AtMostOne (Seq r1 r2).
Proof.
  intros H1 H2 x. simpl. specialize (H1 x).
  destruct (exec r1 x) as [|y [|z l]]; simpl in *; auto; [|lia].
  rewrite app_nil_r. apply H2.
Qed.

Lemma AtMostOne_times (p : N -> bool) (n : nat) :
  AtMostOne (times n (Class p)).
Proof.
  induction n; simpl.
  - apply AtMostOne_empty.
  - apply AtMostOne_seq; auto. apply AtMostOne_class.
Qed.

Lemma LongestFirst_seq (r1 r2 : RegExp) :
  AtMostOne r1 -> LongestFirst r2 -> LongestFirst (Seq r1 r2).
Proof.
  intros H1 H2 x y rest. simpl. specialize (H1 x).
  destruct (exec r1 x) as [|z [|z' l]]; simpl in *; [discriminate| |lia].
  rewrite app_nil_r. apply H2.
Qed.

Lemma LongestFirst_empty : LongestFirst Empty.
Proof. intros x y rest E. simpl in E. injection E as <- <-. constructor. Qed.

Lemma LongestFirst_opt (r : RegExp) : LongestFirst r -> LongestFirst (opt r).
Proof.
  intros H x y rest. unfold opt. simpl.
  destruct (exec r x) as [|z l] eqn:E; simpl.
  - intros E'. injection E' as <- <-. constructor.
  - intros E'. injection E' as <- <-. apply Forall_app. split.
    + now apply (H x).
    + constructor; [|constructor]. apply (exec_shorter r). rewrite E. now left.
Qed.

Lemma iterate_shorter (r : RegExp) (n : nat) (x y : list N * list N) :
  In y (iterate (exec r) n x) -> (length (snd y) <= length (snd x))%nat.
Proof.
  intros H. apply (iterate_sound r (exec_sound r)) in H.
  destruct H as (s & E & _). rewrite E, length_app. lia.
Qed.

Lemma iterate_class_longest (p : N -> bool) (n : nat) :
  forall x y rest, iterate (exec (Class p)) n x = y :: rest ->
  Forall (fun z => (length (snd y) <= length (snd z))%nat) rest.
Proof.
  induction n as [|n IH]; intros x y rest.
  - simpl. intros E. injection E as <- <-. constructor.
  - change (iterate (exec (Class p)) (S n) x)
      with (flat_map
              (fun y => if (length (snd y) <? length (snd x))%nat
                        then iterate (exec (Class p)) n y else [])
              (exec (Class p) x) ++ [x]).
    destruct x as [b [|c a]].
    + simpl. intros E. injection E as <- <-. constructor.
    + change (exec (Class p) (b, c :: a))
        with (if p c then [(c :: b, a)] else []).
      destruct (p c); cbn [flat_map snd length app].
      * rewrite app_nil_r.
        destruct (Nat.ltb_spec (length a) (S (length a))); [|lia].
        destruct (iterate (exec (Class p)) n (c :: b, a)) as [|z l] eqn:E;
          cbn [app]; intros E'; injection E' as <- <-.
        -- constructor.
        -- apply Forall_app. split; [now apply (IH (c :: b, a))|].
           constructor; [|constructor].
           assert (Hin : In z (iterate (exec (Class p)) n (c :: b, a)))
             by (rewrite E; now left).
           apply iterate_shorter in Hin. simpl in *. lia.
      * intros E. injection E as <- <-. constructor.
Qed.

Lemma LongestFirst_star_class (p : N -> bool) : LongestFirst (Star (Class p)).
Proof.
  intros x y rest E.
  exact (iterate_class_longest p (S (length (snd x))) x y rest E).
Qed.

Lemma LongestFirst_seq_empty (r : RegExp) :
  LongestFirst r -> LongestFirst (Seq r Empty).
Proof.
  intros H x y rest. simpl.
  assert (E : forall l : list (list N * list N),
             flat_map (fun z => [z]) l = l).
  { induction l; simpl; congruence. }
  rewrite E. apply H.
Qed.

Create HintDb longest.
#[local] Hint Resolve AtMostOne_class AtMostOne_times AtMostOne_empty
  LongestFirst_seq LongestFirst_seq_empty LongestFirst_opt
  LongestFirst_star_class LongestFirst_empty : longest.

Lemma LongestFirst_reTimestamp : LongestFirst reTimestamp.
Proof.
  unfold reTimestamp, seqs, digit, chr, plus. cbn [fold_right].
  auto 20 with longest.
Qed.

Lemma occurs_timestamp (line pre ts post : list N) :
  OccursAt reTimestamp line pre ts post <-> TimestampAt line pre ts post.
Proof. unfold OccursAt, TimestampAt. now rewrite Matches_reTimestamp. Qed.

(** The timestamp found has the form of one, none starts further left,
    and none from the same start is longer. *)
Lemma detectTimestamp_some (line ts : list N) :
  detectTimestamp line = Some ts ->
  exists pre post,
    TimestampAt line pre ts post
    /\ (forall pre' ts' post',
           TimestampAt line pre' ts' post' ->
           (length pre <= length pre')%nat)
    /\ (forall ts' post',
           TimestampAt line pre ts' post' ->
           (length ts' <= length ts)%nat).
Proof.
  unfold detectTimestamp. intros E.
  apply matchRe_some in E. destruct E as (pre & post & Ho & Hm & Hleft).
  exists pre, post. split; [now apply occurs_timestamp|]. split.
  - intros pre' ts' post' H'.
    destruct (Nat.le_gt_cases (length pre) (length pre')) as [|Hlt]; auto.
    exfalso. apply (Hleft pre' ts' post' Hlt). now apply occurs_timestamp.
  - intros ts' post' [E' H'].
    destruct Ho as [E _]. rewrite E in E'. apply app_inv_head in E'.
    apply (Matches_reTimestamp (rev pre) ts' post') in H'.
    apply exec_complete in H'. rewrite <- E' in H'.
    unfold matchAt in Hm.
    destruct (exec reTimestamp (rev pre, ts ++ post)) as [|y rest] eqn:Ex;
      [discriminate|].
    simpl in Hm. injection Hm as ->.
    pose proof (LongestFirst_reTimestamp _ _ _ Ex) as Hl.
    assert (Hp : (length post <= length post')%nat).
    { destruct H' as [H'|H'].
      - injection H' as _ ->. lia.
      - rewrite Forall_forall in Hl. apply (Hl _ H'). }
    apply (f_equal (@length N)) in E'. rewrite !length_app in E'. lia.
Qed.

Lemma detectTimestamp_none (line : list N) :
  detectTimestamp line = None ->
  forall pre ts post, ~ TimestampAt line pre ts post.
Proof.
  unfold detectTimestamp. intros E pre ts post H.
  apply (matchRe_none _ _ E pre ts post). now apply occurs_timestamp.
Qed.

End Timestamp.

(* ================================================================== *)
(** * Entry start and continuation                                     *)
(* ================================================================== *)

Section Tests.
Import JS Encoding Worker Meaning Denotation Classification.

Lemma test_bol_iff (r : RegExp) (s : list N) :
  test (Seq Bol r) s = true <->
  exists m post, s = m ++ post /\ Matches r [] m post.
Proof.
  rewrite test_bol. split.
  - destruct (matchAt r ([], s)) as [y|] eqn:E; [intros _|discriminate].
    apply matchAt_found in E. destruct E as (m & post & E & _ & M & _).
    now exists m, post.
  - intros (m & post & -> & M). apply matchAt_some in M.
    destruct M as (y & ->). reflexivity.
Qed.

Lemma isSome_true (A : Type) (o : option A) :
  isSome o = true <-> exists a, o = Some a.
Proof.
  destruct o; simpl; split; eauto; try discriminate.
  intros (a & H). discriminate.
Qed.

Lemma has_timestamp (line : list N) :
  isSome (detectTimestamp line) = true
  <-> exists pre ts post, TimestampAt line pre ts post.
Proof.
  rewrite isSome_true. split.
  - intros (ts & E). apply detectTimestamp_some in E.
    destruct E as (pre & post & H & _). now exists pre, ts, post.
  - intros (pre & ts & post & H).
    destruct (detectTimestamp line) as [ts'|] eqn:E; [now exists ts'|].
    exfalso. exact (detectTimestamp_none line E pre ts post H).
Qed.

Lemma has_severity (line : list N) :
  isSome (detectSeverity line) = true
  <-> exists pre w post tok, SeverityAt line pre w post tok.
Proof.
  rewrite isSome_true. split.
  - intros (sev & E). apply detectSeverity_some in E.
    destruct E as (pre & w & post & tok & H & _). now exists pre, w, post, tok.
  - intros (pre & w & post & tok & H).
    destruct (detectSeverity line) as [sev|] eqn:E; [now exists sev|].
    exfalso. exact (detectSeverity_none line E pre w post tok H).
Qed.

Lemma isJsonStart_iff (line : list N) :
  isJsonStart line = true
  <-> exists ws rest, line = ws ++ str "{" ++ rest /\ allWhiteSpace ws.
Proof.
  unfold isJsonStart, reJsonStart, seqs. cbn [fold_right].
  rewrite test_bol_iff. split.
  - intros (m & post & -> & M).
    seq_cut M ws s2 H1.
    apply Matches_star_class in H1.
    seq_cut M b s3 H2.
    apply Matches_chr in H2. subst b. apply Matches_empty in M. subst s3.
    exists ws, post. split; auto. now rewrite <- !app_assoc.
  - intros (ws & rest & -> & H). exists (ws ++ str "{"), rest.
    split; [now rewrite <- app_assoc|].
    apply Matches_seq. exists ws, (str "{"). split; [reflexivity|]. split.
    + now apply Matches_star_class.
    + apply Matches_seq. exists (str "{"), []. repeat split.
      * now apply Matches_chr.
      * constructor.
Qed.

(** [isEntryStart] is [EntryStart]. *)
Lemma isEntryStart_iff (line : list N) :
  isEntryStart line = true <-> EntryStart line.
Proof.
  unfold isEntryStart, EntryStart.
  rewrite !orb_true_iff, has_timestamp, has_severity, isJsonStart_iff.
  tauto.
Qed.

Lemma leadingSpace_iff (line : list N) :
  test reLeadingSpace line = true
  <-> exists c rest, line = c :: rest /\ isWhiteSpace c = true.
Proof.
  unfold reLeadingSpace, seqs. cbn [fold_right]. rewrite test_bol_iff. split.
  - intros (m & post & -> & M).
    seq_cut M s1 s2 H1.
    apply Matches_class in H1. destruct H1 as (c & -> & Hc).
    apply Matches_empty in M. subst s2. now exists c, post.
  - intros (c & rest & -> & Hc). exists [c], rest. split; [reflexivity|].
    apply Matches_seq. exists [c], []. repeat split.
    + now constructor.
    + constructor.
Qed.

Lemma at_iff (t : list N) :
  test reAt t = true
  <-> exists c rest, t = str "at" ++ c :: rest /\ isWhiteSpace c = true.
Proof.
  unfold reAt, seqs. cbn [fold_right]. rewrite test_bol_iff. split.
  - intros (m & post & -> & M).
    seq_cut M s1 s2 H1.
    apply Matches_lit in H1. subst s1.
    seq_cut M s3 s4 H2.
    apply Matches_class in H2. destruct H2 as (c & -> & Hc).
    apply Matches_empty in M. subst s4. now exists c, post.
  - intros (c & rest & -> & Hc). exists (str "at" ++ [c]), rest.
    split; [reflexivity|].
    apply Matches_seq. exists (str "at"), [c]. split; [reflexivity|]. split.
    + now apply Matches_lit.
    + apply Matches_seq. exists [c], []. repeat split.
      * now constructor.
      * constructor.
Qed.

Lemma prefix_iff (w : string) (t : list N) :
  test (seqs [Bol; lit w]) t = true <-> exists rest, t = str w ++ rest.
Proof.
  unfold seqs. cbn [fold_right]. rewrite test_bol_iff. split.
  - intros (m & post & -> & M).
    seq_cut M s1 s2 H1.
    apply Matches_lit in H1. subst s1. apply Matches_empty in M. subst s2.
    exists post. now rewrite app_nil_r.
  - intros (rest & ->). exists (str w), rest. split; [reflexivity|].
    apply Matches_seq. exists (str w), []. split; [now rewrite app_nil_r|].
    split; [now apply Matches_lit|constructor].
Qed.

Lemma file_iff (t : list N) :
  test reFile t = true
  <-> exists ws rest, t = str "File" ++ ws ++ 34%N :: rest
                      /\ ws <> [] /\ allWhiteSpace ws.
Proof.
  unfold reFile, seqs. cbn [fold_right]. rewrite test_bol_iff. split.
  - intros (m & post & -> & M).
    seq_cut M s1 s2 H1.
    apply Matches_lit in H1. subst s1.
    seq_cut M ws s3 H2.
    apply Matches_plus_class in H2. destruct H2 as [Hne Hws].
    seq_cut M q s4 H3.
    apply Matches_class in H3. destruct H3 as (c & -> & Hc).
    apply N.eqb_eq in Hc. subst c. apply Matches_empty in M. subst s4.
    exists ws, post. split; auto. now rewrite <- !app_assoc.
  - intros (ws & rest & -> & Hne & Hws).
    exists (str "File" ++ ws ++ [34%N]), rest.
    split; [now rewrite <- !app_assoc|].
    apply Matches_seq. exists (str "File"), (ws ++ [34%N]).
    split; [reflexivity|]. split; [now apply Matches_lit|].
    apply Matches_seq. exists ws, [34%N]. split; [reflexivity|]. split.
    + now apply Matches_plus_class.
    + apply Matches_seq. exists [34%N], []. repeat split.
      * now constructor.
      * constructor.
Qed.

(** [isContinuationLine] is [Continuation]. *)
Lemma isContinuationLine_iff (line : list N) :
  isContinuationLine line = true <-> Continuation line.
Proof.
  unfold isContinuationLine, Continuation.
  destruct (trim line) as [|c t] eqn:E.
  - split; auto.
  - rewrite !orb_true_iff, leadingSpace_iff, at_iff, file_iff.
    rewrite (prefix_iff "Caused by"), (prefix_iff "Traceback").
    split; [tauto|]. intros [H|H]; [discriminate|tauto].
Qed.

End Tests.

(* ================================================================== *)
(** * The claims: lines and entries                                    *)
(* ================================================================== *)

Section Claims.
Import JS Encoding Worker Meaning Denotation Samples.

Lemma SLICE_SIZE_pos : (0 < SLICE_SIZE)%Z.
Proof. reflexivity. Qed.

Lemma done_of_parseFile (clock : Clock) (file : File)
  (es : list LogEntry) (stats : Stats.stats) :
  In (DONE es stats) (fst (parseFile clock file)) ->
  DONE es stats = doneOf clock file.
Proof.
  intros Hin.
  destruct (parseFileWith_outcome SLICE_SIZE PROGRESS_INTERVAL_BYTES clock
              file SLICE_SIZE_pos) as (posted & HP & [(e & o & _ & E)|E]);
    unfold parseFile in Hin; rewrite E in Hin; simpl in Hin;
    rewrite Forall_forall in HP.
  - apply HP in Hin. contradiction.
  - apply in_app_or in Hin. destruct Hin as [Hin|[Hin|[]]]; auto.
    apply HP in Hin. contradiction.
Qed.

(** C1.  The entries of a completed parse take the physical lines one
    after the other: every range is not empty, the first starts at line 1,
    each next one starts right after the one before, the last ends at the
    line count, every text has as many lines as its range, and the lines
    of the texts in order are the lines of the file.  A parse whose reads
    do not reject completes. *)
Theorem entries_partition_lines (clock : Clock) (file : File) :
  (forall es stats,
      In (DONE es stats) (fst (parseFile clock file)) ->
      Forall (fun e => (lineStart e <= lineEnd e)%Z) es
      /\ (forall e rest, es = e :: rest -> lineStart e = 1%Z)
      /\ (forall i e1 e2,
             nth_error es i = Some e1 -> nth_error es (S i) = Some e2 ->
             lineStart e2 = (lineEnd e1 + 1)%Z)
      /\ (forall front e, es = front ++ [e] -> lineEnd e = Stats.lines stats)
      /\ (es = [] -> Stats.lines stats = 0%Z)
      /\ Forall (fun e => Z.of_nat (length (splitOn LF (text e)))
                          = (lineEnd e - lineStart e + 1)%Z) es
      /\ Stats.lines stats
         = Z.of_nat (length (physicalLines (decodeAll (contents file))))
      /\ concat (map (fun e => splitOn LF (text e)) es)
         = physicalLines (decodeAll (contents file)))
  /\ ((forall o, rejects file o = None) ->
      exists posted es stats,
        parseFile clock file = (posted ++ [DONE es stats], Fulfilled)).
Proof.
  split.
  - intros es stats Hin. apply done_of_parseFile in Hin.
    unfold doneOf, doneMessage in Hin. simpl in Hin.
    injection Hin as -> ->. simpl.
    destruct (grouped_Closed (decodeAll (contents file)))
      as (Hn & Hcur & Hcov & Hcat).
    set (g := grouped (decodeAll (contents file))) in *.
    pose proof (Covers_ranges _ _ _ Hcov) as Hr.
    repeat split.
    + eapply Forall_impl; [|exact Hr]. now intros e [H _].
    + intros e rest E. rewrite E in Hcov. now destruct Hcov.
    + intros i e1 e2. eapply Covers_adjacent; eauto.
    + intros front e E. rewrite E in Hcov. apply Covers_last in Hcov. lia.
    + intros E. rewrite E in Hcov. simpl in Hcov. lia.
    + eapply Forall_impl; [|exact Hr]. now intros e [_ H].
    + exact Hn.
    + exact Hcat.
  - intros Hr.
    destruct (parseFileWith_never_rejects SLICE_SIZE PROGRESS_INTERVAL_BYTES
                clock file SLICE_SIZE_pos Hr) as (posted & _ & E).
    unfold doneOf, doneMessage in E. eauto.
Qed.

(** The partition at the scenario of two entries. *)
Lemma entries_partition_lines_witness :
  exists posted es stats,
    parseFile {| startTime := 0%Q; doneTime := 1%Q |} (plain scenario)
    = (posted ++ [DONE es stats], Fulfilled).
Proof.
  apply (proj2 (entries_partition_lines
                  {| startTime := 0%Q; doneTime := 1%Q |} (plain scenario))).
  reflexivity.
Defined.

(** C3.  The scenario: two entries, lines 1 to 2 and line 3. *)
Theorem scenario_two_entries (clock : Clock) :
  parseFile clock (plain scenario) =
  ([PROGRESS {| Progress.bytesProcessed := 79; Progress.totalBytes := 79;
                Progress.percent := 1%Q; Progress.lines := 3;
                Progress.entries := 1 |};
    DONE [ {| lineStart := 1; lineEnd := 2;
              text := scenarioLine1 ++ [LF] ++ str "world";
              severity := Some (str "TRACE");
              timestamp := Some (str "2026-01-03T06:29:46.882") |};
           {| lineStart := 3; lineEnd := 3;
              text := scenarioLine3;
              severity := Some (str "ERROR");
              timestamp := Some (str "2026-01-03T06:29:47.000") |} ]
         {| Stats.bytesProcessed := 79; Stats.totalBytes := 79;
            Stats.lines := 3; Stats.entries := 2;
            Stats.durationMs := (doneTime clock - startTime clock)%Q |}],
   Fulfilled).
Proof. vm_compute. reflexivity. Qed.

(** C8.  An empty file: one [DONE] message with no entries, no lines and
    no bytes, and nothing else, whatever its reads would do. *)
Theorem empty_input (clock : Clock) (rejects : Z -> option Thrown) :
  let empty := {| contents := []; rejects := rejects |} in
  size empty = 0%Z
  /\ parseFile clock empty
     = ([DONE [] {| Stats.bytesProcessed := 0; Stats.totalBytes := 0;
                    Stats.lines := 0; Stats.entries := 0;
                    Stats.durationMs :=
                      (doneTime clock - startTime clock)%Q |}],
        Fulfilled)
  /\ onmessage clock (parseRequest empty)
     = [DONE [] {| Stats.bytesProcessed := 0; Stats.totalBytes := 0;
                   Stats.lines := 0; Stats.entries := 0;
                   Stats.durationMs :=
                     (doneTime clock - startTime clock)%Q |}].
Proof. repeat split. Qed.

(* ------------------------------------------------------------------ *)
(** ** Chunks *)

Lemma consume_all (chunks : list (list byte)) :
  forall B st, Consumed B st ->
  Consumed (B ++ concat chunks)
    (fold_left (fun st c => consume c st) chunks st).
Proof.
  induction chunks as [|c chunks IH]; intros B st H; simpl.
  - now rewrite app_nil_r.
  - rewrite app_assoc. apply IH. now apply consumed_step.
Qed.

Lemma deliver_grouped (chunks : list (list byte)) :
  sameGrouping (deliver chunks) (grouped (decodeAll (concat chunks)))
  /\ bytesProcessed (deliver chunks) = Z.of_nat (length (concat chunks)).
Proof.
  pose proof (consume_all chunks [] initial consumed_initial) as H.
  simpl in H. unfold deliver. split.
  - now apply flush_grouped.
  - rewrite flush_bytesProcessed. now destruct H as (_ & _ & _ & P).
Qed.

Lemma doneMessage_deliver (clock : Clock) (file : File) :
  doneMessage clock file (deliver [contents file]) = doneOf clock file.
Proof.
  destruct (deliver_grouped [contents file]) as ((G1 & G2 & G3) & P).
  simpl concat in *. rewrite app_nil_r in *.
  unfold doneOf, doneMessage. simpl. rewrite G1, G3, P. reflexivity.
Qed.

(** C6.  However the bytes of a file are cut into chunks, inside a
    character or a line terminator or elsewhere, the entries and the
    counts of lines and entries are those of the whole file delivered as
    one chunk; so is the [DONE] message of [parseFile] at every slice
    size. *)
Theorem chunking_is_invisible (chunks : list (list byte)) :
  (entries (deliver chunks) = entries (deliver [concat chunks])
   /\ lineNumber (deliver chunks) = lineNumber (deliver [concat chunks])
   /\ length (entries (deliver chunks))
      = length (entries (deliver [concat chunks])))
  /\ (forall sliceSize interval clock file,
         (0 < sliceSize)%Z -> (forall o, rejects file o = None) ->
         exists posted,
           Forall isProgress posted
           /\ parseFileWith sliceSize interval clock file
              = (posted ++ [doneMessage clock file (deliver [contents file])],
                 Fulfilled)).
Proof.
  split.
  - destruct (deliver_grouped chunks) as ((G1 & G2 & G3) & _).
    destruct (deliver_grouped [concat chunks]) as ((K1 & K2 & K3) & _).
    simpl concat in *. rewrite app_nil_r in *.
    rewrite G1, G3, K1, K3. auto.
  - intros sliceSize interval clock file Hs Hr.
    rewrite doneMessage_deliver.
    now apply parseFileWith_never_rejects.
Qed.

(** Chunks that cut the byte order mark, two characters and a carriage
    return from its line feed. *)
Lemma chunking_is_invisible_witness :
  entries (deliver mixedCuts) = entries (deliver [mixedBytes])
  /\ entries (deliver mixedSingles) = entries (deliver [mixedBytes])
  /\ map (fun e => (lineStart e, lineEnd e, text e)) (entries (deliver mixedCuts))
     = [(1%Z, 1%Z, str "INFO " ++ [233%N]);
        (2%Z, 3%Z, str "{" ++ [55357%N; 56832%N; CR] ++ str "x"
                    ++ [LF; 65533%N; 65533%N])].
Proof.
  split; [|split].
  - exact (proj1 (proj1 (chunking_is_invisible mixedCuts))).
  - exact (proj1 (proj1 (chunking_is_invisible mixedSingles))).
  - vm_compute. reflexivity.
Defined.

(* ------------------------------------------------------------------ *)
(** ** Line terminators *)

Lemma completeLines_line (l rest : list N) :
  LFfree l ->
  completeLines (l ++ LF :: rest) = stripCR l :: completeLines rest
  /\ trailing (l ++ LF :: rest) = trailing rest.
Proof.
  intros H. unfold completeLines, trailing.
  rewrite splitOn_free_app by assumption.
  rewrite removelast_cons, last_cons by apply splitOn_nonempty. auto.
Qed.

Lemma stripCR_keeps (l : list N) : last l 0%N <> CR -> stripCR l = l.
Proof.
  intros H. unfold stripCR.
  destruct (N.eqb_spec (last l 0%N) CR); [contradiction|reflexivity].
Qed.

Lemma LFfree_snoc_CR (l : list N) : LFfree l -> LFfree (l ++ [CR]).
Proof.
  intros H Hin. apply in_app_or in Hin. destruct Hin as [Hin|[E|[]]]; auto.
  discriminate.
Qed.

Lemma lines_render (ls : list (jsString * bool)) (tail : list N) :
  Forall Writable ls -> LFfree tail ->
  completeLines (render ls tail) = map fst ls
  /\ trailing (render ls tail) = tail.
Proof.
  intros Hall Ht. induction Hall as [|[l crlf] ls [Hl Hcr] _ IH]; simpl.
  - now apply lines_of_fragment.
  - destruct IH as (IH1 & IH2). simpl in *. destruct crlf.
    + replace (l ++ [CR; LF] ++ render ls tail)
        with ((l ++ [CR]) ++ LF :: render ls tail)
        by (now rewrite <- app_assoc).
      destruct (completeLines_line (l ++ [CR]) (render ls tail)
                  (LFfree_snoc_CR l Hl)) as (-> & ->).
      now rewrite stripCR_snoc_CR, IH1, IH2.
    + change (l ++ [LF] ++ render ls tail) with (l ++ LF :: render ls tail).
      destruct (completeLines_line l (render ls tail) Hl) as (-> & ->).
      now rewrite stripCR_keeps, IH1, IH2 by auto.
Qed.

Lemma utf8Run_ascii (bs : list byte) :
  Forall (fun b => (Byte.to_N b < 128)%N) bs ->
  utf8Run utf8Initial bs = (utf8Initial, map Byte.to_N bs).
Proof.
  induction 1 as [|b bs Hb _ IH]; [reflexivity|].
  cbn [utf8Run map]. unfold utf8Byte, utf8Handler. cbn [bytesNeeded utf8Initial].
  cbn [N.eqb]. unfold utf8Lead, inRange.
  replace (0 <=? Byte.to_N b)%N with true by (symmetry; apply N.leb_le; lia).
  replace (Byte.to_N b <=? 127)%N with true by (symmetry; apply N.leb_le; lia).
  cbn [andb emitted]. now rewrite IH.
Qed.

Lemma bytesOf_ascii (t : list N) :
  Ascii t ->
  Forall (fun b => (Byte.to_N b < 128)%N) (bytesOf t)
  /\ map Byte.to_N (bytesOf t) = t.
Proof.
  induction 1 as [|c t Hc _ [IH1 IH2]]; [split; constructor|].
  unfold bytesOf in *. cbn [map].
  destruct (Byte.of_N c) as [b|] eqn:E.
  - apply Byte.to_of_N in E. subst c. split; [now constructor|].
    now rewrite IH2.
  - apply Byte.of_N_None_iff in E. lia.
Qed.

Lemma flat_map_utf16_ascii (t : list N) :
  Ascii t -> flat_map utf16 t = t.
Proof.
  induction 1 as [|c t Hc _ IH]; [reflexivity|].
  cbn [flat_map]. rewrite IH. unfold utf16.
  now replace (c <=? 65535)%N with true by (symmetry; apply N.leb_le; lia).
Qed.

(** A file of Basic Latin bytes decodes to the code units of its bytes. *)
Lemma decodeAll_ascii (t : list N) : Ascii t -> decodeAll (bytesOf t) = t.
Proof.
  intros H. destruct (bytesOf_ascii t H) as [H1 H2].
  unfold decodeAll, decode. cbn [doNotFlush newTextDecoder utf8 bomSeen].
  rewrite (utf8Run_ascii _ H1), H2. cbn [utf8End utf8Initial bytesNeeded N.eqb].
  rewrite app_nil_r. unfold serialize.
  destruct t as [|c t]; [reflexivity|].
  inversion H as [|? ? Hc Ht]; subst.
  replace (c =? 65279)%N with false by (symmetry; apply N.eqb_neq; lia).
  cbn [snd]. now apply flat_map_utf16_ascii.
Qed.

(** C10.  In a text written line by line, a line feed ends a line and a
    carriage return right before it goes with it: the lines handled are
    the lines written, whichever terminator each has, carriage returns
    elsewhere staying in their line; the line count and the lines of the
    entries' texts are the same for every choice of terminators.  So it
    is for [parseFile] on the bytes of such a text of Basic Latin. *)
Theorem carriage_return_with_line_feed
  (ls : list (jsString * bool)) (tail : jsString) (st : Parser) :
  Forall Writable ls -> LFfree tail ->
  let written := map fst ls ++ match tail with [] => [] | _ :: _ => [tail] end in
  processText (render ls tail) st = (feed (map fst ls) st, tail)
  /\ physicalLines (render ls tail) = written
  /\ lineNumber (grouped (render ls tail)) = Z.of_nat (length written)
  /\ concat (map (fun e => splitOn LF (text e))
               (entries (grouped (render ls tail)))) = written
  /\ (Ascii (render ls tail) ->
      forall clock, exists posted es stats,
        parseFile clock (plain (bytesOf (render ls tail)))
        = (posted ++ [DONE es stats], Fulfilled)
        /\ Stats.lines stats = Z.of_nat (length written)
        /\ concat (map (fun e => splitOn LF (text e)) es) = written).
Proof.
  intros Hall Ht written.
  destruct (lines_render ls tail Hall Ht) as (H1 & H2).
  assert (Hp : physicalLines (render ls tail) = written).
  { unfold physicalLines. now rewrite H1, H2. }
  destruct (grouped_Closed (render ls tail)) as (Hn & _ & _ & Hcat).
  rewrite Hp in Hn, Hcat.
  split; [|split; [|split; [|split]]]; auto.
  - rewrite processText_lines. now rewrite H1, H2.
  - intros Ha clock.
    destruct (parseFileWith_never_rejects SLICE_SIZE PROGRESS_INTERVAL_BYTES
                clock (plain (bytesOf (render ls tail))) SLICE_SIZE_pos
                ltac:(reflexivity)) as (posted & _ & E).
    unfold doneOf, doneMessage in E. simpl contents in E.
    rewrite (decodeAll_ascii _ Ha) in E.
    do 3 eexists. split; [exact E|]. split; [exact Hn|exact Hcat].
Qed.

(** Two lines ended by both terminators, carriage returns inside a line,
    doubled before a terminator and at the end of the text. *)
Lemma carriage_return_with_line_feed_witness :
  processText
    (render [(str "a" ++ [CR] ++ str "b", true); (str "c" ++ [CR], true);
             (str "d", false)] (str "e" ++ [CR])) initial
  = (feed [str "a" ++ [CR] ++ str "b"; str "c" ++ [CR]; str "d"] initial,
     str "e" ++ [CR])
  /\ lineNumber
       (grouped (render [(str "a" ++ [CR] ++ str "b", true);
                         (str "c" ++ [CR], true); (str "d", false)]
                   (str "e" ++ [CR]))) = 4%Z
  /\ exists posted es stats,
       parseFile {| startTime := 0%Q; doneTime := 1%Q |}
         (plain (bytesOf
                   (render [(str "a" ++ [CR] ++ str "b", true);
                            (str "c" ++ [CR], true); (str "d", false)]
                      (str "e" ++ [CR]))))
       = (posted ++ [DONE es stats], Fulfilled)
       /\ Stats.lines stats = 4%Z
       /\ concat (map (fun e => splitOn LF (text e)) es)
          = [str "a" ++ [CR] ++ str "b"; str "c" ++ [CR]; str "d";
             str "e" ++ [CR]].
Proof.
  assert (H : Forall Writable
                [(str "a" ++ [CR] ++ str "b", true); (str "c" ++ [CR], true);
                 (str "d", false)]).
  { repeat constructor; simpl; unfold LFfree; simpl;
      try discriminate; intuition discriminate. }
  assert (Ht : LFfree (str "e" ++ [CR])).
  { unfold LFfree; simpl; intuition discriminate. }
  assert (Ha : Ascii
                 (render [(str "a" ++ [CR] ++ str "b", true);
                          (str "c" ++ [CR], true); (str "d", false)]
                    (str "e" ++ [CR]))).
  { unfold Ascii. simpl. repeat constructor. }
  destruct (carriage_return_with_line_feed _ _ initial H Ht)
    as (E1 & _ & E2 & _ & E3).
  split; [exact E1|split; [exact E2|]].
  exact (E3 Ha {| startTime := 0%Q; doneTime := 1%Q |}).
Defined.

End Claims.

(* ================================================================== *)
(** * The claims: classification and grouping                          *)
(* ================================================================== *)

Section Claims2.
Import JS Encoding Worker Meaning Denotation Classification Samples.

Lemma finalizeEntry_closed (st : Parser) (cur : CurrentEntry) :
  currentEntry st = Some cur ->
  entries (finalizeEntry st) = entries st ++ [closedEntry cur]
  /\ currentEntry (finalizeEntry st) = None
  /\ lineNumber (finalizeEntry st) = lineNumber st.
Proof.
  intros E. unfold finalizeEntry. rewrite E. repeat split.
Qed.

Lemma closedEntry_first (cur : CurrentEntry) :
  lines cur <> [] -> Forall LFfree (lines cur) ->
  firstLineOf (closedEntry cur) = firstLine (lines cur).
Proof.
  intros H1 H2. unfold firstLineOf, closedEntry, linesOf. simpl.
  now rewrite splitOn_join.
Qed.

Lemma closedEntry_Classified (cur : CurrentEntry) :
  lines cur <> [] -> Forall LFfree (lines cur) ->
  Classified [closedEntry cur].
Proof.
  intros H1 H2. constructor; [|constructor].
  rewrite closedEntry_first by assumption. split; reflexivity.
Qed.

Lemma finalizeEntry_Classified (ls : list jsString) (st : Parser) :
  Grouping ls st -> Classified (entries st) ->
  Classified (entries (finalizeEntry st)).
Proof.
  intros (_ & G) HC. destruct (currentEntry st) as [cur|] eqn:E.
  - destruct (finalizeEntry_closed st cur E) as (-> & _).
    destruct G as (Hne & Hfree & _). apply Forall_app. split; auto.
    now apply closedEntry_Classified.
  - unfold finalizeEntry. now rewrite E.
Qed.

Lemma handleLine_Classified (ls : list jsString) (l : list N) (st : Parser) :
  Grouping ls st -> Classified (entries st) ->
  Classified (entries (handleLine l st)).
Proof.
  intros (_ & G) HC. destruct st as [es cur bp lp n lo dec].
  unfold handleLine, finalizeEntry. simpl in *.
  destruct cur as [cur|]; simpl; auto.
  destruct (isEntryStart l && negb (isContinuationLine l)); simpl; auto.
  destruct G as (Hne & Hfree & _). apply Forall_app. split; auto.
  now apply closedEntry_Classified.
Qed.

Lemma feed_Classified (more : list jsString) :
  forall ls st, Grouping ls st -> Classified (entries st) ->
  Forall LFfree more -> Classified (entries (feed more st)).
Proof.
  induction more as [|l more IH]; intros ls st G HC Hall; simpl; auto.
  inversion Hall; subst.
  apply (IH (ls ++ [l])); auto.
  - now apply handleLine_Grouping.
  - now apply (handleLine_Classified ls).
Qed.

Lemma grouped_Classified (t : list N) : Classified (entries (grouped t)).
Proof.
  unfold grouped.
  apply (finalizeEntry_Classified (physicalLines t)).
  - apply (feed_Grouping (physicalLines t) [] initial initial_Grouping).
    apply physicalLines_free.
  - apply (feed_Classified (physicalLines t) [] initial initial_Grouping).
    + constructor.
    + apply physicalLines_free.
Qed.

(** C4.  Every entry of a parse has the severity and the timestamp found
    on the first line of its text, whatever its later lines hold.  The
    severity found on a line is one of the seven tokens, in upper case
    and as it is (no alias replaced), that the line has as a whole word in
    any mix of cases, the leftmost one; a line with no such word has no
    severity.  The timestamp found is the leftmost part of the line of the
    form YYYY-MM-DD, T or a white space, HH:MM:SS and an optional
    fraction, the fraction taken when there is one; a line with no such
    part has no timestamp. *)
Theorem classified_by_first_line (clock : Clock) (file : File) :
  (forall es stats e,
      In (DONE es stats) (fst (parseFile clock file)) -> In e es ->
      severity e = detectSeverity (firstLineOf e)
      /\ timestamp e = detectTimestamp (firstLineOf e))
  /\ (forall line,
        match detectSeverity line with
        | Some sev =>
            exists pre w post tok,
              SeverityAt line pre w post tok /\ sev = str tok
              /\ forall pre' w' post' tok',
                   SeverityAt line pre' w' post' tok' ->
                   (length pre <= length pre')%nat
        | None => forall pre w post tok, ~ SeverityAt line pre w post tok
        end)
  /\ (forall line,
        match detectTimestamp line with
        | Some ts =>
            exists pre post,
              TimestampAt line pre ts post
              /\ (forall pre' ts' post',
                     TimestampAt line pre' ts' post' ->
                     (length pre <= length pre')%nat)
              /\ (forall ts' post',
                     TimestampAt line pre ts' post' ->
                     (length ts' <= length ts)%nat)
        | None => forall pre ts post, ~ TimestampAt line pre ts post
        end)
  /\ detectSeverity (str "disk fatal: full") = Some (str "FATAL")
  /\ detectSeverity (str "Warning-1") = Some (str "WARNING").
Proof.
  split; [|split; [|split; [|split]]].
  - intros es stats e Hin He. apply done_of_parseFile in Hin.
    unfold doneOf, doneMessage in Hin. simpl in Hin.
    injection Hin as -> _.
    pose proof (grouped_Classified (decodeAll (contents file))) as HC.
    unfold Classified in HC. rewrite Forall_forall in HC. now apply HC.
  - intros line. destruct (detectSeverity line) as [sev|] eqn:E.
    + now apply detectSeverity_some.
    + now apply detectSeverity_none.
  - intros line. destruct (detectTimestamp line) as [ts|] eqn:E.
    + now apply detectTimestamp_some.
    + now apply detectTimestamp_none.
  - vm_compute. reflexivity.
  - vm_compute. reflexivity.
Qed.

(** An entry whose second line has a severity and a timestamp and whose
    first line has none is left without either; a token in lower case is
    recorded in upper case, as it is. *)
Lemma classified_by_first_line_witness :
  map (fun e => (lineStart e, lineEnd e, severity e, timestamp e))
    (entries (grouped (str "started" ++ [LF]
                       ++ str " ERROR at 2026-01-03 06:29:46")))
  = [(1%Z, 2%Z, None, None)]
  /\ detectSeverity (str "disk fatal: full") = Some (str "FATAL").
Proof.
  split; [vm_compute; reflexivity|].
  exact (proj1 (proj2 (proj2 (proj2
           (classified_by_first_line {| startTime := 0%Q; doneTime := 0%Q |}
              (plain [])))))).
Defined.

(* ------------------------------------------------------------------ *)
(** ** One line with an entry open *)

Lemma handleLine_cases (line : list N) (st : Parser) (cur : CurrentEntry) :
  currentEntry st = Some cur ->
  lineNumber (handleLine line st) = (lineNumber st + 1)%Z
  /\ if isEntryStart line && negb (isContinuationLine line)
     then Opens line cur st (handleLine line st)
     else Appends line cur st (handleLine line st).
Proof.
  intros E. destruct st as [es c bp lp n lo dec]. simpl in E. subst c.
  unfold handleLine, finalizeEntry, Opens, Appends, closedEntry. simpl.
  destruct (isEntryStart line && negb (isContinuationLine line)); simpl;
    auto.
Qed.

Lemma opens_not_appends (line : list N) (cur : CurrentEntry)
  (st st' : Parser) :
  Opens line cur st st' -> Appends line cur st st' -> False.
Proof.
  intros [H1 _] [H2 _]. rewrite H2 in H1.
  apply (f_equal (@length LogEntry)) in H1.
  rewrite length_app in H1. simpl in H1. lia.
Qed.

Lemma start_and_not_continuation (line : list N) :
  isEntryStart line && negb (isContinuationLine line) = true
  <-> EntryStart line /\ ~ Continuation line.
Proof.
  rewrite andb_true_iff, negb_true_iff, isEntryStart_iff.
  rewrite <- isContinuationLine_iff.
  destruct (isContinuationLine line); intuition discriminate.
Qed.

(** C2, as amended.  With an entry open, a line closes it and opens an
    entry of its own exactly when it is an entry start and not a
    continuation, and is appended to the open entry exactly when it is
    not; the stack frame and the traceback frame are told by [at] and
    [File] followed by any white space.  A line with a severity token
    after leading white space is appended; with no entry open, a line
    starts one whatever it holds. *)
Theorem line_opens_or_appends
  (line : jsString) (st : Parser) (cur : CurrentEntry) :
  currentEntry st = Some cur ->
  (Opens line cur st (handleLine line st)
   <-> EntryStart line /\ ~ Continuation line)
  /\ (Appends line cur st (handleLine line st)
      <-> ~ (EntryStart line /\ ~ Continuation line))
  /\ Appends (str "  ERROR retrying") cur st
       (handleLine (str "  ERROR retrying") st)
  /\ (forall st0, currentEntry st0 = None ->
        entries (handleLine line st0) = entries st0
        /\ currentEntry (handleLine line st0)
           = Some {| startLine := (lineNumber st0 + 1)%Z;
                     lines := [line] |}).
Proof.
  intros E. destruct (handleLine_cases line st cur E) as (_ & H).
  pose proof (start_and_not_continuation line) as Hb.
  split; [|split; [|split]].
  - destruct (isEntryStart line && negb (isContinuationLine line)).
    + split; [intros _; now apply Hb|auto].
    + split; [intros Ho; exfalso; eapply opens_not_appends; eauto|].
      intros Hc. apply Hb in Hc. discriminate.
  - destruct (isEntryStart line && negb (isContinuationLine line)).
    + split; [intros Ha; exfalso; eapply opens_not_appends; eauto|].
      intros Hn. exfalso. apply Hn. now apply Hb.
    + split; [|auto]. intros _ Hc. apply Hb in Hc. discriminate.
  - destruct (handleLine_cases (str "  ERROR retrying") st cur E) as (_ & H').
    exact H'.
  - intros st0 E0. destruct st0 as [es c bp lp n lo dec]. simpl in E0.
    subst c. split; reflexivity.
Qed.

(** With the entry of a first line open, a second line with a timestamp
    and no leading white space opens an entry. *)
Lemma line_opens_or_appends_witness :
  Opens scenarioLine3
    {| startLine := 1; lines := [scenarioLine1] |}
    (handleLine scenarioLine1 initial)
    (handleLine scenarioLine3 (handleLine scenarioLine1 initial))
  <-> EntryStart scenarioLine3 /\ ~ Continuation scenarioLine3.
Proof.
  exact (proj1 (line_opens_or_appends scenarioLine3
                  (handleLine scenarioLine1 initial)
                  {| startLine := 1; lines := [scenarioLine1] |}
                  eq_refl)).
Defined.

(** C2, as worded, fails: [at], a tab, then a severity token.  The line is
    an entry start as the claim words it and no continuation as the claim
    words it (its trimmed form does not start with [at] and a space), yet
    it does not open an entry: it is appended to the open one. *)
Lemma at_tab_line_is_appended :
  let line := str "at" ++ [9%N] ++ str "ERROR x" in
  let cur := {| startLine := 1; lines := [str "INFO start"] |} in
  let st := handleLine (str "INFO start") initial in
  currentEntry st = Some cur
  /\ wordedEntryStart line = true
  /\ wordedContinuation line = false
  /\ Appends line cur st (handleLine line st)
  /\ ~ (Opens line cur st (handleLine line st)
        <-> wordedEntryStart line = true /\ wordedContinuation line = false).
Proof.
  cbv zeta. split; [reflexivity|]. split; [vm_compute; reflexivity|].
  split; [vm_compute; reflexivity|]. split; [split; reflexivity|].
  intros [_ H]. assert (Ho := H (conj eq_refl eq_refl)).
  destruct Ho as [Ho _]. vm_compute in Ho. discriminate.
Qed.

End Claims2.

(* ================================================================== *)
(** * The claims: failures, progress and the upload guard              *)
(* ================================================================== *)

Section Claims3.
Import JS Encoding Worker Meaning Denotation Classification Samples.

Lemma report_fields (interval : Z) (file : File) (st : Parser) :
  bytesProcessed (fst (report interval file st)) = bytesProcessed st
  /\ sameGrouping (fst (report interval file st)) st.
Proof.
  unfold report. destruct (progressDue interval file st); simpl;
    repeat split.
Qed.

(** The reads of the loop are at the multiples of the slice size below
    the size of the file, in order, up to the first that rejects; the
    messages posted are those of the rounds before it. *)
Lemma readLoop_reads (sliceSize interval : Z) (file : File) :
  (0 < sliceSize)%Z ->
  match readLoop sliceSize interval (length (contents file)) file initial []
  with
  | Exited st posted =>
      ReadsSucceed sliceSize file
      /\ Round sliceSize interval file (contents file) st posted
  | Rejected e posted =>
      exists k B st,
        FailedRead sliceSize file k e
        /\ Z.of_nat (length B) = (k * sliceSize)%Z
        /\ Round sliceSize interval file B st posted
  | Unfinished => False
  end.
Proof.
  intros Hs.
  set (Inv := fun (B : list byte) (st : Parser) (posted : list Message) =>
         bytesProcessed st = Z.of_nat (length B)
         /\ ((exists k, (0 <= k)%Z /\ Z.of_nat (length B) = (k * sliceSize)%Z)
             \/ length B = length (contents file))
         /\ (forall k, (0 <= k)%Z -> (k * sliceSize < Z.of_nat (length B))%Z ->
                       rejects file (k * sliceSize)%Z = None)
         /\ Round sliceSize interval file B st posted).
  pose proof (readLoop_invariant sliceSize interval file Hs Inv) as H.
  specialize (H ltac:(now intros B st posted (P & _))).
  assert (Hstep : forall B R st posted,
             contents file = B ++ R -> R <> [] -> Inv B st posted ->
             rejects file (Z.of_nat (length B)) = None ->
             let c := firstn (Z.to_nat sliceSize) R in
             let r := report interval file (consume c st) in
             Inv (B ++ c) (fst r) (posted ++ snd r)).
  { intros B R st posted E Hne (P & M & N & HR) Hr c r. subst r. unfold Inv.
    assert (HR' : Round sliceSize interval file (B ++ c)
                    (fst (report interval file (consume c st)))
                    (posted ++ snd (report interval file (consume c st)))).
    { subst c. rewrite <- (slice_next sliceSize file B R E).
      apply RoundNext; auto.
      rewrite E, length_app. destruct R; [contradiction|simpl; lia]. }
    destruct (report_fields interval file (consume c st)) as (-> & _).
    destruct (consume_fields c st) as (_ & _ & _ & -> & _).
    assert (HL : (0 < length R)%nat) by (destruct R; [contradiction|simpl; lia]).
    assert (HB : length B <> length (contents file))
      by (rewrite E, length_app; lia).
    destruct M as [(k & Hk & Mk)|M]; [|contradiction].
    assert (Hc : length c = Nat.min (Z.to_nat sliceSize) (length R))
      by (subst c; apply length_firstn).
    split; [rewrite P, length_app; lia|]. split; [|split; [|exact HR']].
    - destruct (Nat.le_gt_cases (Z.to_nat sliceSize) (length R)) as [Hle|Hgt].
      + left. exists (k + 1)%Z. split; [lia|].
        rewrite length_app, Hc. lia.
      + right. rewrite E, !length_app, Hc. lia.
    - intros k' Hk' Hlt. rewrite length_app in Hlt.
      destruct (Z.lt_ge_cases (k' * sliceSize) (Z.of_nat (length B)))
        as [Hb|Hb]; [now apply N|].
      assert (k' = k) by nia. subst k'. now rewrite <- Mk. }
  assert (H0 : Inv [] initial []).
  { split; [reflexivity|]. split; [|split; [|constructor]].
    - left. exists 0%Z. simpl. lia.
    - intros k Hk Hlt. simpl in Hlt. nia. }
  specialize (H Hstep (length (contents file)) [] (contents file) initial []
                eq_refl (Nat.le_refl _) H0).
  destruct (readLoop sliceSize interval (length (contents file)) file
              initial []) as [e posted|st posted|]; auto.
  - destruct H as (B' & R' & st' & E & Hne & (P & M & N & HR) & Hr).
    assert (HB : length B' <> length (contents file)).
    { rewrite E, length_app. destruct R'; [contradiction|simpl; lia]. }
    destruct M as [(k & Hk & Mk)|M]; [|contradiction].
    exists k, B', st'. split; [|split; [exact Mk|exact HR]].
    split; [exact Hk|]. split; [|split].
    + unfold size. rewrite <- Mk, E, length_app.
      destruct R'; [contradiction|simpl length; lia].
    + now rewrite <- Mk.
    + intros j Hj. apply N; [lia|]. rewrite Mk. nia.
  - destruct H as (_ & _ & N & HR). split; [|exact HR].
    intros k Hk Hlt. now apply N.
Qed.

(** The read that stops a parse is one read, with one error. *)
Lemma FailedRead_unique (sliceSize : Z) (file : File) (k k' : Z)
  (e e' : Thrown) :
  FailedRead sliceSize file k e -> FailedRead sliceSize file k' e' ->
  k = k' /\ e = e'.
Proof.
  intros (H1 & H2 & H3 & H4) (H1' & H2' & H3' & H4').
  assert (k = k').
  { destruct (Z.lt_trichotomy k k') as [Hlt|[Heq|Hgt]]; [|exact Heq|].
    - rewrite (H4' k ltac:(lia)) in H3. discriminate.
    - rewrite (H4 k' ltac:(lia)) in H3'. discriminate. }
  subst k'. split; [reflexivity|]. congruence.
Qed.

(** What the worker posts for a parse request: the progress messages of
    the rounds whose reads succeed, then [ERROR] with the cause of the
    read that stopped the parse, or, when every read succeeds, [DONE]
    with the entries of the whole file. *)
Lemma onmessage_settles (clock : Clock) (file : File) :
  exists posted,
    Forall isProgress posted
    /\ ((exists k e B st,
            FailedRead SLICE_SIZE file k e
            /\ Z.of_nat (length B) = (k * SLICE_SIZE)%Z
            /\ Round SLICE_SIZE PROGRESS_INTERVAL_BYTES file B st posted
            /\ onmessage clock (parseRequest file)
               = posted ++ [ERROR (causeOf e)])
        \/ (ReadsSucceed SLICE_SIZE file
            /\ onmessage clock (parseRequest file)
               = posted ++ [doneOf clock file])).
Proof.
  pose proof (readLoop_outcome SLICE_SIZE PROGRESS_INTERVAL_BYTES file
                SLICE_SIZE_pos) as H1.
  pose proof (readLoop_reads SLICE_SIZE PROGRESS_INTERVAL_BYTES file
                SLICE_SIZE_pos) as H2.
  pose proof (parseFileWith_outcome SLICE_SIZE PROGRESS_INTERVAL_BYTES clock
                file SLICE_SIZE_pos) as H3.
  unfold onmessage, parseRequest, parseFile. simpl.
  unfold parseFileWith in *.
  destruct (readLoop SLICE_SIZE PROGRESS_INTERVAL_BYTES
              (length (contents file)) file initial [])
    as [e posted|st posted|]; [| |contradiction].
  - destruct H1 as (HP & _). destruct H2 as (k & B & st & HF & HB & HR).
    exists posted. split; [exact HP|]. left. exists k, e, B, st.
    split; [exact HF|]. split; [exact HB|]. split; [exact HR|].
    now destruct e.
  - destruct H1 as (HC & HP). destruct H2 as (HN & _).
    destruct H3 as (posted' & _ & [(e & o & _ & E)|E]); [discriminate|].
    injection E as E. apply app_inj_tail in E. destruct E as (_ & E).
    exists posted. split; [exact HP|]. right. split; [exact HN|].
    now rewrite <- E.
Qed.

(** C5, as amended.  One event gives progress messages and then exactly
    one last message, never two: [DONE] with the entries of the whole
    file, or [ERROR] with the cause of the read that stopped the parse.
    That read is the first read of the loop that rejects; the cause is
    the message of what it threw, the fixed text when that is no error
    object; the progress messages before it are those of the rounds
    whose reads succeeded, and no message carries entries.  So the last
    message is [ERROR] exactly when one of the reads of the loop
    rejects.  Bytes that are no UTF-8 are no failure: when no read of
    the loop rejects the last message is [DONE], whatever the bytes. *)
Theorem one_last_message (clock : Clock) (file : File) :
  exists posted last,
    onmessage clock (parseRequest file) = posted ++ [last]
    /\ Forall isProgress posted
    /\ ((last = doneOf clock file /\ ReadsSucceed SLICE_SIZE file)
        \/ exists k e B st,
             FailedRead SLICE_SIZE file k e
             /\ last = ERROR (causeOf e)
             /\ Z.of_nat (length B) = (k * SLICE_SIZE)%Z
             /\ Round SLICE_SIZE PROGRESS_INTERVAL_BYTES file B st posted)
    /\ (forall k e, FailedRead SLICE_SIZE file k e ->
                    last = ERROR (causeOf e))
    /\ ((exists cause, last = ERROR cause)
        <-> exists k, (0 <= k)%Z /\ (k * SLICE_SIZE < size file)%Z
                      /\ rejects file (k * SLICE_SIZE)%Z <> None)
    /\ (ReadsSucceed SLICE_SIZE file -> last = doneOf clock file).
Proof.
  destruct (onmessage_settles clock file)
    as (posted & HP & [(k & e & B & st & HF & HB & HR & E)|(HN & E)]).
  - exists posted, (ERROR (causeOf e)). split; [exact E|].
    split; [exact HP|]. split; [right; exists k, e, B, st; auto|].
    split; [|split].
    + intros k' e' HF'.
      destruct (FailedRead_unique _ _ _ _ _ _ HF HF') as (_ & <-).
      reflexivity.
    + split; [intros _|eauto]. destruct HF as (F1 & F2 & F3 & _).
      exists k. rewrite F3. repeat split; auto. discriminate.
    + intros HN. destruct HF as (F1 & F2 & F3 & _).
      rewrite (HN k F1 F2) in F3. discriminate.
  - exists posted, (doneOf clock file). split; [exact E|].
    split; [exact HP|]. split; [now left|]. split; [|split].
    + intros k e (F1 & F2 & F3 & _). rewrite (HN k F1 F2) in F3.
      discriminate.
    + split.
      * intros (cause & Hc). discriminate.
      * intros (k & Hk & Hlt & Hr). exfalso. apply Hr. now apply HN.
    + auto.
Qed.

(** A file whose second read rejects: the last message is the error of
    that read, not that of a read that is never made. *)
Lemma one_last_message_witness :
  let file :=
    {| contents := repeat x61 (Z.to_nat SLICE_SIZE) ++ scenario;
       rejects := fun o =>
         if (o =? 0)%Z then None
         else if (o =? SLICE_SIZE)%Z then Some (ErrorObject "NotReadable")
         else Some (ErrorObject "never read") |} in
  exists posted last,
    onmessage {| startTime := 0%Q; doneTime := 1%Q |} (parseRequest file)
    = posted ++ [last]
    /\ Forall isProgress posted
    /\ last = ERROR "NotReadable".
Proof.
  intros file.
  destruct (one_last_message {| startTime := 0%Q; doneTime := 1%Q |} file)
    as (posted & last & E & HP & _ & Hcause & _).
  exists posted, last. split; [exact E|]. split; [exact HP|].
  apply (Hcause 1%Z (ErrorObject "NotReadable")).
  split; [lia|]. split; [|split].
  - unfold size, file. cbn [contents]. rewrite length_app, repeat_length.
    unfold scenario, bytesOf. rewrite length_map. vm_compute. reflexivity.
  - reflexivity.
  - intros j Hj. replace j with 0%Z by lia. reflexivity.
Defined.

(** C5, as worded, fails: one byte that is no UTF-8.  The handler reports
    an error on it, the byte stream is no text, yet the parse is not
    aborted: it posts [DONE] with one entry, the replacement character,
    and no [ERROR]. *)
Lemma malformed_bytes_parse_to_done :
  let out := onmessage {| startTime := 0%Q; doneTime := 0%Q |}
               (parseRequest (plain [xff])) in
  utf8Malformed utf8Initial [xff] = true
  /\ out
     = [PROGRESS {| Progress.bytesProcessed := 1; Progress.totalBytes := 1;
                    Progress.percent := 1%Q; Progress.lines := 0;
                    Progress.entries := 0 |};
        DONE [{| lineStart := 1; lineEnd := 1; text := [REPLACEMENT];
                 severity := None; timestamp := None |}]
             {| Stats.bytesProcessed := 1; Stats.totalBytes := 1;
                Stats.lines := 1; Stats.entries := 1;
                Stats.durationMs := (0 - 0)%Q |}]
  /\ ~ (exists cause, In (ERROR cause) out).
Proof.
  cbv zeta. split; [vm_compute; reflexivity|].
  split; [vm_compute; reflexivity|].
  intros (cause & Hin). vm_compute in Hin.
  destruct Hin as [H|[H|[]]]; discriminate.
Qed.

(* ------------------------------------------------------------------ *)
(** ** Progress *)

Lemma lastReported_snoc (posted : list Message) (p : Progress.payload) :
  lastReported (posted ++ [PROGRESS p]) = Progress.bytesProcessed p.
Proof. unfold lastReported. now rewrite fold_left_app. Qed.

Lemma Round_facts (sliceSize interval : Z) (file : File)
  (B : list byte) (st : Parser) (posted : list Message) :
  (0 < sliceSize)%Z ->
  Round sliceSize interval file B st posted ->
  bytesProcessed st = Z.of_nat (length B)
  /\ lastProgressAt st = lastReported posted
  /\ Consumed B st
  /\ exists R, contents file = B ++ R.
Proof.
  intros Hs HR. induction HR as [|B st posted HR IH Hlen Hr c r].
  - repeat split. now exists (contents file).
  - destruct IH as (P & L & HC & R & E).
    assert (Hc : c = firstn (Z.to_nat sliceSize) R)
      by (subst c; now apply slice_next).
    destruct (consume_fields c st) as (_ & _ & _ & P' & L').
    split; [|split; [|split]].
    + subst r. destruct (report_fields interval file (consume c st))
        as (-> & _). rewrite P', P, length_app. lia.
    + subst r. unfold report.
      destruct (progressDue interval file (consume c st)); simpl.
      * unfold progressMessage. now rewrite lastReported_snoc.
      * now rewrite app_nil_r, L'.
    + subst r. apply consumed_report. now apply consumed_step.
    + exists (skipn (Z.to_nat sliceSize) R).
      now rewrite <- app_assoc, Hc, firstn_skipn.
Qed.

Lemma feed_lineNumber (ls : list jsString) :
  Forall LFfree ls -> lineNumber (feed ls initial) = Z.of_nat (length ls).
Proof.
  intros H.
  now destruct (feed_Grouping ls [] initial initial_Grouping H) as (Hn & _).
Qed.

Lemma percent_range (b total : Z) :
  (0 <= b)%Z -> (0 < total)%Z ->
  (0 <= Qmin 1 (inject_Z b / inject_Z total))%Q
  /\ (Qmin 1 (inject_Z b / inject_Z total) <= 1)%Q.
Proof.
  intros Hb Ht. split; [|apply Q.le_min_l].
  apply Q.min_glb; [discriminate|].
  apply Qle_shift_div_l.
  - change 0%Q with (inject_Z 0). rewrite <- Zlt_Qlt. exact Ht.
  - rewrite Qmult_0_l. change 0%Q with (inject_Z 0). now rewrite <- Zle_Qle.
Qed.

(** The rule of one round, for any slice size and interval. *)
Lemma round_report (sliceSize interval : Z) (file : File)
  (B : list byte) (st : Parser) (posted : list Message) :
  (0 < sliceSize)%Z ->
  Round sliceSize interval file B st posted ->
  (length B < length (contents file))%nat ->
  let c := slice file (Z.of_nat (length B))
             (Z.of_nat (length B) + sliceSize) in
  let b := Z.of_nat (length (B ++ c)) in
  let ls := completeLines (decodedSoFar (B ++ c)) in
  let st' := consume c st in
  snd (report interval file st')
  = (if ((interval <=? b - lastReported posted)
         || (size file <=? b))%Z
     then [PROGRESS
             {| Progress.bytesProcessed := b;
                Progress.totalBytes := size file;
                Progress.percent :=
                  Qmin 1 (inject_Z b / inject_Z (size file))%Q;
                Progress.lines := Z.of_nat (length ls);
                Progress.entries := Z.of_nat (length (entries st')) |}]
     else [])
  /\ ((size file <=? b)%Z = true <-> B ++ c = contents file)
  /\ (0 <= Qmin 1 (inject_Z b / inject_Z (size file)))%Q
  /\ (Qmin 1 (inject_Z b / inject_Z (size file)) <= 1)%Q
  /\ entries st' = entries (feed ls initial)
  /\ (ls <> [] ->
      exists cur, currentEntry st' = Some cur /\ lines cur <> []
                  /\ concat (map linesOf (entries st')) ++ lines cur = ls).
Proof.
  intros Hs HR Hlen c b ls st'.
  destruct (Round_facts _ _ _ _ _ _ Hs HR) as (P & L & HC & R & E).
  assert (Hc : c = firstn (Z.to_nat sliceSize) R)
    by (subst c; now apply slice_next).
  pose proof (consumed_step B c st HC) as HC'. fold st' in HC'.
  destruct HC' as ((G1 & G2 & G3) & _ & _ & P').
  fold (decodedSoFar (B ++ c)) in G1, G2, G3. fold ls in G1, G2, G3.
  destruct (consume_fields c st) as (_ & _ & _ & _ & L').
  fold st' in L'.
  assert (Hfree : Forall LFfree ls) by apply completeLines_free.
  assert (Hsize : (0 < size file)%Z) by (unfold size; lia).
  split; [|split; [|split; [|split; [|split]]]].
  - unfold report, progressDue, progressMessage.
    rewrite P', L', L, G3, feed_lineNumber by assumption.
    fold b. destruct ((interval <=? b - lastReported posted)
                      || (size file <=? b))%Z; reflexivity.
  - rewrite Z.leb_le. unfold size, b. rewrite E.
    assert (HcR : (length c <= length R)%nat)
      by (rewrite Hc, length_firstn; lia).
    split.
    + intros H. rewrite !length_app in H.
      assert (Hl : length c = length R) by lia.
      f_equal. rewrite Hc in *. rewrite length_firstn in Hl.
      apply firstn_all2. lia.
    + intros H. rewrite H. lia.
  - apply percent_range; [unfold b; lia|assumption].
  - apply percent_range; [unfold b; lia|assumption].
  - exact G1.
  - intros Hne.
    destruct (feed_Grouping ls [] initial initial_Grouping Hfree)
      as (_ & HG). simpl in HG. rewrite <- G2, <- G1 in HG.
    destruct (currentEntry st') as [cur|].
    + destruct HG as (H1 & _ & _ & _ & H5). now exists cur.
    + destruct HG as (H1 & _). contradiction.
Qed.

(** With slices of 256 KiB and an interval of 1 MiB, the reports so far
    are at the whole MiB consumed, until the last chunk adds the size. *)
Lemma Round_offsets (file : File) (B : list byte) (st : Parser)
  (posted : list Message) :
  Round SLICE_SIZE PROGRESS_INTERVAL_BYTES file B st posted ->
  let b := Z.of_nat (length B) in
  ((b < size file)%Z
   /\ (exists k, (0 <= k)%Z /\ b = (k * SLICE_SIZE)%Z)
   /\ lastReported posted = (b / PROGRESS_INTERVAL_BYTES * PROGRESS_INTERVAL_BYTES)%Z
   /\ map progressBytes posted
      = map (fun k => (Z.of_nat k * PROGRESS_INTERVAL_BYTES)%Z)
          (seq 1 (Z.to_nat (b / PROGRESS_INTERVAL_BYTES))))
  \/ (b = size file /\ map progressBytes posted = reportOffsets (size file)).
Proof.
  intros HR. induction HR as [|B st posted HR IH Hlen Hr c r]; cbv zeta.
  - destruct (Z.eq_dec (size file) 0) as [E|E].
    + right. simpl. rewrite E. split; reflexivity.
    + left. simpl. unfold size in *. split; [lia|]. split.
      * exists 0%Z. split; reflexivity.
      * split; reflexivity.
  - cbv zeta in IH.
    destruct IH as [(Hb & (k & Hk & Ek) & HL & HM)|[Hb _]];
      [|unfold size in Hb; lia].
    destruct (round_report SLICE_SIZE PROGRESS_INTERVAL_BYTES file B st
                posted SLICE_SIZE_pos HR Hlen) as (Hrep & Hfin & _).
    fold c in Hrep, Hfin. subst r. rewrite Hrep, HL. clear Hrep.
    destruct (Round_facts _ _ _ _ _ _ SLICE_SIZE_pos HR)
      as (_ & _ & _ & R & E).
    assert (Hc : c = firstn (Z.to_nat SLICE_SIZE) R)
      by (subst c; now apply slice_next).
    assert (Hlc : length c = Nat.min (Z.to_nat SLICE_SIZE) (length R))
      by (rewrite Hc; apply length_firstn).
    assert (Hsz : size file = (Z.of_nat (length B) + Z.of_nat (length R))%Z)
      by (unfold size; rewrite E, length_app; lia).
    set (b := Z.of_nat (length B)) in *.
    set (b' := Z.of_nat (length (B ++ c))) in *.
    assert (Hb' : b' = Z.min (b + SLICE_SIZE) (size file)).
    { unfold b', b. rewrite length_app, Hlc, Hsz. unfold SLICE_SIZE. lia. }
    change PROGRESS_INTERVAL_BYTES with 1048576%Z in *.
    change SLICE_SIZE with 262144%Z in *.
    pose proof (Z.div_mod k 4 ltac:(lia)) as Hk4.
    pose proof (Z.mod_pos_bound k 4 ltac:(lia)) as Hr4.
    set (q := (k / 4)%Z) in *. set (m := (k mod 4)%Z) in *.
    assert (Hq : (b / 1048576 = q)%Z).
    { symmetry. apply Z.div_unique with (r := (m * 262144)%Z); lia. }
    assert (Hq0 : (0 <= q)%Z) by (rewrite <- Hq; apply Z.div_pos; lia).
    rewrite Hq in *.
    destruct (Z.leb_spec (size file) b') as [Hlast|Hmore].
    + right. rewrite orb_true_r. split; [lia|].
      rewrite map_app, HM. simpl. unfold reportOffsets.
      destruct (Z.leb_spec (size file) 0); [lia|].
      change PROGRESS_INTERVAL_BYTES with 1048576%Z.
      replace ((size file - 1) / 1048576)%Z with q;
        [f_equal; f_equal; lia|].
      apply Z.div_unique
        with (r := (size file - 1 - 1048576 * q)%Z); lia.
    + left. rewrite orb_false_r. split; [lia|]. split.
      * exists (k + 1)%Z. lia.
      * destruct (Z.leb_spec 1048576
                    (b' - q * 1048576)) as [Hdue|Hnot].
        -- assert (Hdiv : (b' / 1048576 = q + 1)%Z).
           { symmetry. apply Z.div_unique with (r := 0%Z); lia. }
           split.
           ++ rewrite lastReported_snoc. simpl. rewrite Hdiv. lia.
           ++ rewrite map_app, HM, Hdiv. simpl.
              rewrite Z2Nat.inj_add by lia.
              rewrite Nat.add_comm. simpl Z.to_nat.
              rewrite seq_S, map_app. cbn [map]. f_equal. f_equal. lia.
        -- assert (Hdiv : (b' / 1048576 = q)%Z).
           { symmetry.
             apply Z.div_unique
               with (r := ((m + 1) * 262144)%Z); lia. }
           rewrite app_nil_r, Hdiv. split; [assumption|exact HM].
Qed.

Lemma parseFile_rounds (clock : Clock) (file : File) :
  (forall o, rejects file o = None) ->
  exists st posted,
    Round SLICE_SIZE PROGRESS_INTERVAL_BYTES file (contents file) st posted
    /\ parseFile clock file = (posted ++ [doneOf clock file], Fulfilled).
Proof.
  intros Hr.
  pose proof (readLoop_invariant SLICE_SIZE PROGRESS_INTERVAL_BYTES file
                SLICE_SIZE_pos
                (Round SLICE_SIZE PROGRESS_INTERVAL_BYTES file)) as H.
  specialize (H ltac:(intros B st posted HR;
                      now destruct (Round_facts _ _ _ _ _ _
                                      SLICE_SIZE_pos HR))).
  assert (Hstep : forall B R st posted,
             contents file = B ++ R -> R <> [] ->
             Round SLICE_SIZE PROGRESS_INTERVAL_BYTES file B st posted ->
             rejects file (Z.of_nat (length B)) = None ->
             let c := firstn (Z.to_nat SLICE_SIZE) R in
             let r := report PROGRESS_INTERVAL_BYTES file (consume c st) in
             Round SLICE_SIZE PROGRESS_INTERVAL_BYTES file
               (B ++ c) (fst r) (posted ++ snd r)).
  { intros B R st posted E Hne HR Hrej c r. subst c r.
    rewrite <- (slice_next SLICE_SIZE file B R E).
    apply RoundNext; auto.
    rewrite E, length_app. destruct R; [contradiction|simpl; lia]. }
  specialize (H Hstep (length (contents file)) [] (contents file) initial []
                eq_refl (Nat.le_refl _)
                (RoundFirst SLICE_SIZE PROGRESS_INTERVAL_BYTES file)).
  pose proof (parseFileWith_outcome SLICE_SIZE PROGRESS_INTERVAL_BYTES clock
                file SLICE_SIZE_pos) as H3.
  unfold parseFile, parseFileWith in *.
  destruct (readLoop SLICE_SIZE PROGRESS_INTERVAL_BYTES
              (length (contents file)) file initial [])
    as [e posted|st posted|]; [| |contradiction].
  - destruct H as (B' & R' & st' & _ & _ & _ & Hrej).
    rewrite Hr in Hrej. discriminate.
  - destruct H3 as (posted' & _ & [(e & o & _ & E)|E]); [discriminate|].
    injection E as E. apply app_inj_tail in E. destruct E as (_ & E).
    exists st, posted. split; [assumption|]. now rewrite E.
Qed.

(** C7.  In [parseFile], after each chunk a progress message is posted
    exactly when the bytes processed are at least 1 MiB beyond those of
    the last message posted or reach the size of the file, which is at
    the last chunk and only there.  The message has the bytes processed so
    far, the size, their quotient capped at 1, a fraction from 0 to 1,
    the number of complete lines so far and the number of entries closed
    so far; the entry still open is not among them.  The messages of the
    rounds are the progress messages [parseFile] posts: with slices of
    256 KiB, one at every whole MiB below the size and one at the size. *)
Theorem progress_after_each_chunk (clock : Clock) (file : File) :
  (forall B st posted,
      Round SLICE_SIZE PROGRESS_INTERVAL_BYTES file B st posted ->
      (length B < length (contents file))%nat ->
      let c := slice file (Z.of_nat (length B))
                 (Z.of_nat (length B) + SLICE_SIZE) in
      let b := Z.of_nat (length (B ++ c)) in
      let ls := completeLines (decodedSoFar (B ++ c)) in
      let st' := consume c st in
      snd (report PROGRESS_INTERVAL_BYTES file st')
      = (if ((1048576 <=? b - lastReported posted)
             || (size file <=? b))%Z
         then [PROGRESS
                 {| Progress.bytesProcessed := b;
                    Progress.totalBytes := size file;
                    Progress.percent :=
                      Qmin 1 (inject_Z b / inject_Z (size file))%Q;
                    Progress.lines := Z.of_nat (length ls);
                    Progress.entries := Z.of_nat (length (entries st')) |}]
         else [])
      /\ ((size file <=? b)%Z = true <-> B ++ c = contents file)
      /\ (0 <= Qmin 1 (inject_Z b / inject_Z (size file)))%Q
      /\ (Qmin 1 (inject_Z b / inject_Z (size file)) <= 1)%Q
      /\ entries st' = entries (feed ls initial)
      /\ (ls <> [] ->
          exists cur, currentEntry st' = Some cur /\ lines cur <> []
                      /\ concat (map linesOf (entries st')) ++ lines cur
                         = ls))
  /\ ((forall o, rejects file o = None) ->
      exists st posted,
        Round SLICE_SIZE PROGRESS_INTERVAL_BYTES file (contents file)
          st posted
        /\ parseFile clock file = (posted ++ [doneOf clock file], Fulfilled)
        /\ map progressBytes posted = reportOffsets (size file)).
Proof.
  split.
  - intros B st posted HR Hlen.
    exact (round_report SLICE_SIZE PROGRESS_INTERVAL_BYTES file B st posted
             SLICE_SIZE_pos HR Hlen).
  - intros Hr. destruct (parseFile_rounds clock file Hr)
      as (st & posted & HR & E).
    exists st, posted. split; [assumption|]. split; [assumption|].
    destruct (Round_offsets file _ st posted HR)
      as [(Hlt & _)|(_ & H)]; [unfold size in Hlt; lia|exact H].
Qed.

(** The one round of the scenario of two entries: its chunk is the last,
    three lines are complete, one entry is closed and one is open. *)
Lemma progress_after_each_chunk_witness :
  snd (report PROGRESS_INTERVAL_BYTES (plain scenario)
         (consume (slice (plain scenario) 0 (0 + SLICE_SIZE)) initial))
  = [PROGRESS {| Progress.bytesProcessed := 79; Progress.totalBytes := 79;
                 Progress.percent := 1%Q; Progress.lines := 3;
                 Progress.entries := 1 |}]
  /\ reportOffsets 79 = [79%Z]
  /\ reportOffsets 3145728 = [1048576%Z; 2097152%Z; 3145728%Z]
  /\ reportOffsets 3145729 = [1048576%Z; 2097152%Z; 3145728%Z; 3145729%Z].
Proof.
  destruct (proj1 (progress_after_each_chunk
                     {| startTime := 0%Q; doneTime := 0%Q |} (plain scenario))
              [] initial []
              (RoundFirst SLICE_SIZE PROGRESS_INTERVAL_BYTES (plain scenario))
              ltac:(vm_compute; lia)) as (E & _).
  split; [|repeat split].
  etransitivity; [exact E|]. vm_compute. reflexivity.
Defined.

(* ------------------------------------------------------------------ *)
(** ** The upload guard *)

(** C9.  On a page that has its worker, [handleFile] posts nothing to the
    worker for a file above 30 * 1024 * 1024 bytes and sets the error
    message instead, leaving the rest of the state; a file of that size
    or below is posted to the worker as a parse request, the state reset
    and the error cleared.  Without a worker nothing happens. *)
Theorem upload_guard (file : File) (st : Page.State)
  (posted : list ParseRequest) :
  Page.workerRef st = Some posted ->
  Page.MAX_FILE_SIZE = 31457280%Z
  /\ ((Page.MAX_FILE_SIZE < size file)%Z ->
      Page.workerRef (Page.handleFile file st) = Some posted
      /\ Page.error (Page.handleFile file st)
         = Some (Page.tooLarge (size file))
      /\ Page.isParsing (Page.handleFile file st) = Page.isParsing st
      /\ Page.entries (Page.handleFile file st) = Page.entries st)
  /\ ((size file <= Page.MAX_FILE_SIZE)%Z ->
      Page.workerRef (Page.handleFile file st)
      = Some (posted ++ [{| type := "parse"; file := Some file |}])
      /\ Page.error (Page.handleFile file st) = None
      /\ Page.isParsing (Page.handleFile file st) = true
      /\ Page.progress (Page.handleFile file st) = 0%Z
      /\ Page.entries (Page.handleFile file st) = [])
  /\ (forall st0, Page.workerRef st0 = None -> Page.handleFile file st0 = st0)
  /\ Page.tooLarge 31457281
     = "File too large. Maximum size is 30MB, got 30.0MB"%string
  /\ Page.tooLarge 41943040
     = "File too large. Maximum size is 30MB, got 40.0MB"%string.
Proof.
  intros E. unfold Page.handleFile. rewrite E.
  split; [reflexivity|]. split; [|split; [|split; [|split]]].
  - intros H. apply Z.ltb_lt in H. rewrite H. simpl. auto.
  - intros H. apply Z.ltb_ge in H. rewrite H. simpl. auto.
  - intros st0 E0. now rewrite E0.
  - vm_compute. reflexivity.
  - vm_compute. reflexivity.
Qed.

(** The scenario file on a page whose worker has had no message yet. *)
Lemma upload_guard_witness :
  Page.workerRef
    (Page.handleFile (plain scenario)
       {| Page.workerRef := Some []; Page.entries := [];
          Page.selectedEntries := []; Page.stats := None;
          Page.isParsing := false; Page.progress := 0;
          Page.error := Some "old"%string |})
  = Some [{| type := "parse"; file := Some (plain scenario) |}]
  /\ Page.error
       (Page.handleFile (plain scenario)
          {| Page.workerRef := Some []; Page.entries := [];
             Page.selectedEntries := []; Page.stats := None;
             Page.isParsing := false; Page.progress := 0;
             Page.error := Some "old"%string |})
     = None.
Proof.
  destruct (upload_guard (plain scenario)
              {| Page.workerRef := Some []; Page.entries := [];
                 Page.selectedEntries := []; Page.stats := None;
                 Page.isParsing := false; Page.progress := 0;
                 Page.error := Some "old"%string |} [] eq_refl)
    as (_ & _ & H & _).
  destruct (H ltac:(vm_compute; discriminate)) as (H1 & H2 & _).
  split; [exact H1|exact H2].
Defined.

End Claims3.

(* ================================================================== *)
(** * Further properties: the page                                     *)
(* ================================================================== *)

Section PageRun.
Import JS Encoding Worker Meaning Denotation Samples Builtins Shown.

Variable percentage : Q -> Z.

(** Progress messages change the progress bar only. *)
Lemma deliverAll_progress (msgs : list Message) :
  forall st, Forall isProgress msgs ->
  let st' := Home.deliverAll percentage msgs st in
  Page.workerRef st' = Page.workerRef st
  /\ Page.entries st' = Page.entries st
  /\ Page.selectedEntries st' = Page.selectedEntries st
  /\ Page.stats st' = Page.stats st
  /\ Page.isParsing st' = Page.isParsing st
  /\ Page.error st' = Page.error st.
Proof.
  induction msgs as [|m msgs IH]; intros st H; [repeat split|].
  inversion H as [|? ? Hm Hrest]; subst.
  destruct m as [p| |]; try contradiction.
  cbn [Home.deliverAll fold_left].
  destruct (IH (Home.onWorkerMessage percentage (PROGRESS p) st) Hrest)
    as (H1 & H2 & H3 & H4 & H5 & H6).
  unfold Home.deliverAll in *. cbv zeta.
  rewrite H1, H2, H3, H4, H5, H6. repeat split.
Qed.

Lemma deliverAll_app (a b : list Message) (st : Page.State) :
  Home.deliverAll percentage (a ++ b) st
  = Home.deliverAll percentage b (Home.deliverAll percentage a st).
Proof. unfold Home.deliverAll. apply fold_left_app. Qed.

(** The page once a run of progress messages and one last message have
    been handled. *)
Lemma deliverAll_done (ms : list Message) (es : list LogEntry)
  (s : Stats.stats) (st : Page.State) :
  Forall isProgress ms ->
  let st' := Home.deliverAll percentage (ms ++ [DONE es s]) st in
  Page.entries st' = es /\ Page.stats st' = Some s
  /\ Page.selectedEntries st' = Page.selectedEntries st
  /\ Page.isParsing st' = false /\ Page.progress st' = 100%Z
  /\ Page.error st' = Page.error st.
Proof.
  intros Hp. cbv zeta. rewrite deliverAll_app.
  destruct (deliverAll_progress ms st Hp) as (H1 & H2 & H3 & H4 & H5 & H6).
  cbv zeta in *. cbn. now rewrite H3, H6.
Qed.

Lemma deliverAll_error (ms : list Message) (cause : string)
  (st : Page.State) :
  Forall isProgress ms ->
  let st' := Home.deliverAll percentage (ms ++ [ERROR cause]) st in
  Page.entries st' = Page.entries st /\ Page.stats st' = Page.stats st
  /\ Page.selectedEntries st' = Page.selectedEntries st
  /\ Page.isParsing st' = false
  /\ Page.error st' = Some cause.
Proof.
  intros Hp. cbv zeta. rewrite deliverAll_app.
  destruct (deliverAll_progress ms st Hp) as (H1 & H2 & H3 & H4 & H5 & H6).
  cbv zeta in *. cbn. now rewrite H2, H3, H4.
Qed.

(** X1.  A page that has its worker, given a file of at most 30 MiB,
    posts one parse request; once the messages the worker posts for it
    have been handled in order, the page is no longer parsing, nothing
    is selected, and it shows either the whole result (the entries and
    the statistics of the [DONE] message, progress 100, no error) or the
    failure: no entries, no statistics, and as its error the cause of
    the read that stopped the parse, the first read of the loop that
    rejects.  It shows the whole result when no read of the loop
    rejects, and the failure as soon as one does.  Progress messages
    never bring entries. *)
Theorem page_shows_whole_parse_or_error (clock : Clock) (file : File)
  (st : Page.State) (posted : list ParseRequest) :
  Page.workerRef st = Some posted ->
  (size file <= Page.MAX_FILE_SIZE)%Z ->
  let started := Page.handleFile file st in
  let final :=
    Home.deliverAll percentage (onmessage clock (parseRequest file)) started in
  Page.workerRef started
  = Some (posted ++ [{| type := "parse"; file := Some file |}])
  /\ Page.isParsing final = false
  /\ Page.selectedEntries final = []
  /\ ((showsParse clock file final /\ ReadsSucceed SLICE_SIZE file)
      \/ exists k e, FailedRead SLICE_SIZE file k e /\ showsFailure e final)
  /\ (ReadsSucceed SLICE_SIZE file -> showsParse clock file final)
  /\ (forall k e, FailedRead SLICE_SIZE file k e -> showsFailure e final)
  /\ ((exists k, (0 <= k)%Z /\ (k * SLICE_SIZE < size file)%Z
                 /\ rejects file (k * SLICE_SIZE)%Z <> None) ->
      exists k e, FailedRead SLICE_SIZE file k e /\ showsFailure e final)
  /\ (forall msgs, Forall isProgress msgs ->
        Page.entries (Home.deliverAll percentage msgs started) = []).
Proof.
  intros Hw Hsize started final.
  assert (Es : started
               = {| Page.workerRef :=
                      Some (posted ++ [{| type := "parse"; file := Some file |}]);
                    Page.entries := []; Page.selectedEntries := [];
                    Page.stats := None; Page.isParsing := true;
                    Page.progress := 0; Page.error := None |}).
  { unfold started, Page.handleFile. rewrite Hw.
    now replace (Page.MAX_FILE_SIZE <? size file)%Z with false
      by (symmetry; apply Z.ltb_ge; lia). }
  clearbody started. subst started.
  split; [reflexivity|].
  assert (Hcases :
            Page.isParsing final = false /\ Page.selectedEntries final = []
            /\ ((showsParse clock file final /\ ReadsSucceed SLICE_SIZE file)
                \/ exists k e, FailedRead SLICE_SIZE file k e
                               /\ showsFailure e final)).
  { destruct (onmessage_settles clock file)
      as (ms & Hp & [(k & e & B & ps & HF & _ & _ & E)|(HN & E)]);
      unfold final; rewrite E.
    - match goal with |- context [Home.deliverAll _ _ ?s] =>
        destruct (deliverAll_error ms (causeOf e) s Hp)
          as (H1 & H2 & H3 & H4 & H5)
      end.
      cbv zeta in *. split; [exact H4|]. split; [exact H3|].
      right. exists k, e. split; [exact HF|].
      unfold showsFailure. now rewrite H1, H2, H5.
    - unfold doneOf, doneMessage.
      match goal with |- context [Home.deliverAll _ (_ ++ [DONE ?es ?s]) ?s0] =>
        destruct (deliverAll_done ms es s s0 Hp)
          as (H1 & H2 & H3 & H4 & H5 & H6);
        assert (Hs : showsParse clock file
                       (Home.deliverAll percentage (ms ++ [DONE es s]) s0))
      end.
      { cbv zeta in *. unfold showsParse. rewrite H1, H2, H5, H6.
        split; [|now split]. eexists. split; reflexivity. }
      cbv zeta in *. split; [exact H4|]. split; [exact H3|].
      left. split; [exact Hs|exact HN]. }
  destruct Hcases as (C1 & C2 & C3).
  split; [exact C1|]. split; [exact C2|].
  split; [exact C3|]. split; [|split; [|split]].
  - intros HN. destruct C3 as [(Hs & _)|(k & e & (F1 & F2 & F3 & _) & _)];
      [exact Hs|].
    rewrite (HN k F1 F2) in F3. discriminate.
  - intros k e HF.
    destruct C3 as [(_ & HN)|(k' & e' & HF' & Hs)].
    + destruct HF as (F1 & F2 & F3 & _).
      rewrite (HN k F1 F2) in F3. discriminate.
    + now destruct (FailedRead_unique _ _ _ _ _ _ HF' HF) as (_ & <-).
  - intros (k & Hk & Hlt & Hr).
    destruct C3 as [(_ & HN)|C3]; [|exact C3].
    exfalso. apply Hr. now apply HN.
  - intros msgs Hm.
    match goal with |- context [Home.deliverAll _ _ ?s] =>
      destruct (deliverAll_progress msgs s Hm) as (_ & H2 & _)
    end.
    cbv zeta in H2. now rewrite H2.
Qed.

End PageRun.

(** A page with an old error and an old selection, given a file whose
    second read rejects: it shows the error of that read, not that of a
    read that is never made. *)
Lemma page_shows_whole_parse_or_error_witness :
  let clock := {| Worker.startTime := 0%Q; Worker.doneTime := 1%Q |} in
  let st := {| Page.workerRef := Some []; Page.entries := [];
               Page.selectedEntries := [4%Z]; Page.stats := None;
               Page.isParsing := false; Page.progress := 0;
               Page.error := Some "old"%string |} in
  let file :=
    {| Worker.contents :=
         repeat x61 (Z.to_nat Worker.SLICE_SIZE) ++ Samples.scenario;
       Worker.rejects := fun o =>
         if (o =? 0)%Z then None
         else if (o =? Worker.SLICE_SIZE)%Z
              then Some (Worker.ErrorObject "NotReadable")
              else Some (Worker.ErrorObject "never read") |} in
  let final :=
    Home.deliverAll (fun q => ((200 * Qnum q + Z.pos (Qden q)) / (2 * Z.pos (Qden q)))%Z)
      (Worker.onmessage clock (Samples.parseRequest file))
      (Page.handleFile file st) in
  Page.isParsing final = false
  /\ Page.selectedEntries final = []
  /\ Page.entries final = []
  /\ Page.stats final = None
  /\ Page.error final = Some "NotReadable"%string.
Proof.
  intros clock st file final.
  destruct (page_shows_whole_parse_or_error
              (fun q => ((200 * Qnum q + Z.pos (Qden q)) / (2 * Z.pos (Qden q)))%Z) clock
              file st [] eq_refl ltac:(vm_compute; discriminate))
    as (_ & H1 & H2 & _ & _ & H3 & _).
  split; [exact H1|]. split; [exact H2|].
  apply (H3 1%Z (Worker.ErrorObject "NotReadable")).
  split; [lia|]. split; [|split].
  - vm_compute. reflexivity.
  - reflexivity.
  - intros j Hj. replace j with 0%Z by lia. reflexivity.
Defined.

(* ================================================================== *)
(** * Further properties: the selection                                *)
(* ================================================================== *)

Section Selection.
Import JS Worker Builtins Shown.

Lemma has_app (i : Z) (a b : list Z) : has i (a ++ b) = has i a || has i b.
Proof. apply existsb_app. Qed.

Lemma has_In (i : Z) (s : list Z) : has i s = true <-> In i s.
Proof.
  unfold has. rewrite existsb_exists. split.
  - intros (x & Hx & E). apply Z.eqb_eq in E. now subst.
  - intros H. exists i. split; [exact H|apply Z.eqb_refl].
Qed.

Lemma has_add (j i : Z) (s : list Z) :
  has j (add i s) = (j =? i)%Z || has j s.
Proof.
  unfold add. destruct (has i s) eqn:E.
  - destruct (j =? i)%Z eqn:J; [|reflexivity].
    apply Z.eqb_eq in J. subst. now rewrite E.
  - rewrite has_app. cbn. rewrite orb_false_r. apply orb_comm.
Qed.

Lemma has_delete (j i : Z) (s : list Z) :
  has j (delete i s) = negb (j =? i)%Z && has j s.
Proof.
  unfold has, delete.
  induction s as [|x s IH]; cbn [filter existsb];
    [now rewrite andb_false_r|].
  destruct (x =? i)%Z eqn:X; cbn [negb existsb]; rewrite IH.
  - apply Z.eqb_eq in X. subst x. destruct (j =? i)%Z; reflexivity.
  - destruct (j =? x)%Z eqn:J; [|reflexivity].
    apply Z.eqb_eq in J. subst x. now rewrite X.
Qed.

Lemma NoDup_add (i : Z) (s : list Z) : NoDup s -> NoDup (add i s).
Proof.
  intros H. unfold add. destruct (has i s) eqn:E; [exact H|].
  apply NoDup_app; [exact H|repeat constructor; intros []|].
  intros x Hx [<-|[]]. apply has_In in Hx. congruence.
Qed.

Lemma NoDup_delete (i : Z) (s : list Z) : NoDup s -> NoDup (delete i s).
Proof. apply NoDup_filter. Qed.

Lemma newSet_from (l : list Z) :
  forall acc, NoDup (acc ++ l) -> fold_left (fun s i => add i s) l acc = acc ++ l.
Proof.
  induction l as [|i l IH]; intros acc H; cbn [fold_left];
    [now rewrite app_nil_r|].
  assert (E : has i acc = false).
  { destruct (has i acc) eqn:E; [|reflexivity].
    apply has_In in E. apply NoDup_remove_2 in H.
    exfalso. apply H. apply in_or_app. now left. }
  unfold add. rewrite E.
  rewrite IH; rewrite <- app_assoc; [reflexivity|exact H].
Qed.

(** The copy of a set is the set. *)
Lemma newSet_id (s : list Z) : NoDup s -> newSet s = s.
Proof. intros H. unfold newSet. now rewrite newSet_from. Qed.

Lemma fold_add (l : list Z) :
  forall acc, NoDup acc ->
  NoDup (fold_left (fun s i => add i s) l acc)
  /\ forall j, has j (fold_left (fun s i => add i s) l acc)
               = has j acc || has j l.
Proof.
  induction l as [|i l IH]; intros acc H; cbn [fold_left].
  - split; [exact H|]. intros j. cbn. now rewrite orb_false_r.
  - destruct (IH (add i acc) (NoDup_add i acc H)) as (H1 & H2).
    split; [exact H1|]. intros j. rewrite H2, has_add.
    cbn [has existsb]. fold (has j l).
    now destruct (j =? i)%Z, (has j acc).
Qed.

Lemma newSet_spec (l : list Z) :
  NoDup (newSet l) /\ forall j, has j (newSet l) = has j l.
Proof.
  destruct (fold_add l [] (NoDup_nil Z)) as (H1 & H2). split; [exact H1|].
  intros j. unfold newSet. now rewrite H2.
Qed.

Lemma delete_length (i : Z) (s : list Z) :
  NoDup s ->
  Z.of_nat (length (delete i s))
  = (Z.of_nat (length s) - if has i s then 1 else 0)%Z.
Proof.
  induction 1 as [|x s Hx Hs IH]; [reflexivity|].
  cbn [delete filter has existsb length].
  destruct (x =? i)%Z eqn:X.
  - apply Z.eqb_eq in X. subst x. rewrite Z.eqb_refl. cbn [negb orb].
    fold (delete i s). rewrite IH.
    destruct (has i s) eqn:E; [apply has_In in E; contradiction|]. lia.
  - rewrite (Z.eqb_sym i x), X. cbn [negb orb length].
    fold (delete i s). fold (has i s). rewrite Nat2Z.inj_succ, IH. lia.
Qed.

Lemma delete_added (i : Z) (s : list Z) :
  has i s = false -> delete i (add i s) = s.
Proof.
  intros E. unfold add. rewrite E. unfold delete. rewrite filter_app. cbn.
  rewrite Z.eqb_refl. cbn. rewrite app_nil_r.
  apply forallb_filter_id. apply forallb_forall. intros x Hx.
  destruct (x =? i)%Z eqn:X; [|reflexivity].
  apply Z.eqb_eq in X. subst. apply has_In in Hx. congruence.
Qed.

(** X2.  Ticking or unticking a row changes whether that row is
    selected and nothing else: the other rows keep their state, the set
    keeps each index once, the count of selected rows moves by one
    exactly when the row's state changed, and ticking a row that was
    not selected and unticking it again gives the selection back. *)
Theorem toggling_changes_one_row (index : Z) (selected : bool)
  (st : Page.State) :
  NoDup (Page.selectedEntries st) ->
  let sel := Page.selectedEntries st in
  let st' := Home.handleSelectionChange index selected st in
  (forall j, has j (Page.selectedEntries st')
             = if (j =? index)%Z then selected else has j sel)
  /\ NoDup (Page.selectedEntries st')
  /\ setSize (Page.selectedEntries st')
     = (setSize sel
        + if has index sel then (if selected then 0 else -1)
          else (if selected then 1 else 0))%Z
  /\ Page.entries st' = Page.entries st
  /\ (has index sel = false ->
      Page.selectedEntries
        (Home.handleSelectionChange index false
           (Home.handleSelectionChange index true st)) = sel).
Proof.
  intros Hnd sel st'. unfold st', Home.handleSelectionChange.
  cbn [Home.setSelectedEntries Page.selectedEntries Page.entries].
  fold sel. rewrite (newSet_id sel Hnd).
  split; [|split; [|split; [|split]]].
  - intros j. destruct selected.
    + rewrite has_add. now destruct (j =? index)%Z.
    + rewrite has_delete. now destruct (j =? index)%Z.
  - destruct selected; [now apply NoDup_add|now apply NoDup_delete].
  - unfold setSize. destruct selected.
    + unfold add. destruct (has index sel); [lia|].
      rewrite length_app. cbn. lia.
    + rewrite (delete_length index sel Hnd). destruct (has index sel); lia.
  - reflexivity.
  - intros E. rewrite (newSet_id (add index sel) (NoDup_add index sel Hnd)).
    now apply delete_added.
Qed.

Lemma toggling_changes_one_row_witness :
  let st := {| Page.workerRef := None; Page.entries := [];
               Page.selectedEntries := [3%Z; 1%Z]; Page.stats := None;
               Page.isParsing := false; Page.progress := 0;
               Page.error := None |} in
  Page.selectedEntries (Home.handleSelectionChange 2 true st)
  = [3%Z; 1%Z; 2%Z]
  /\ setSize (Page.selectedEntries (Home.handleSelectionChange 3 false st))
     = 1%Z.
Proof.
  intros st.
  assert (H : NoDup (Page.selectedEntries st)).
  { repeat constructor; cbn; intuition discriminate. }
  split; [reflexivity|].
  destruct (toggling_changes_one_row 3 false st H) as (_ & _ & E & _).
  exact E.
Defined.

End Selection.

(* ================================================================== *)
(** * Further properties: the rows of the viewer                       *)
(* ================================================================== *)

Section Rows.
Import JS Worker Builtins Shown.

Lemma filterFrom_ext (A : Type) (p q : A -> Z -> bool) (l : list A) :
  forall k, (forall x idx, (k <= idx)%Z -> p x idx = q x idx) ->
  filterFrom p k l = filterFrom q k l.
Proof.
  induction l as [|x l IH]; intros k H; cbn; [reflexivity|].
  rewrite (H x k) by lia. rewrite (IH (k + 1)%Z); [reflexivity|].
  intros y idx Hi. apply H. lia.
Qed.

Lemma filterFrom_none (A : Type) (l : list A) :
  forall k, filterFrom (fun _ _ => false) k l = [].
Proof. induction l as [|x l IH]; intros k; cbn; auto. Qed.

Lemma filterFrom_subsequence (A : Type) (p : A -> Z -> bool) (l : list A) :
  forall k, Subsequence (filterFrom p k l) l.
Proof.
  induction l as [|x l IH]; intros k; cbn; [constructor|].
  destruct (p x k); constructor; apply IH.
Qed.

(** The elements kept by an indexed filter are those at the indices
    that pass, in order. *)
Lemma filterFrom_indices (A : Type) (p : Z -> bool) (l : list A) :
  forall k,
  map Some (filterFrom (fun _ idx => p idx) (Z.of_nat k) l)
  = map (fun i => nth_error l (i - k))
      (filter (fun i => p (Z.of_nat i)) (seq k (length l))).
Proof.
  induction l as [|x l IH]; intros k; [reflexivity|].
  cbn [filterFrom length seq filter].
  assert (E : map (fun i => nth_error (x :: l) (i - k))
                (filter (fun i => p (Z.of_nat i)) (seq (S k) (length l)))
              = map (fun i => nth_error l (i - S k))
                  (filter (fun i => p (Z.of_nat i)) (seq (S k) (length l)))).
  { apply map_ext_in. intros i Hi. apply filter_In in Hi.
    destruct Hi as (Hi & _). apply in_seq in Hi.
    replace (i - k)%nat with (S (i - S k)) by lia. reflexivity. }
  replace (Z.of_nat k + 1)%Z with (Z.of_nat (S k)) by lia.
  destruct (p (Z.of_nat k)); cbn [map]; rewrite IH, E;
    [rewrite Nat.sub_diag|]; reflexivity.
Qed.

(** X3.  The entries handed to the chat panel are the entries at the
    selected indices, each once and in the order of the file; a selected
    index that is no index of an entry adds nothing, and the order in
    which the rows were selected does not matter. *)
Theorem selected_objects_in_file_order (st : Page.State) :
  map Some (Home.selectedEntryObjects st)
  = map (nth_error (Page.entries st))
      (selectedIndices (Page.selectedEntries st) (length (Page.entries st)))
  /\ Subsequence (Home.selectedEntryObjects st) (Page.entries st)
  /\ (forall sel,
        (forall i, has i sel = has i (Page.selectedEntries st)) ->
        Home.selectedEntryObjects (Home.setSelectedEntries sel st)
        = Home.selectedEntryObjects st)
  /\ (Page.selectedEntries st = [] -> Home.selectedEntryObjects st = []).
Proof.
  unfold Home.selectedEntryObjects, selectedIndices.
  split; [|split; [|split]].
  - pose proof (filterFrom_indices LogEntry
                  (fun idx => has idx (Page.selectedEntries st))
                  (Page.entries st) 0) as E.
    change (Z.of_nat 0) with 0%Z in E. rewrite E.
    apply map_ext. intros i. now rewrite Nat.sub_0_r.
  - apply filterFrom_subsequence.
  - intros sel H. cbn. apply filterFrom_ext. intros _ idx _. apply H.
  - intros E. rewrite E. apply filterFrom_none.
Qed.

Lemma Subsequence_refl (A : Type) (l : list A) : Subsequence l l.
Proof. induction l; constructor; auto. Qed.

Lemma Subsequence_trans (A : Type) (m n : list A) :
  Subsequence m n -> forall l, Subsequence l m -> Subsequence l n.
Proof.
  induction 1 as [n|x m n H IH|y m n H IH]; intros l Hl.
  - inversion Hl; constructor.
  - inversion Hl; subst; constructor; auto.
  - constructor. auto.
Qed.

Lemma Subsequence_filter (A : Type) (p : A -> bool) (l : list A) :
  Subsequence (filter p l) l.
Proof.
  induction l as [|x l IH]; cbn; [constructor|].
  destruct (p x); constructor; exact IH.
Qed.

Lemma Subsequence_firstn (A : Type) (n : nat) (l : list A) :
  Subsequence (firstn n l) l.
Proof.
  revert l. induction n as [|n IH]; intros [|x l]; cbn; constructor; auto.
Qed.

Lemma Subsequence_nil (A : Type) (l : list A) : Subsequence l [] -> l = [].
Proof. now inversion 1. Qed.

Lemma Subsequence_In (A : Type) (l m : list A) :
  Subsequence l m -> forall x, In x l -> In x m.
Proof.
  induction 1 as [m|x l m H IH|y l m H IH]; intros z Hz; cbn in *.
  - contradiction.
  - destruct Hz as [->|Hz]; auto.
  - auto.
Qed.

Lemma Ascending_weaken (l : list Z) (a b : Z) :
  (a <= b)%Z -> Ascending b l -> Ascending a l.
Proof. destruct l as [|i l]; cbn; [auto|]. intros H (H1 & H2). split; [lia|auto]. Qed.

Lemma Ascending_above (l : list Z) :
  forall low i, Ascending low l -> In i l -> (low < i)%Z.
Proof.
  induction l as [|x l IH]; intros low i; cbn; [contradiction|].
  intros (H1 & H2) [->|Hi]; [exact H1|].
  specialize (IH x i H2 Hi). lia.
Qed.

Lemma Ascending_NoDup (l : list Z) : forall low, Ascending low l -> NoDup l.
Proof.
  induction l as [|x l IH]; intros low; cbn; [constructor|].
  intros (H1 & H2). constructor; [|eauto].
  intros Hx. pose proof (Ascending_above l x x H2 Hx). lia.
Qed.

(** Rows taken from the indexed entries keep their entries' places. *)
Lemma rows_of_indexed (entries : list LogEntry) :
  forall k rows,
  Subsequence rows
    (mapFrom (fun entry index => {| Viewer.entry := entry;
                                    Viewer.originalIndex := index |})
       k entries) ->
  Ascending (k - 1) (map Viewer.originalIndex rows)
  /\ Forall (fun x => exists n,
                Viewer.originalIndex x = (k + Z.of_nat n)%Z
                /\ nth_error entries n = Some (Viewer.entry x)) rows
  /\ filterFrom (fun _ idx => has idx (map Viewer.originalIndex rows))
       k entries
     = map Viewer.entry rows.
Proof.
  induction entries as [|e entries IH]; intros k rows H; cbn [mapFrom] in H.
  - apply Subsequence_nil in H. subst. repeat split; constructor.
  - inversion H as [m|x l m Hl|y l m Hl]; subst.
    + split; [exact I|]. split; [constructor|]. apply filterFrom_none.
    + destruct (IH (k + 1)%Z l Hl) as (A1 & A2 & A3).
      replace (k + 1 - 1)%Z with k in A1 by lia.
      split; [|split].
      * cbn. split; [lia|exact A1].
      * constructor.
        -- exists 0%nat. cbn. split; [lia|reflexivity].
        -- eapply Forall_impl; [|exact A2]. cbn. intros x (n & E1 & E2).
           exists (S n). split; [lia|exact E2].
      * cbn [filterFrom map Viewer.originalIndex Viewer.entry has existsb].
        rewrite Z.eqb_refl. cbn [orb]. f_equal. rewrite <- A3.
        apply filterFrom_ext. intros _ idx Hi.
        replace (idx =? k)%Z with false by (symmetry; apply Z.eqb_neq; lia).
        reflexivity.
    + destruct (IH (k + 1)%Z rows Hl) as (A1 & A2 & A3).
      replace (k + 1 - 1)%Z with k in A1 by lia.
      split; [|split].
      * apply (Ascending_weaken _ (k - 1) k); [lia|exact A1].
      * eapply Forall_impl; [|exact A2]. cbn. intros x (n & E1 & E2).
        exists (S n). split; [lia|exact E2].
      * cbn [filterFrom].
        destruct (has k (map Viewer.originalIndex rows)) eqn:E.
        -- apply has_In in E.
           pose proof (Ascending_above _ k k A1 E). lia.
        -- exact A3.
Qed.

Variable toLowerCase : jsString -> jsString.

Lemma filteredEntries_subsequence (st : Viewer.State)
  (entries : list LogEntry) :
  Subsequence (Viewer.filteredEntries toLowerCase st entries)
    (Viewer.indexedEntries entries).
Proof.
  unfold Viewer.filteredEntries.
  set (bySeverity := match Viewer.severityFilter st with
                     | Viewer.ALL => Viewer.indexedEntries entries
                     | _ => filter (Viewer.severityPasses
                                      (Viewer.severityFilter st))
                              (Viewer.indexedEntries entries)
                     end).
  assert (H : Subsequence bySeverity (Viewer.indexedEntries entries)).
  { unfold bySeverity. destruct (Viewer.severityFilter st);
      try apply Subsequence_filter. apply Subsequence_refl. }
  destruct (truthy (trim (Viewer.searchQuery st))); [|exact H].
  eapply Subsequence_trans; [exact H|apply Subsequence_filter].
Qed.

Lemma sliceTo_prefix (A : Type) (n : Z) (l : list A) :
  exists rest, l = sliceTo n l ++ rest.
Proof.
  unfold sliceTo. eexists. symmetry. apply firstn_skipn.
Qed.

Lemma sliceTo_all (A : Type) (n : Z) (l : list A) :
  (Z.of_nat (length l) <= n)%Z -> sliceTo n l = l.
Proof.
  intros H. unfold sliceTo.
  replace (n <? 0)%Z with false by (symmetry; apply Z.ltb_ge; lia).
  apply firstn_all2. lia.
Qed.

Lemma sliceTo_length (A : Type) (n : Z) (l : list A) :
  (0 <= n <= Z.of_nat (length l))%Z ->
  Z.of_nat (length (sliceTo n l)) = n.
Proof.
  intros H. unfold sliceTo.
  replace (n <? 0)%Z with false by (symmetry; apply Z.ltb_ge; lia).
  rewrite length_firstn. lia.
Qed.

(** X4.  Whatever the filter and the search, the rows of the viewer
    are entries of the file in the order of the file, each with the
    index it has among all entries, so that a row's checkbox and key
    stand for that entry; the rows shown are the first rows up to the
    display limit (which is never negative), all of them exactly when
    nothing more is offered, and after [handleShowAll] all of them. *)
Theorem rows_keep_their_places (st : Viewer.State)
  (entries : list LogEntry) :
  let rows := Viewer.filteredEntries toLowerCase st entries in
  let shown := Viewer.displayedEntries toLowerCase st entries in
  Subsequence (map Viewer.entry rows) entries
  /\ Forall (fun x =>
               (0 <= Viewer.originalIndex x)%Z
               /\ nth_error entries (Z.to_nat (Viewer.originalIndex x))
                  = Some (Viewer.entry x)) rows
  /\ Ascending (-1) (map Viewer.originalIndex rows)
  /\ (exists rest, rows = shown ++ rest)
  /\ (Viewer.hasMore toLowerCase st entries = false -> shown = rows)
  /\ ((0 <= Viewer.displayLimit st)%Z -> shown = rows ->
      Viewer.hasMore toLowerCase st entries = false)
  /\ (Viewer.hasMore toLowerCase st entries = true ->
      (0 <= Viewer.displayLimit st)%Z ->
      Z.of_nat (length shown) = Viewer.displayLimit st)
  /\ Viewer.displayedEntries toLowerCase
       (Viewer.handleShowAll toLowerCase st entries) entries = rows.
Proof.
  intros rows shown.
  pose proof (filteredEntries_subsequence st entries) as Hsub.
  fold rows in Hsub. unfold Viewer.indexedEntries in Hsub.
  destruct (rows_of_indexed entries 0 rows Hsub) as (A1 & A2 & A3).
  split; [|split; [|split; [|split; [|split; [|split; [|split]]]]]].
  - rewrite <- A3. apply filterFrom_subsequence.
  - eapply Forall_impl; [|exact A2]. cbn. intros x (n & E1 & E2).
    assert (E : Viewer.originalIndex x = Z.of_nat n) by lia.
    rewrite E. split; [lia|]. now rewrite Nat2Z.id.
  - exact A1.
  - apply sliceTo_prefix.
  - unfold Viewer.hasMore, shown, Viewer.displayedEntries. fold rows.
    rewrite Z.ltb_ge. apply sliceTo_all.
  - unfold Viewer.hasMore, shown, Viewer.displayedEntries. fold rows.
    rewrite Z.ltb_ge. intros Hpos E.
    apply (f_equal (@length _)) in E. unfold sliceTo in E.
    rewrite length_firstn in E.
    replace (Viewer.displayLimit st <? 0)%Z with false in E
      by (symmetry; apply Z.ltb_ge; lia).
    lia.
  - unfold Viewer.hasMore, shown, Viewer.displayedEntries. fold rows.
    rewrite Z.ltb_lt. intros H1 H2. apply sliceTo_length. lia.
  - unfold Viewer.displayedEntries, Viewer.handleShowAll.
    cbn [Viewer.displayLimit].
    assert (E : Viewer.filteredEntries toLowerCase
                  {| Viewer.severityFilter := Viewer.severityFilter st;
                     Viewer.searchQuery := Viewer.searchQuery st;
                     Viewer.displayLimit :=
                       Z.of_nat (length (Viewer.filteredEntries toLowerCase
                                           st entries)) |} entries
                = rows) by reflexivity.
    rewrite E. apply sliceTo_all. fold rows. lia.
Qed.

(** X5.  [Select visible] selects the rows shown and no others: the
    selection is the indices of the rows shown, which are as many, and
    the entries handed to the chat panel are the entries of those rows
    in their order. *)
Theorem select_visible_selects_the_rows_shown (st : Viewer.State)
  (page : Page.State) :
  let shown := Viewer.displayedEntries toLowerCase st (Page.entries page) in
  let page' := Viewer.handleSelectAllVisible toLowerCase st page in
  Page.selectedEntries page' = map Viewer.originalIndex shown
  /\ setSize (Page.selectedEntries page') = Z.of_nat (length shown)
  /\ Home.selectedEntryObjects page' = map Viewer.entry shown
  /\ Page.entries page' = Page.entries page.
Proof.
  intros shown page'.
  assert (Hsub : Subsequence shown
                   (mapFrom (fun entry index =>
                               {| Viewer.entry := entry;
                                  Viewer.originalIndex := index |})
                      0 (Page.entries page))).
  { eapply Subsequence_trans;
      [apply (filteredEntries_subsequence st (Page.entries page))|].
    unfold shown, Viewer.displayedEntries, sliceTo. apply Subsequence_firstn. }
  destruct (rows_of_indexed (Page.entries page) 0 shown Hsub)
    as (A1 & A2 & A3).
  assert (E : Page.selectedEntries page' = map Viewer.originalIndex shown).
  { unfold page', Viewer.handleSelectAllVisible, Home.handleSelectAll.
    cbn [Home.setSelectedEntries Page.selectedEntries]. fold shown.
    apply newSet_id. apply (Ascending_NoDup _ _ A1). }
  split; [exact E|]. split; [|split].
  - rewrite E. unfold setSize. now rewrite length_map.
  - unfold Home.selectedEntryObjects. rewrite E. exact A3.
  - reflexivity.
Qed.

End Rows.

(* ================================================================== *)
(** * Further properties: severities in the viewer                     *)
(* ================================================================== *)

Section Severities.
Import JS Encoding Worker Meaning Denotation Classification Builtins Shown.

Variable toLowerCase : jsString -> jsString.

(** The severity detected on a line is one of the seven tokens. *)
Lemma detectSeverity_token (line sev : list N) :
  detectSeverity line = Some sev ->
  exists tok, In tok severityTokens /\ sev = str tok.
Proof.
  intros H. destruct (detectSeverity_some line sev H)
    as (pre & w & post & tok & (_ & Hin & _) & E & _).
  now exists tok.
Qed.

Lemma severityPasses_parsed (line : list N) (x : Viewer.Indexed)
  (f : Viewer.SeverityFilter) :
  severity (Viewer.entry x) = detectSeverity line ->
  f <> Viewer.ALL ->
  Viewer.severityPasses f x = true
  <-> severity (Viewer.entry x) = Some (Viewer.filterText f)
      \/ (f = Viewer.WARN /\ severity (Viewer.entry x) = Some (str "WARNING")).
Proof.
  intros E Hf. unfold Viewer.severityPasses. rewrite E.
  destruct (detectSeverity line) as [sev|] eqn:D.
  - destruct (detectSeverity_token line sev D) as (tok & Hin & ->).
    cbn in Hin.
    destruct Hin as [<-|[<-|[<-|[<-|[<-|[<-|[<-|[]]]]]]]];
      destruct f; try congruence; cbv;
      (split; [intros H; try discriminate H; auto
              |intros [H|[H1 H2]]; try discriminate; auto]).
  - cbn. destruct f; cbn; split; try discriminate;
      intros [H|[_ H]]; discriminate.
Qed.

Lemma indexed_entry (es : list LogEntry) (x : Viewer.Indexed) :
  In x (Viewer.indexedEntries es) -> In (Viewer.entry x) es.
Proof.
  intros H. unfold Viewer.indexedEntries in H.
  destruct (rows_of_indexed es 0 _ (Subsequence_refl _ _)) as (_ & A & _).
  rewrite Forall_forall in A. destruct (A x H) as (n & _ & E).
  eapply nth_error_In. exact E.
Qed.

Lemma done_entries_classified (clock : Clock) (file : File)
  (es : list LogEntry) (stats : Stats.stats) :
  In (DONE es stats) (fst (parseFile clock file)) -> Classified es.
Proof.
  intros H. apply done_of_parseFile in H. unfold doneOf, doneMessage in H.
  injection H as -> _. cbn. apply grouped_Classified.
Qed.

(** X6.  On the entries of a parse, a severity filter other than ALL
    keeps the entries whose severity is the filter's name, and under
    WARN also those marked WARNING; with a blank search these are all
    the rows.  An entry marked FATAL, or with no severity, is a row under
    ALL only. *)
Theorem severity_filter_on_parsed_entries (clock : Clock) (file : File)
  (es : list LogEntry) (stats : Stats.stats) (st : Viewer.State) :
  In (DONE es stats) (fst (parseFile clock file)) ->
  let f := Viewer.severityFilter st in
  let named x :=
    f = Viewer.ALL
    \/ severity (Viewer.entry x) = Some (Viewer.filterText f)
    \/ (f = Viewer.WARN /\ severity (Viewer.entry x) = Some (str "WARNING")) in
  (forall x, In x (Viewer.filteredEntries toLowerCase st es) ->
             In x (Viewer.indexedEntries es) /\ named x)
  /\ (trim (Viewer.searchQuery st) = [] ->
      forall x, In x (Viewer.indexedEntries es) -> named x ->
                In x (Viewer.filteredEntries toLowerCase st es))
  /\ (forall x, In x (Viewer.filteredEntries toLowerCase st es) ->
        severity (Viewer.entry x) = Some (str "FATAL")
        \/ severity (Viewer.entry x) = None ->
        f = Viewer.ALL).
Proof.
  intros Hdone f named.
  pose proof (done_entries_classified clock file es stats Hdone) as Hc.
  unfold Classified in Hc. rewrite Forall_forall in Hc.
  assert (Hpass : forall x, In x (Viewer.indexedEntries es) ->
                            f <> Viewer.ALL ->
                            Viewer.severityPasses f x = true
                            <-> severity (Viewer.entry x)
                                = Some (Viewer.filterText f)
                                \/ (f = Viewer.WARN
                                    /\ severity (Viewer.entry x)
                                       = Some (str "WARNING"))).
  { intros x Hx Hf. destruct (Hc _ (indexed_entry es x Hx)) as (E & _).
    exact (severityPasses_parsed _ x f E Hf). }
  assert (Hin : forall x, In x (Viewer.filteredEntries toLowerCase st es) ->
                          In x (Viewer.indexedEntries es) /\ named x).
  { intros x Hx.
    assert (Hi : In x (Viewer.indexedEntries es)).
    { eapply Subsequence_In; [apply filteredEntries_subsequence|exact Hx]. }
    split; [exact Hi|]. unfold named.
    unfold Viewer.filteredEntries in Hx. fold f in Hx.
    assert (Hx' : In x match f with
                       | Viewer.ALL => Viewer.indexedEntries es
                       | _ => filter (Viewer.severityPasses f)
                                (Viewer.indexedEntries es)
                       end).
    { destruct (truthy (trim (Viewer.searchQuery st))); [|exact Hx].
      apply filter_In in Hx. tauto. }
    destruct f eqn:F; [now left|..]; right;
      apply filter_In in Hx'; destruct Hx' as (_ & Hp);
      apply (Hpass x Hi); try discriminate; exact Hp. }
  split; [exact Hin|]. split.
  - intros Hq x Hi Hn. unfold Viewer.filteredEntries. rewrite Hq. cbn [truthy].
    fold f. unfold named in Hn.
    destruct f eqn:F; [exact Hi|..]; apply filter_In; (split; [exact Hi|]);
      apply (Hpass x Hi); try discriminate;
      destruct Hn as [Hn|Hn]; try discriminate Hn; exact Hn.
  - intros x Hx Hs. destruct (Hin x Hx) as (_ & [Hn|[Hn|(_ & Hn)]]);
      [exact Hn|..]; destruct Hs as [Hs|Hs]; rewrite Hs in Hn;
      try discriminate Hn; destruct f; cbv in Hn; discriminate Hn.
Qed.

(** X7.  Every severity the worker can give an entry has a colour of
    its own in the table of the viewer, so that no such entry is drawn
    in the colour of entries without a severity; FATAL is drawn as ERROR
    and WARNING as WARN. *)
Theorem parsed_severities_have_colours (line : jsString) :
  match detectSeverity line with
  | Some sev =>
      exists color,
        Viewer.lookup sev Viewer.SEVERITY_COLORS = Some color
        /\ Viewer.getSeverityColor (Some sev) = color
        /\ color <> Viewer.getSeverityColor None
  | None => True
  end
  /\ Viewer.getSeverityColor (Some (str "FATAL"))
     = Viewer.getSeverityColor (Some (str "ERROR"))
  /\ Viewer.getSeverityColor (Some (str "WARNING"))
     = Viewer.getSeverityColor (Some (str "WARN")).
Proof.
  split; [|split; reflexivity].
  destruct (detectSeverity line) as [sev|] eqn:D; [|exact I].
  destruct (detectSeverity_token line sev D) as (tok & Hin & ->).
  cbn in Hin.
  destruct Hin as [<-|[<-|[<-|[<-|[<-|[<-|[<-|[]]]]]]]];
    eexists; (split; [reflexivity|split; [reflexivity|discriminate]]).
Qed.

End Severities.

Lemma severity_filter_on_parsed_entries_witness :
  let clock := {| Worker.startTime := 0%Q; Worker.doneTime := 1%Q |} in
  let st := {| Viewer.severityFilter := Viewer.ERROR;
               Viewer.searchQuery := JS.str "boom";
               Viewer.displayLimit := Viewer.DEFAULT_LIMIT |} in
  let es := Worker.entries
              (Denotation.grouped
                 (Denotation.decodeAll Samples.scenario)) in
  map Viewer.originalIndex (Viewer.filteredEntries (fun s => s) st es)
  = [1%Z]
  /\ forall x, In x (Viewer.filteredEntries (fun s => s) st es) ->
               Worker.severity (Viewer.entry x) = Some (JS.str "ERROR").
Proof.
  intros clock st es. split; [reflexivity|]. intros x Hx.
  assert (Hdone : In (Worker.DONE es
                        {| Worker.Stats.bytesProcessed := 79;
                           Worker.Stats.totalBytes := 79;
                           Worker.Stats.lines := 3;
                           Worker.Stats.entries := 2;
                           Worker.Stats.durationMs := (1 - 0)%Q |})
                     (fst (Worker.parseFile clock
                             (Samples.plain Samples.scenario)))).
  { right. left. reflexivity. }
  destruct (severity_filter_on_parsed_entries (fun s => s) clock
              (Samples.plain Samples.scenario) es _ st Hdone)
    as (H1 & _).
  destruct (H1 x Hx) as (_ & [H|[H|(H & _)]]);
    [discriminate H|exact H|discriminate H].
Defined.

(* ================================================================== *)
(** * Further properties: the chat panel                               *)
(* ================================================================== *)

Section Tokens.
Import JS Encoding Worker Builtins.

Lemma join_length (sep : list N) (parts : list jsString) :
  length (join sep parts)
  = (list_sum (map (@length N) parts)
     + length sep * (length parts - 1))%nat.
Proof.
  induction parts as [|p parts IH]; [cbn; lia|].
  destruct parts as [|q parts].
  - cbn. lia.
  - change (join sep (p :: q :: parts)) with (p ++ sep ++ join sep (q :: parts)).
    rewrite !length_app, IH. cbn [map list_sum length].
    rewrite !Nat.sub_succ, !Nat.sub_0_r, (Nat.mul_succ_r (length sep)).
    unfold list_sum. cbn [fold_right]. lia.
Qed.

(** X8.  The text whose tokens are estimated is the texts of the
    selected entries with one line feed between two of them; the
    estimate is its length over four, rounded up; and the selection is
    over the limit exactly when that length is above 64000 code units.
    A selection over the limit is never sent. *)
Theorem selection_over_limit (selectedEntries : list LogEntry) :
  let chars :=
    Z.of_nat (list_sum (map (fun e => length (text e)) selectedEntries)
              + (length selectedEntries - 1)) in
  Z.of_nat (length (ChatPanel.selectedText selectedEntries)) = chars
  /\ (4 * (ChatPanel.estimatedTokens selectedEntries - 1) < chars
      <= 4 * ChatPanel.estimatedTokens selectedEntries)%Z
  /\ (ChatPanel.isOverLimit selectedEntries = true <-> (64000 < chars)%Z)
  /\ (ChatPanel.isOverLimit selectedEntries = true ->
      forall reply st,
        ChatPanel.handleSubmit selectedEntries reply st = (st, None)).
Proof.
  intros chars.
  assert (E : Z.of_nat (length (ChatPanel.selectedText selectedEntries))
              = chars).
  { unfold ChatPanel.selectedText. rewrite join_length, map_map, length_map.
    cbn [length]. unfold chars. f_equal. lia. }
  assert (T : (4 * (ChatPanel.estimatedTokens selectedEntries - 1) < chars
               <= 4 * ChatPanel.estimatedTokens selectedEntries)%Z).
  { unfold ChatPanel.estimatedTokens, ChatPanel.CHARS_PER_TOKEN. rewrite E.
    pose proof (Z.div_mod (- chars) 4 ltac:(lia)).
    pose proof (Z.mod_pos_bound (- chars) 4 ltac:(lia)). lia. }
  split; [exact E|]. split; [exact T|]. split.
  - unfold ChatPanel.isOverLimit, ChatPanel.MAX_TOKENS. rewrite Z.ltb_lt. lia.
  - intros H reply st. unfold ChatPanel.handleSubmit, ChatPanel.canSend.
    rewrite H. now rewrite !andb_false_r.
Qed.

End Tokens.

Section Key.
Import JS Builtins.

Lemma getItem_removeItem (key k : string) (s : ChatPanel.Storage) :
  ChatPanel.getItem k (ChatPanel.removeItem key s)
  = if String.eqb key k then None else ChatPanel.getItem k s.
Proof.
  induction s as [|[k0 v] s IH]; cbn; [now destruct (String.eqb key k)|].
  destruct (String.eqb k0 key) eqn:K0.
  - rewrite IH. apply String.eqb_eq in K0. subst k0.
    now destruct (String.eqb key k).
  - cbn. rewrite IH. destruct (String.eqb k0 k) eqn:K; [|reflexivity].
    apply String.eqb_eq in K. subst k0.
    rewrite String.eqb_sym in K0. now rewrite K0.
Qed.

Lemma getItem_setItem (key k : string) (v : list N) (s : ChatPanel.Storage) :
  ChatPanel.getItem k (ChatPanel.setItem key v s)
  = if String.eqb key k then Some v else ChatPanel.getItem k s.
Proof.
  induction s as [|[k0 v0] s IH]; cbn; [reflexivity|].
  destruct (String.eqb k0 key) eqn:K0; cbn.
  - apply String.eqb_eq in K0. subst k0.
    destruct (String.eqb key k) eqn:K; [reflexivity|].
    rewrite getItem_removeItem. now rewrite K.
  - rewrite IH. destruct (String.eqb k0 k) eqn:K; [|reflexivity].
    apply String.eqb_eq in K. subst k0.
    rewrite String.eqb_sym in K0. now rewrite K0.
Qed.

(** X9.  The key typed into the panel is the key a panel mounted later
    in the same session starts with: a key that is not empty is stored
    and read back, an empty one removes the stored key.  Nothing else in
    the storage changes. *)
Theorem api_key_survives_remount (key : jsString) (st : ChatPanel.State)
  (storage : ChatPanel.Storage) :
  let after := ChatPanel.handleApiKeyChange key st storage in
  ChatPanel.apiKey (fst after) = key
  /\ ChatPanel.apiKey (ChatPanel.onMount (snd after) ChatPanel.initialState)
     = key
  /\ (key = [] ->
      ChatPanel.getItem "anthropic_api_key" (snd after) = None)
  /\ (forall k, k <> "anthropic_api_key"%string ->
        ChatPanel.getItem k (snd after) = ChatPanel.getItem k storage).
Proof.
  unfold ChatPanel.handleApiKeyChange, ChatPanel.onMount.
  cbn [fst snd ChatPanel.setApiKey ChatPanel.apiKey].
  split; [reflexivity|]. destruct key as [|c key]; cbn [truthy].
  - rewrite getItem_removeItem, String.eqb_refl.
    split; [reflexivity|]. split; [reflexivity|].
    intros k Hk. rewrite getItem_removeItem.
    destruct (String.eqb "anthropic_api_key" k) eqn:E; [|reflexivity].
    apply String.eqb_eq in E. congruence.
  - rewrite getItem_setItem, String.eqb_refl. cbn [truthy].
    split; [reflexivity|]. split; [discriminate|].
    intros k Hk. rewrite getItem_setItem.
    destruct (String.eqb "anthropic_api_key" k) eqn:E; [|reflexivity].
    apply String.eqb_eq in E. congruence.
Qed.

End Key.

Section Submit.
Import JS Encoding Worker Denotation Builtins.

Lemma decode_nothing (t : TextDecoder) : snd (decode [] true t) = [].
Proof.
  unfold decode. cbn [utf8Run].
  destruct (if doNotFlush t then t else newTextDecoder) as [u seen flag].
  reflexivity.
Qed.

Lemma setLast_snoc (m m' : ChatPanel.Message) (ms : list ChatPanel.Message) :
  ChatPanel.setLast m' (ms ++ [m]) = ms ++ [m'].
Proof.
  unfold ChatPanel.setLast. destruct (ms ++ [m]) eqn:E.
  - now destruct ms.
  - rewrite <- E. now rewrite removelast_last.
Qed.

(** The loop leaves, as the last message, the text decoded from all the
    chunks, and touches nothing else. *)
Lemma readAll_messages (chunks : list (list byte)) :
  forall decoder acc st ms,
  ChatPanel.messages st
  = ms ++ [{| ChatPanel.role := ChatPanel.assistant;
              ChatPanel.content := acc |}] ->
  ChatPanel.readAll chunks decoder acc st
  = ChatPanel.setMessages
      (ms ++ [{| ChatPanel.role := ChatPanel.assistant;
                 ChatPanel.content :=
                   acc ++ snd (decode (concat chunks) true decoder) |}]) st.
Proof.
  induction chunks as [|c chunks IH]; intros decoder acc st ms H.
  - cbn [ChatPanel.readAll concat]. rewrite decode_nothing, app_nil_r, <- H.
    now destruct st.
  - cbn [ChatPanel.readAll concat].
    destruct (decode_stream_app c (concat chunks) decoder) as (T & K).
    rewrite T. destruct (decode c true decoder) as [dec chunk] eqn:D.
    cbn [fst snd].
    rewrite (IH dec (acc ++ chunk) _ ms).
    + rewrite <- app_assoc. now destruct st.
    + cbn [ChatPanel.setMessages ChatPanel.messages]. rewrite H.
      apply setLast_snoc.
Qed.

(** A reply that streams to its end. *)
Lemma submit_streamed (selectedEntries : list LogEntry)
  (chunks : list (list byte)) (st : ChatPanel.State) :
  ChatPanel.canSend selectedEntries st = true ->
  let done :=
    ChatPanel.handleSubmit selectedEntries (ChatPanel.Streamed chunks None)
      st in
  snd done
  = Some {| ChatPanel.requestApiKey := trim (ChatPanel.apiKey st);
            ChatPanel.requestQuestion := trim (ChatPanel.question st);
            ChatPanel.requestEntries := selectedEntries |}
  /\ ChatPanel.messages (fst done)
     = ChatPanel.messages st
       ++ [{| ChatPanel.role := ChatPanel.user;
              ChatPanel.content := trim (ChatPanel.question st) |};
           {| ChatPanel.role := ChatPanel.assistant;
              ChatPanel.content := decodedSoFar (concat chunks) |}]
  /\ ChatPanel.error (fst done) = None.
Proof.
  intros Hcan. cbv zeta. unfold ChatPanel.handleSubmit.
  rewrite Hcan. cbn [negb fst snd].
  split; [reflexivity|].
  match goal with |- context [ChatPanel.readAll chunks ?d ?a ?s] =>
    rewrite (readAll_messages chunks d a s
               (ChatPanel.messages st
                ++ [{| ChatPanel.role := ChatPanel.user;
                       ChatPanel.content := trim (ChatPanel.question st) |}]))
  end.
  2:{ reflexivity. }
  cbn [ChatPanel.setMessages ChatPanel.messages ChatPanel.setIsLoading
       ChatPanel.error app].
  fold (decodedSoFar (concat chunks)).
  rewrite <- app_assoc. split; reflexivity.
Qed.

(** X10.  When the panel can send, [handleSubmit] sends one request
    with the trimmed key, the trimmed question and the selected entries;
    when it is over, the panel is no longer loading, the question field
    is empty and the question asked is in the conversation.  A reply
    that streams to its end adds the answer, the text decoded from all
    its bytes however they were chunked; a failure sets the error and
    leaves an answer only if some text had arrived.  When the panel
    cannot send, nothing happens. *)
Theorem submit_outcomes (selectedEntries : list LogEntry)
  (reply : ChatPanel.Reply) (st : ChatPanel.State) :
  (ChatPanel.canSend selectedEntries st = false ->
   ChatPanel.handleSubmit selectedEntries reply st = (st, None))
  /\
  (ChatPanel.canSend selectedEntries st = true ->
  let asked := {| ChatPanel.role := ChatPanel.user;
                  ChatPanel.content := trim (ChatPanel.question st) |} in
  let answer chunks := {| ChatPanel.role := ChatPanel.assistant;
                          ChatPanel.content := decodedSoFar (concat chunks) |} in
  let st' := fst (ChatPanel.handleSubmit selectedEntries reply st) in
  snd (ChatPanel.handleSubmit selectedEntries reply st)
  = Some {| ChatPanel.requestApiKey := trim (ChatPanel.apiKey st);
            ChatPanel.requestQuestion := trim (ChatPanel.question st);
            ChatPanel.requestEntries := selectedEntries |}
  /\ ChatPanel.isLoading st' = false
  /\ ChatPanel.question st' = []
  /\ ChatPanel.apiKey st' = ChatPanel.apiKey st
  /\ match reply with
     | ChatPanel.Streamed chunks None =>
         ChatPanel.messages st'
         = ChatPanel.messages st ++ [asked; answer chunks]
         /\ ChatPanel.error st' = None
     | ChatPanel.Streamed chunks (Some e) =>
         ChatPanel.messages st'
         = ChatPanel.messages st ++ asked
             :: (if truthy (decodedSoFar (concat chunks))
                 then [answer chunks] else [])
         /\ ChatPanel.error st' = Some (ChatPanel.messageOf e)
     | ChatPanel.Unreachable e =>
         ChatPanel.messages st' = ChatPanel.messages st ++ [asked]
         /\ ChatPanel.error st' = Some (ChatPanel.messageOf e)
     | ChatPanel.Refused status (Some m) =>
         ChatPanel.messages st' = ChatPanel.messages st ++ [asked]
         /\ ChatPanel.error st' = Some m
     | ChatPanel.Refused status None =>
         ChatPanel.messages st' = ChatPanel.messages st ++ [asked]
         /\ ChatPanel.error st'
            = Some (str "Request failed with status "
                    ++ numberToString status)
     | ChatPanel.NoBody =>
         ChatPanel.messages st' = ChatPanel.messages st ++ [asked]
         /\ ChatPanel.error st' = Some (str "No response body")
     end).
Proof.
  split.
  { intros Hcan. unfold ChatPanel.handleSubmit. now rewrite Hcan. }
  intros Hcan asked answer st'. unfold st', ChatPanel.handleSubmit.
  rewrite Hcan. cbn [negb fst snd].
  split; [reflexivity|].
  assert (Hcatch : forall m s,
             ChatPanel.messages s = ChatPanel.messages st ++ [asked] ->
             ChatPanel.messages (ChatPanel.onCatch m s)
             = ChatPanel.messages st ++ [asked]).
  { intros m s E. unfold ChatPanel.onCatch.
    cbn [ChatPanel.setMessages ChatPanel.setError ChatPanel.messages].
    rewrite E, rev_app_distr. reflexivity. }
  destruct reply as [e|status [m|]| |chunks [e|]];
    cbn [ChatPanel.setIsLoading ChatPanel.isLoading ChatPanel.question
         ChatPanel.apiKey ChatPanel.messages ChatPanel.error
         ChatPanel.onCatch ChatPanel.setMessages ChatPanel.setError
         ChatPanel.setQuestion];
    try (rewrite rev_app_distr; cbn [rev app ChatPanel.role];
         repeat split; reflexivity).
  - match goal with |- context [ChatPanel.readAll chunks ?d ?a ?s] =>
      rewrite (readAll_messages chunks d a s
                 (ChatPanel.messages st ++ [asked]))
    end.
    2:{ reflexivity. }
    cbn [ChatPanel.setMessages ChatPanel.messages ChatPanel.isLoading
         ChatPanel.question ChatPanel.apiKey ChatPanel.error app].
    fold (decodedSoFar (concat chunks)).
    rewrite rev_app_distr. cbn [rev app ChatPanel.role ChatPanel.content].
    rewrite removelast_last.
    destruct (truthy (decodedSoFar (concat chunks)));
      rewrite <- ?app_assoc; repeat split; reflexivity.
  - match goal with |- context [ChatPanel.readAll chunks ?d ?a ?s] =>
      rewrite (readAll_messages chunks d a s
                 (ChatPanel.messages st ++ [asked]))
    end.
    2:{ reflexivity. }
    cbn [ChatPanel.setMessages ChatPanel.messages ChatPanel.isLoading
         ChatPanel.question ChatPanel.apiKey ChatPanel.error app].
    fold (decodedSoFar (concat chunks)).
    rewrite <- app_assoc. repeat split; reflexivity.
Qed.

Lemma submit_outcomes_witness :
  let selected := [{| lineStart := 1; lineEnd := 1; text := str "ERROR x";
                      severity := Some (str "ERROR"); timestamp := None |}] in
  let st := {| ChatPanel.apiKey := str " sk-ant ";
               ChatPanel.question := str "why? ";
               ChatPanel.messages := []; ChatPanel.isLoading := false;
               ChatPanel.error := Some (str "old") |} in
  let reply := ChatPanel.Streamed [[xc3]; [xa9; x21]] None in
  ChatPanel.messages (fst (ChatPanel.handleSubmit selected reply st))
  = [{| ChatPanel.role := ChatPanel.user; ChatPanel.content := str "why?" |};
     {| ChatPanel.role := ChatPanel.assistant;
        ChatPanel.content := [233%N; 33%N] |}]
  /\ ChatPanel.error (fst (ChatPanel.handleSubmit selected reply st)) = None.
Proof.
  intros selected st reply.
  destruct (submit_outcomes selected reply st) as (_ & H).
  destruct (H eq_refl) as (_ & _ & _ & _ & H1 & H2).
  split; [exact H1|exact H2].
Defined.

End Submit.

(* ================================================================== *)
(** * Further properties: the chat route                               *)
(* ================================================================== *)

Section Relay.
Import JS Encoding Worker Meaning Denotation Builtins.

Variable events : jsString -> list jsString.

Lemma removelast_splitOn_app (s t : list N) :
  removelast (splitOn LF (s ++ t))
  = removelast (splitOn LF s)
    ++ removelast (splitOn LF (last (splitOn LF s) [] ++ t))
  /\ last (splitOn LF (s ++ t)) []
     = last (splitOn LF (last (splitOn LF s) [] ++ t)) [].
Proof.
  rewrite (splitOn_app LF s t). split.
  - apply removelast_app. apply splitOn_nonempty.
  - apply last_append. apply splitOn_nonempty.
Qed.

(** The texts enqueued for the values read are those of the lines that
    a line feed ends in the buffer followed by the text decoded. *)
Lemma readAll_lines (values : list (list byte)) :
  forall r, ~ In LF (Route.buffer r) ->
  snd (Route.readAll events values r)
  = flat_map (Route.onLine events)
      (removelast
         (splitOn LF (Route.buffer r
                      ++ snd (decode (concat values) true (Route.decoder r))))).
Proof.
  induction values as [|v values IH]; intros r Hfree.
  - cbn [Route.readAll concat snd]. rewrite decode_nothing, app_nil_r.
    now rewrite splitOn_free_id.
  - cbn [Route.readAll concat]. unfold Route.onValue.
    destruct (decode_stream_app v (concat values) (Route.decoder r))
      as (T & K).
    rewrite T. destruct (decode v true (Route.decoder r)) as [dec text] eqn:D.
    cbn [fst snd].
    set (r1 := {| Route.decoder := dec;
                  Route.buffer :=
                    last (splitOn LF (Route.buffer r ++ text)) [] |}).
    specialize (IH r1 (splitOn_last_free LF (Route.buffer r ++ text))).
    destruct (Route.readAll events values r1) as [r2 out2].
    cbn [snd] in *. rewrite IH. cbn [Route.buffer Route.decoder r1].
    rewrite app_assoc.
    destruct (removelast_splitOn_app (Route.buffer r ++ text)
                (snd (decode (concat values) true dec))) as (E & _).
    rewrite E. now rewrite flat_map_app.
Qed.

Lemma removelast_splitOn_line (t fragment : list N) :
  ~ In LF fragment ->
  removelast (splitOn LF (t ++ LF :: fragment)) = splitOn LF t.
Proof.
  intros H.
  replace (t ++ LF :: fragment) with ((t ++ [LF]) ++ fragment)
    by now rewrite <- app_assoc.
  destruct (removelast_splitOn_app (t ++ [LF]) fragment) as (E & _).
  rewrite E. clear E.
  destruct (removelast_splitOn_app t [LF]) as (E1 & E2).
  assert (S1 : splitOn LF (last (splitOn LF t) [] ++ [LF])
               = [last (splitOn LF t) []; []]).
  { rewrite (splitOn_free_app LF _ []); [reflexivity|].
    apply splitOn_last_free. }
  rewrite S1 in E1, E2. cbn [removelast last] in E1, E2.
  rewrite E2. cbn [app]. rewrite (splitOn_free_id LF fragment H).
  cbn [removelast]. rewrite app_nil_r, E1.
  symmetry. apply app_removelast_last. apply splitOn_nonempty.
Qed.

(** X11.  The relay handles the answer of the API line by line: the
    texts it enqueues are those of the lines that a line feed ends in
    the text decoded from all the bytes read, in order, however the
    bytes were chunked.  What follows the last line feed is never
    handled, so an event whose line is not ended is dropped; a stream
    that fails is relayed up to the failure, then the error text. *)
Theorem relay_handles_ended_lines (values : list (list byte))
  (failure : option Thrown) :
  let body := decodedSoFar (concat values) in
  let handled :=
    flat_map (Route.onLine events) (removelast (splitOn LF body)) in
  Route.start events (Some (values, None)) = handled
  /\ (forall e,
        Route.start events (Some (values, Some e))
        = handled ++ [[LF; LF] ++ str "Stream error: "
                      ++ ChatPanel.messageOf e])
  /\ (forall values',
        concat values' = concat values ->
        Route.start events (Some (values', failure))
        = Route.start events (Some (values, failure)))
  /\ (forall t fragment,
        body = t ++ LF :: fragment -> ~ In LF fragment ->
        handled = flat_map (Route.onLine events) (splitOn LF t))
  /\ (~ In LF body -> handled = []).
Proof.
  intros body handled.
  assert (E : forall vs,
             snd (Route.readAll events vs
                    {| Route.decoder := newTextDecoder; Route.buffer := [] |})
             = flat_map (Route.onLine events)
                 (removelast (splitOn LF (decodedSoFar (concat vs))))).
  { intros vs. rewrite readAll_lines; [reflexivity|intros []]. }
  split; [|split; [|split; [|split]]].
  - unfold Route.start. now rewrite E, app_nil_r.
  - intros e. unfold Route.start. now rewrite E.
  - intros values' H. unfold Route.start. now rewrite !E, H.
  - intros t fragment Hb Hf. unfold handled. rewrite Hb.
    now rewrite removelast_splitOn_line.
  - intros Hf. unfold handled. now rewrite splitOn_free_id.
Qed.

End Relay.

Section Agreement.
Import JS Encoding Worker Builtins.

Variable events : jsString -> list jsString.

(** X12.  A request the chat panel sends passes the checks of the
    route: its key and its question are not empty and it has an entry, so
    the route answers none of its three 400 errors and goes on to the API;
    the answer of the API, when it is [ok], is relayed as a stream.  A
    body with an empty key, an empty question or no entry is answered
    400 without the API being asked. *)
Theorem panel_requests_pass_the_checks (selectedEntries : list LogEntry)
  (reply : ChatPanel.Reply) (st : ChatPanel.State) :
  ChatPanel.canSend selectedEntries st = true ->
  exists request,
    snd (ChatPanel.handleSubmit selectedEntries reply st) = Some request
    /\ Route.validate (Route.bodyOf request) = None
    /\ (forall body,
          Route.POST events (Route.bodyOf request) (Route.Ok body)
          = Route.Stream (Route.start events body))
    /\ (forall body upstream,
          Route.apiKey body = [] \/ Route.question body = []
          \/ Route.entries body = [] ->
          exists message,
            Route.validate body = Some (Route.Json 400 message)
            /\ Route.POST events body upstream = Route.Json 400 message).
Proof.
  intros Hcan. unfold ChatPanel.handleSubmit. rewrite Hcan. cbn [negb snd].
  eexists. split; [reflexivity|].
  unfold ChatPanel.canSend in Hcan.
  apply andb_prop in Hcan. destruct Hcan as (Hcan & _).
  apply andb_prop in Hcan. destruct Hcan as (Hcan & _).
  apply andb_prop in Hcan. destruct Hcan as (Hcan & Hq).
  apply andb_prop in Hcan. destruct Hcan as (Hsel & Hkey).
  assert (V : Route.validate
                (Route.bodyOf
                   {| ChatPanel.requestApiKey := trim (ChatPanel.apiKey st);
                      ChatPanel.requestQuestion := trim (ChatPanel.question st);
                      ChatPanel.requestEntries := selectedEntries |}) = None).
  { unfold Route.validate, Route.bodyOf.
    cbn [Route.apiKey Route.question Route.entries ChatPanel.requestApiKey
         ChatPanel.requestQuestion ChatPanel.requestEntries].
    rewrite Hkey, Hq. cbn [negb].
    destruct selectedEntries; [discriminate Hsel|reflexivity]. }
  split; [exact V|]. split.
  - intros body. unfold Route.POST. now rewrite V.
  - intros body upstream H. unfold Route.POST, Route.validate.
    destruct (Route.apiKey body) as [|c k]; cbn [truthy negb];
      [eexists; split; reflexivity|].
    destruct (Route.question body) as [|d q]; cbn [truthy negb];
      [eexists; split; reflexivity|].
    destruct (Route.entries body) as [|e es];
      [eexists; split; reflexivity|].
    destruct H as [H|[H|H]]; discriminate H.
Qed.

End Agreement.

Lemma panel_requests_pass_the_checks_witness :
  let selected := [{| Worker.lineStart := 1; Worker.lineEnd := 1;
                      Worker.text := JS.str "ERROR x";
                      Worker.severity := Some (JS.str "ERROR");
                      Worker.timestamp := None |}] in
  let st := {| ChatPanel.apiKey := JS.str " sk-ant ";
               ChatPanel.question := JS.str "why? ";
               ChatPanel.messages := []; ChatPanel.isLoading := false;
               ChatPanel.error := None |} in
  exists request,
    snd (ChatPanel.handleSubmit selected ChatPanel.NoBody st) = Some request
    /\ Route.validate (Route.bodyOf request) = None.
Proof.
  intros selected st.
  destruct (panel_requests_pass_the_checks (fun data => [data]) selected
              ChatPanel.NoBody st eq_refl) as (request & H1 & H2 & _).
  exists request. split; [exact H1|exact H2].
Defined.

(* ================================================================== *)
(** * Further properties: progress and totals                          *)
(* ================================================================== *)

Section Growth.
Import JS Encoding Worker Meaning Denotation Classification Counts.

Lemma finalizeEntry_grows (st : Parser) :
  lineNumber (finalizeEntry st) = lineNumber st
  /\ (length (entries st) <= length (entries (finalizeEntry st)))%nat.
Proof.
  unfold finalizeEntry. destruct (currentEntry st); cbn; [|auto].
  rewrite length_app. cbn. split; [reflexivity|lia].
Qed.

Lemma handleLine_grows (l : list N) (st : Parser) :
  lineNumber (handleLine l st) = (lineNumber st + 1)%Z
  /\ (length (entries st) <= length (entries (handleLine l st)))%nat.
Proof.
  destruct (currentEntry st) as [cur|] eqn:E.
  - destruct (handleLine_cases l st cur E) as (H1 & H2).
    split; [exact H1|].
    destruct (isEntryStart l && negb (isContinuationLine l)).
    + destruct H2 as (H2 & _). rewrite H2, length_app. lia.
    + destruct H2 as (H2 & _). now rewrite H2.
  - unfold handleLine. cbn [currentEntry withLineNumber]. rewrite E.
    cbn. auto.
Qed.

Lemma feed_grows (ls : list jsString) :
  forall st,
  (lineNumber st <= lineNumber (feed ls st))%Z
  /\ (length (entries st) <= length (entries (feed ls st)))%nat.
Proof.
  unfold feed. induction ls as [|l ls IH]; intros st; cbn [fold_left].
  - split; reflexivity.
  - destruct (IH (handleLine l st)) as (H1 & H2).
    destruct (handleLine_grows l st) as (K1 & K2). split; lia.
Qed.

Lemma consume_grows (c : list byte) (st : Parser) :
  (lineNumber st <= lineNumber (consume c st))%Z
  /\ (length (entries st) <= length (entries (consume c st)))%nat.
Proof.
  destruct (consume_fields c st) as ((G1 & _ & G3) & _).
  rewrite G1, G3. apply feed_grows.
Qed.

Lemma flush_grows (st : Parser) :
  (lineNumber st <= lineNumber (flush st))%Z
  /\ (length (entries st) <= length (entries (flush st)))%nat.
Proof.
  unfold flush. destruct (decode [] false (decoder st)) as [dec fin].
  set (st0 := withDecoder dec st).
  set (st1 := match fin with
              | [] => st0
              | _ :: _ =>
                  let (s1, tr) := processText (leftover st0 ++ fin) st0 in
                  withLeftover tr s1
              end).
  set (st2 := match leftover st1 with
              | [] => st1
              | _ :: _ => withLeftover [] (handleLine (leftover st1) st1)
              end).
  assert (H1 : (lineNumber st <= lineNumber st1)%Z
               /\ (length (entries st) <= length (entries st1))%nat).
  { unfold st1. destruct fin as [|x fin]; [split; reflexivity|].
    rewrite processText_lines. cbn [withLeftover lineNumber entries].
    apply (feed_grows _ st0). }
  assert (H2 : (lineNumber st1 <= lineNumber st2)%Z
               /\ (length (entries st1) <= length (entries st2))%nat).
  { unfold st2. destruct (leftover st1) as [|x lo]; [split; reflexivity|].
    cbn [withLeftover lineNumber entries].
    destruct (handleLine_grows (x :: lo) st1). split; lia. }
  destruct (finalizeEntry_grows st2). split; lia.
Qed.

Lemma fractionAt_grows (b1 b2 total : Z) :
  (0 < total)%Z -> (b1 <= b2)%Z ->
  (fractionAt b1 total <= fractionAt b2 total)%Q.
Proof.
  intros Ht Hb. unfold fractionAt. apply Q.min_le_compat_l.
  unfold Qdiv. apply Qmult_le_compat_r.
  - now rewrite <- Zle_Qle.
  - apply Qinv_le_0_compat. replace 0%Q with (inject_Z 0) by reflexivity.
    rewrite <- Zle_Qle. lia.
Qed.

Lemma fractionAt_whole (total : Z) :
  (0 < total)%Z -> (fractionAt total total == 1)%Q.
Proof.
  intros Ht. unfold fractionAt.
  assert (E : (inject_Z total / inject_Z total == 1)%Q).
  { unfold Qdiv. apply Qmult_inv_r. unfold Qeq. cbn. lia. }
  rewrite E. apply Q.min_id.
Qed.

Lemma Within_weaken (b b' : Z) (f f' : Q) (l l' e e' : Z)
  (p : Progress.payload) :
  (b <= b')%Z -> (f <= f')%Q -> (l <= l')%Z -> (e <= e')%Z ->
  Within b f l e p -> Within b' f' l' e' p.
Proof.
  intros Hb Hf Hl He (H1 & H2 & H3 & H4).
  repeat split; try lia. eapply Qle_trans; eassumption.
Qed.

Lemma Advancing_snoc (ps : list Progress.payload) (p : Progress.payload)
  (b : Z) (f : Q) (l e : Z) :
  Advancing ps -> Forall (Within b f l e) ps ->
  (b < Progress.bytesProcessed p)%Z -> (f <= Progress.percent p)%Q ->
  (l <= Progress.lines p)%Z -> (e <= Progress.entries p)%Z ->
  Advancing (ps ++ [p]).
Proof.
  intros Ha Hw Hb Hf Hl He.
  induction ps as [|q ps IH]; [cbn; auto|].
  inversion Hw as [|? ? (W1 & W2 & W3 & W4) Hw']; subst.
  cbn [Advancing] in Ha. destruct Ha as (Ha1 & Ha2).
  cbn [app Advancing]. split; [|auto].
  destruct ps as [|q' ps]; cbn [app].
  - repeat split; try lia. eapply Qle_trans; eassumption.
  - exact Ha1.
Qed.

Lemma fractionAt_at_most_1 (b total : Z) : (fractionAt b total <= 1)%Q.
Proof. unfold fractionAt. apply Q.le_min_l. Qed.

Lemma Reported_initial (file : File) : Reported file [] initial [].
Proof.
  split; [reflexivity|]. exists []. repeat split; try constructor.
  intros H. contradiction.
Qed.

Lemma Reported_step (sliceSize interval : Z) (file : File)
  (B R : list byte) (st : Parser) (posted : list Message) :
  (0 < sliceSize)%Z ->
  contents file = B ++ R -> R <> [] -> Reported file B st posted ->
  let c := firstn (Z.to_nat sliceSize) R in
  let r := report interval file (consume c st) in
  Reported file (B ++ c) (fst r) (posted ++ snd r).
Proof.
  intros Hs E Hne (Hb & ps & Hp & Ha & Hw & _) c r.
  destruct (consume_fields c st) as (_ & _ & _ & Hbytes & _).
  destruct (consume_grows c st) as (Hl & He).
  assert (Hc : (0 < length c)%nat).
  { unfold c. rewrite length_firstn. destruct R; [contradiction|cbn; lia]. }
  assert (Hle : (length c <= length R)%nat).
  { unfold c. rewrite length_firstn. lia. }
  pose proof (size_split file B R E) as Hsize.
  set (st1 := consume c st) in *.
  assert (Hf : (fractionAt (bytesProcessed st) (size file)
                <= fractionAt (bytesProcessed st1) (size file))%Q).
  { apply fractionAt_grows; lia. }
  assert (Hold : Forall (Within (bytesProcessed st1)
                           (fractionAt (bytesProcessed st1) (size file))
                           (lineNumber st1)
                           (Z.of_nat (length (entries st1)))) ps).
  { eapply Forall_impl; [|exact Hw]. intros p.
    apply Within_weaken; try lia. exact Hf. }
  unfold r, report. destruct (progressDue interval file st1) eqn:P;
    cbn [fst snd].
  - set (p1 := {| Progress.bytesProcessed := bytesProcessed st1;
                  Progress.totalBytes := size file;
                  Progress.percent :=
                    Qmin 1 (inject_Z (bytesProcessed st1)
                            / inject_Z (size file))%Q;
                  Progress.lines := lineNumber st1;
                  Progress.entries := Z.of_nat (length (entries st1)) |}).
    split; [cbn; rewrite length_app; lia|].
    exists (ps ++ [p1]).
    cbn [withLastProgressAt bytesProcessed lineNumber entries].
    split; [|split; [|split]].
    + now rewrite Hp, map_app.
    + apply (Advancing_snoc ps p1 (bytesProcessed st)
               (fractionAt (bytesProcessed st) (size file))
               (lineNumber st) (Z.of_nat (length (entries st))));
        auto; cbn; lia.
    + apply Forall_app. split; [exact Hold|]. constructor; [|constructor].
      unfold Within, p1. cbn. repeat split; try lia. apply Qle_refl.
    + intros _ Hend. exists ps, p1. split; [reflexivity|].
      assert (Eb : bytesProcessed st1 = size file) by lia.
      split; [exact Eb|]. unfold p1. cbn [Progress.percent]. rewrite Eb.
      apply fractionAt_whole. lia.
  - rewrite app_nil_r. split; [rewrite length_app; lia|].
    exists ps. split; [exact Hp|]. split; [exact Ha|]. split; [exact Hold|].
    intros _ Hend. unfold progressDue in P.
    apply orb_false_elim in P. destruct P as (_ & P).
    apply Z.leb_gt in P. lia.
Qed.

Lemma readLoop_reported (sliceSize interval : Z) (file : File) :
  (0 < sliceSize)%Z ->
  match readLoop sliceSize interval (length (contents file)) file initial []
  with
  | Exited st posted => Reported file (contents file) st posted
  | Rejected e posted => exists B st, Reported file B st posted
  | Unfinished => False
  end.
Proof.
  intros Hs.
  pose proof (readLoop_invariant sliceSize interval file Hs (Reported file))
    as H.
  specialize (H ltac:(now intros B st posted (Hb & _))).
  specialize (H (fun B R st posted E Hne HI _ =>
                   Reported_step sliceSize interval file B R st posted
                     Hs E Hne HI)).
  specialize (H (length (contents file)) [] (contents file) initial []
                eq_refl (Nat.le_refl _) (Reported_initial file)).
  destruct (readLoop sliceSize interval (length (contents file)) file
              initial []) as [e posted|st posted|]; [|exact H|exact H].
  destruct H as (B & R & st & _ & _ & HI & _). now exists B, st.
Qed.

(** X13.  The progress reports of a parse never go back: each is
    beyond the one before it in bytes and not behind it in fraction,
    lines and entries.  A parse that is fulfilled ends with one [DONE]
    message whose statistics bound every report: its bytes processed
    are its total bytes and the size of the file, its entries are as
    many as the entries it brings, and the last report before it, when
    the file is not empty, is at the end of the file with fraction 1.  A
    parse that is rejected posts reports only. *)
Theorem progress_never_goes_back (clock : Clock) (file : File) :
  exists ps final,
    fst (parseFile clock file) = map PROGRESS ps ++ final
    /\ Advancing ps
    /\ ((exists e, snd (parseFile clock file) = RejectedWith e /\ final = [])
        \/ (snd (parseFile clock file) = Fulfilled
            /\ exists es stats,
                 final = [DONE es stats]
                 /\ Forall (Within (Stats.bytesProcessed stats) 1
                              (Stats.lines stats) (Stats.entries stats)) ps
                 /\ Stats.bytesProcessed stats = size file
                 /\ Stats.totalBytes stats = size file
                 /\ Stats.entries stats = Z.of_nat (length es)
                 /\ ((0 < size file)%Z -> EndsAt (size file) ps))).
Proof.
  pose proof (readLoop_reported SLICE_SIZE PROGRESS_INTERVAL_BYTES file
                SLICE_SIZE_pos) as H.
  unfold parseFile, parseFileWith.
  destruct (readLoop SLICE_SIZE PROGRESS_INTERVAL_BYTES
              (length (contents file)) file initial [])
    as [e posted|st posted|]; [| |contradiction].
  - destruct H as (B & st & _ & ps & Hp & Ha & _).
    exists ps, []. cbn [fst snd]. rewrite app_nil_r.
    split; [exact Hp|]. split; [exact Ha|]. left. now exists e.
  - destruct H as (Hb & ps & Hp & Ha & Hw & Hend).
    exists ps, [doneMessage clock file (flush st)]. cbn [fst snd].
    split; [now rewrite Hp|]. split; [exact Ha|]. right.
    split; [reflexivity|]. unfold doneMessage. do 2 eexists.
    split; [reflexivity|].
    cbn [Stats.bytesProcessed Stats.totalBytes Stats.lines Stats.entries].
    destruct (flush_grows st) as (Hl & He).
    rewrite flush_bytesProcessed.
    assert (Hsize : bytesProcessed st = size file).
    { rewrite Hb. reflexivity. }
    split; [|split; [exact Hsize|split; [reflexivity|split; [reflexivity|]]]].
    + eapply Forall_impl; [|exact Hw]. intros p.
      apply Within_weaken; try lia. apply fractionAt_at_most_1.
    + intros Hpos. apply Hend; [|lia].
      intros E. unfold size in Hpos. rewrite E in Hpos. cbn in Hpos. lia.
Qed.

End Growth.

(* ================================================================== *)
(** * Further properties: the byte order mark                          *)
(* ================================================================== *)

(** The quotients and remainders of the context as numbers of their
    own, for linear arithmetic. *)
Ltac name_divisions :=
  repeat match goal with
         | H : context [N.modulo ?a ?b] |- _ =>
             let m := fresh "m" in set (m := N.modulo a b) in *; clearbody m
         | H : context [N.div ?a ?b] |- _ =>
             let q := fresh "q" in set (q := N.div a b) in *; clearbody q
         end.

Section Mark.
Import JS Encoding Worker Meaning Denotation Samples Counts.

Lemma inRange_iff (lo hi c : N) :
  inRange lo hi c = true <-> (lo <= c <= hi)%N.
Proof.
  unfold inRange. rewrite andb_true_iff, !N.leb_le. tauto.
Qed.

Lemma inRange_not (lo hi c : N) :
  inRange lo hi c = false <-> (c < lo \/ hi < c)%N.
Proof.
  unfold inRange. rewrite andb_false_iff, !N.leb_gt. tauto.
Qed.

(** A continuation byte adds its six low bits. *)
Lemma lor_continuation (cp b : N) :
  N.lor (N.shiftl cp 6) (N.land b 63) = (cp * 64 + b mod 64)%N.
Proof.
  change 63%N with (N.ones 6). rewrite N.land_ones, N.shiftl_mul_pow2.
  change (2 ^ 6)%N with 64%N.
  assert (H : N.land (cp * 64) (b mod 64) = 0%N).
  { apply N.bits_inj. intros i. rewrite N.land_spec, N.bits_0.
    destruct (N.lt_ge_cases i 6) as [Hi|Hi].
    - change 64%N with (2 ^ 6)%N. now rewrite N.mul_pow2_bits_low.
    - change 64%N with (2 ^ 6)%N.
      rewrite (N.mod_pow2_bits_high b 6 i Hi). apply andb_false_r. }
  now rewrite <- (N.lxor_lor _ _ H), <- (N.add_nocarry_lxor _ _ H).
Qed.

Lemma byte_below_256 (b : byte) : (Byte.to_N b < 256)%N.
Proof. pose proof (Byte.to_N_bounded b). lia. Qed.

(** The handler on a byte when no sequence is open. *)
Lemma utf8Byte_lead (n : N) :
  utf8Byte utf8Initial n = (fst (utf8Lead n), emitted (snd (utf8Lead n))).
Proof.
  unfold utf8Byte, utf8Handler. cbn [bytesNeeded utf8Initial N.eqb].
  unfold utf8Lead.
  destruct (inRange 0 127 n); [reflexivity|].
  destruct (inRange 194 223 n); [reflexivity|].
  destruct (inRange 224 239 n); [reflexivity|].
  destruct (inRange 240 244 n); reflexivity.
Qed.

(** The handler on a byte inside a sequence. *)
Lemma utf8Byte_open (d : Utf8Decoder) (n : N) :
  bytesNeeded d <> 0%N ->
  utf8Byte d n
  = if inRange (lowerBoundary d) (upperBoundary d) n then
      if (bytesSeen d + 1 =? bytesNeeded d)%N
      then (utf8Initial, [(codePoint d * 64 + n mod 64)%N])
      else ({| codePoint := (codePoint d * 64 + n mod 64)%N;
               bytesSeen := bytesSeen d + 1;
               bytesNeeded := bytesNeeded d;
               lowerBoundary := 128; upperBoundary := 191 |}, [])
    else (fst (utf8Lead n), REPLACEMENT :: emitted (snd (utf8Lead n))).
Proof.
  intros H. unfold utf8Byte, utf8Handler.
  apply N.eqb_neq in H. rewrite H.
  destruct (inRange (lowerBoundary d) (upperBoundary d) n); cbn [negb].
  - rewrite lor_continuation.
    destruct (bytesSeen d + 1 =? bytesNeeded d)%N; reflexivity.
  - now destruct (utf8Lead n).
Qed.

Lemma utf8Run_cons (d : Utf8Decoder) (b : byte) (rest : list byte) :
  utf8Run d (b :: rest)
  = (fst (utf8Run (fst (utf8Byte d (Byte.to_N b))) rest),
     snd (utf8Byte d (Byte.to_N b))
     ++ snd (utf8Run (fst (utf8Byte d (Byte.to_N b))) rest)).
Proof.
  cbn [utf8Run]. destruct (utf8Byte d (Byte.to_N b)) as [d1 out1].
  cbn [fst snd]. now destruct (utf8Run d1 rest).
Qed.

(** The code points of a stream, from a decoder state on. *)
Lemma codePoints_from (d : Utf8Decoder) (b : byte) (rest : list byte) :
  snd (utf8Run d (b :: rest)) ++ snd (utf8End (fst (utf8Run d (b :: rest))))
  = snd (utf8Byte d (Byte.to_N b))
    ++ (snd (utf8Run (fst (utf8Byte d (Byte.to_N b))) rest)
        ++ snd (utf8End
                  (fst (utf8Run (fst (utf8Byte d (Byte.to_N b))) rest)))).
Proof. rewrite utf8Run_cons. cbn [fst snd]. now rewrite app_assoc. Qed.

Lemma unmarked_first (bytes : list byte) :
  marked bytes = false ->
  forall rest, codePoints bytes <> 65279%N :: rest.
Proof.
  intros Hm rest. unfold codePoints.
  destruct bytes as [|b0 r0]; [discriminate|].
  rewrite codePoints_from, utf8Byte_lead.
  pose proof (byte_below_256 b0) as B0.
  set (n0 := Byte.to_N b0) in *.
  unfold utf8Lead.
  destruct (inRange 0 127 n0) eqn:A0.
  { cbn. apply inRange_iff in A0. intros E. injection E as E _. lia. }
  destruct (inRange 194 223 n0) eqn:A1.
  { cbn [fst snd emitted app].
    destruct r0 as [|b1 r1]; [discriminate|].
    rewrite codePoints_from, utf8Byte_open by discriminate.
    cbn [lowerBoundary upperBoundary bytesSeen bytesNeeded codePoint N.add
         N.eqb Pos.eqb].
    set (n1 := Byte.to_N b1).
    destruct (inRange 128 191 n1) eqn:C1; [|discriminate].
    cbn [snd app]. intros E. injection E as E _.
    apply inRange_iff in A1, C1.
    assert (N.land n0 31 = n0 mod 32)%N
      by (change 31%N with (N.ones 5); apply N.land_ones).
    pose proof (N.mod_upper_bound n0 32 ltac:(discriminate)).
    pose proof (N.mod_upper_bound n1 64 ltac:(discriminate)).
    clearbody n0 n1. name_divisions. lia. }
  assert (M16 : N.land n0 15 = (n0 mod 16)%N)
    by (change 15%N with (N.ones 4); apply N.land_ones).
  assert (M8 : N.land n0 7 = (n0 mod 8)%N)
    by (change 7%N with (N.ones 3); apply N.land_ones).
  pose proof (N.div_mod n0 16 ltac:(discriminate)) as D16.
  pose proof (N.mod_upper_bound n0 16 ltac:(discriminate)) as U16.
  pose proof (N.div_mod n0 8 ltac:(discriminate)) as D8.
  pose proof (N.mod_upper_bound n0 8 ltac:(discriminate)) as U8.
  destruct (inRange 224 239 n0) eqn:A2.
  { cbn [fst snd emitted app]. apply inRange_iff in A2.
    destruct r0 as [|b1 r1]; [discriminate|].
    rewrite codePoints_from, utf8Byte_open by discriminate.
    cbn [lowerBoundary upperBoundary bytesSeen bytesNeeded codePoint N.add
         N.eqb Pos.eqb].
    pose proof (byte_below_256 b1) as B1. set (n1 := Byte.to_N b1) in *.
    pose proof (N.div_mod n1 64 ltac:(discriminate)) as D1.
    pose proof (N.mod_upper_bound n1 64 ltac:(discriminate)) as U1.
    match goal with |- context [inRange ?lo ?hi n1] =>
      destruct (inRange lo hi n1) eqn:C1
    end; [|discriminate].
    cbn [fst snd app].
    destruct r1 as [|b2 r2]; [discriminate|].
    rewrite codePoints_from, utf8Byte_open by discriminate.
    cbn [lowerBoundary upperBoundary bytesSeen bytesNeeded codePoint N.add
         N.eqb Pos.eqb Pos.add Pos.succ].
    pose proof (byte_below_256 b2) as B2. set (n2 := Byte.to_N b2) in *.
    pose proof (N.div_mod n2 64 ltac:(discriminate)) as D2.
    pose proof (N.mod_upper_bound n2 64 ltac:(discriminate)) as U2.
    destruct (inRange 128 191 n2) eqn:C2; [|discriminate].
    cbn [fst snd app]. intros E. injection E as E _.
    apply inRange_iff in C1, C2.
    assert (R1 : (128 <= n1 <= 191)%N).
    { destruct (n0 =? 224)%N, (n0 =? 237)%N; lia. }
    unfold marked in Hm. fold n0 n1 n2 in Hm. clearbody n0 n1 n2.
    assert (n0 = 239 /\ n1 = 187 /\ n2 = 191)%N as (E0 & E1 & E2)
      by (clear Hm; rewrite M16 in E; name_divisions; lia).
    rewrite E0, E1, E2 in Hm. discriminate Hm. }
  destruct (inRange 240 244 n0) eqn:A3; [|discriminate].
  cbn [fst snd emitted app]. apply inRange_iff in A3.
  destruct r0 as [|b1 r1]; [discriminate|].
  rewrite codePoints_from, utf8Byte_open by discriminate.
  cbn [lowerBoundary upperBoundary bytesSeen bytesNeeded codePoint N.add
       N.eqb Pos.eqb].
  pose proof (byte_below_256 b1) as B1. set (n1 := Byte.to_N b1) in *.
  pose proof (N.div_mod n1 64 ltac:(discriminate)) as D1.
  pose proof (N.mod_upper_bound n1 64 ltac:(discriminate)) as U1.
  match goal with |- context [inRange ?lo ?hi n1] =>
    destruct (inRange lo hi n1) eqn:C1
  end; [|discriminate].
  cbn [fst snd app].
  destruct r1 as [|b2 r2]; [discriminate|].
  rewrite codePoints_from, utf8Byte_open by discriminate.
  cbn [lowerBoundary upperBoundary bytesSeen bytesNeeded codePoint N.add
       N.eqb Pos.eqb Pos.add Pos.succ].
  pose proof (byte_below_256 b2) as B2. set (n2 := Byte.to_N b2) in *.
  pose proof (N.div_mod n2 64 ltac:(discriminate)) as D2.
  pose proof (N.mod_upper_bound n2 64 ltac:(discriminate)) as U2.
  destruct (inRange 128 191 n2) eqn:C2; [|discriminate].
  cbn [fst snd app].
  destruct r2 as [|b3 r3]; [discriminate|].
  rewrite codePoints_from, utf8Byte_open by discriminate.
  cbn [lowerBoundary upperBoundary bytesSeen bytesNeeded codePoint N.add
       N.eqb Pos.eqb Pos.add Pos.succ].
  pose proof (byte_below_256 b3) as B3. set (n3 := Byte.to_N b3) in *.
  pose proof (N.div_mod n3 64 ltac:(discriminate)) as D3.
  pose proof (N.mod_upper_bound n3 64 ltac:(discriminate)) as U3.
  destruct (inRange 128 191 n3) eqn:C3; [|discriminate].
  cbn [fst snd app]. intros E. injection E as E _.
  apply inRange_iff in C1, C2, C3. clear Hm. clearbody n0 n1 n2 n3.
  rewrite M8 in E.
  destruct (n0 =? 240)%N eqn:F0;
    [apply N.eqb_eq in F0|apply N.eqb_neq in F0];
    destruct (n0 =? 244)%N; name_divisions; lia.
Qed.

Lemma byte_of_number (b : byte) (n : N) (b' : byte) :
  Byte.to_N b = n -> Byte.of_N n = Some b' -> b = b'.
Proof.
  intros E H. rewrite <- E, Byte.of_to_N in H. now injection H.
Qed.

Lemma marked_first (bytes : list byte) :
  marked bytes = true -> exists rest, bytes = BOM ++ rest.
Proof.
  destruct bytes as [|b0 [|b1 [|b2 rest]]]; try discriminate.
  unfold marked. intros H.
  apply andb_prop in H. destruct H as (H & H2).
  apply andb_prop in H. destruct H as (H0 & H1).
  apply N.eqb_eq in H0, H1, H2. exists rest.
  rewrite (byte_of_number b0 _ xef H0 eq_refl),
          (byte_of_number b1 _ xbb H1 eq_refl),
          (byte_of_number b2 _ xbf H2 eq_refl).
  reflexivity.
Qed.

Lemma decodeAll_codePoints (bytes : list byte) :
  decodeAll bytes = snd (serialize false (codePoints bytes)).
Proof. unfold decodeAll. now rewrite text_decode_flush. Qed.

Lemma codePoints_marked (bytes : list byte) :
  codePoints (BOM ++ bytes) = 65279%N :: codePoints bytes.
Proof. unfold codePoints. now rewrite utf8Run_app. Qed.

(** The text of a stream after a byte order mark. *)
Lemma decodeAll_after_mark (bytes : list byte) :
  decodeAll (BOM ++ bytes)
  = (if marked bytes then [65279%N] else []) ++ decodeAll bytes.
Proof.
  rewrite !decodeAll_codePoints, codePoints_marked.
  change (snd (serialize false (65279%N :: codePoints bytes)))
    with (flat_map utf16 (codePoints bytes)).
  destruct (marked bytes) eqn:M.
  - destruct (marked_first bytes M) as (rest & ->).
    now rewrite codePoints_marked.
  - pose proof (unmarked_first bytes M) as H.
    destruct (codePoints bytes) as [|cp cps]; [reflexivity|].
    unfold serialize.
    destruct (cp =? 65279)%N eqn:E; [|reflexivity].
    apply N.eqb_eq in E. subst cp. now destruct (H cps).
Qed.

(** X14.  A byte order mark at the start of a file is no part of its
    text: the file parses to the entries and the lines of the file
    without the mark, its three bytes counted in the bytes processed.
    Only the first mark is dropped: a second one right behind it is
    kept as the character U+FEFF.  A file that is nothing but the mark
    has no lines and no entries. *)
Theorem byte_order_mark_is_dropped (clock : Clock) (bytes : list byte) :
  decodeAll (BOM ++ bytes)
  = (if marked bytes then [65279%N] else []) ++ decodeAll bytes
  /\ (marked bytes = false ->
      exists posted posted' es stats stats',
        parseFile clock (plain (BOM ++ bytes))
        = (posted ++ [DONE es stats], Fulfilled)
        /\ parseFile clock (plain bytes)
           = (posted' ++ [DONE es stats'], Fulfilled)
        /\ Stats.lines stats = Stats.lines stats'
        /\ Stats.entries stats = Stats.entries stats'
        /\ Stats.bytesProcessed stats
           = (Stats.bytesProcessed stats' + 3)%Z)
  /\ parseFile clock (plain BOM)
     = ([PROGRESS {| Progress.bytesProcessed := 3; Progress.totalBytes := 3;
                     Progress.percent := 1%Q; Progress.lines := 0;
                     Progress.entries := 0 |};
         DONE [] {| Stats.bytesProcessed := 3; Stats.totalBytes := 3;
                    Stats.lines := 0; Stats.entries := 0;
                    Stats.durationMs :=
                      (doneTime clock - startTime clock)%Q |}],
        Fulfilled).
Proof.
  split; [apply decodeAll_after_mark|]. split; [|reflexivity].
  intros M.
  destruct (parseFileWith_never_rejects SLICE_SIZE PROGRESS_INTERVAL_BYTES
              clock (plain (BOM ++ bytes)) SLICE_SIZE_pos
              ltac:(reflexivity)) as (posted & _ & E).
  destruct (parseFileWith_never_rejects SLICE_SIZE PROGRESS_INTERVAL_BYTES
              clock (plain bytes) SLICE_SIZE_pos
              ltac:(reflexivity)) as (posted' & _ & E').
  unfold doneOf, doneMessage in E, E'. cbn [contents plain] in E, E'.
  rewrite decodeAll_after_mark, M in E. cbn [app] in E.
  do 5 eexists. split; [exact E|]. split; [exact E'|].
  cbn [Stats.lines Stats.entries Stats.bytesProcessed withBytesProcessed
       lineNumber entries bytesProcessed].
  split; [reflexivity|]. split; [reflexivity|].
  unfold size. cbn [contents plain BOM app length]. lia.
Qed.

End Mark.

(* ================================================================== *)
(** * Further properties: what a row shows of a parsed entry           *)
(* ================================================================== *)

Section Labels.
Import JS Encoding Worker Meaning Denotation Classification Builtins.

Lemma Covers_from (es : list LogEntry) :
  forall first next, Covers first es next ->
  Forall (fun e => (first <= lineStart e)%Z) es.
Proof.
  induction es as [|e es IH]; intros first next H; [constructor|].
  cbn [Covers] in H. destruct H as (H1 & H2 & _ & H4).
  constructor; [lia|].
  eapply Forall_impl; [|exact (IH _ _ H4)]. cbn. intros x Hx. lia.
Qed.

Lemma done_entries_cover (clock : Clock) (file : File)
  (es : list LogEntry) (stats : Stats.stats) :
  In (DONE es stats) (fst (parseFile clock file)) ->
  exists next, Covers 1 es next.
Proof.
  intros H. apply done_of_parseFile in H. unfold doneOf, doneMessage in H.
  injection H as -> _. cbn [entries withBytesProcessed].
  destruct (grouped_Closed (decodeAll (contents file))) as (_ & _ & Hc & _).
  eexists. exact Hc.
Qed.

Lemma TimestampText_length (ts : list N) :
  TimestampText ts -> (19 <= length ts)%nat.
Proof.
  intros (Y & M & D & sep & h & m & s & frac & -> & (HY & _) & (HM & _)
          & (HD & _) & _ & (Hh & _) & (Hm & _) & (Hs & _) & _).
  rewrite !length_app. cbn [length str map list_ascii_of_string].
  rewrite HY, HM, HD, Hh, Hm, Hs. lia.
Qed.

(** X15.  For an entry of a parse, what the viewer and the chat route
    say of its lines agrees with its line numbers: the viewer takes it for
    multi-line (by the line feeds of its text) exactly when it ends on a
    later line than it starts, which is when the route cites it as
    [Lines a-b] and not as [Line a], and when the label of its row is
    a-b and not the one number; the label is padded to six characters
    or more, and the numbers are 1 or more.  Its text is shown up to
    1000 code units when it has several lines and up to 500 when it has
    one.  Its timestamp, when it has one, has 19 characters or more, of
    which the row shows the first 24. *)
Theorem rows_of_parsed_entries (clock : Clock) (file : File)
  (es : list LogEntry) (stats : Stats.stats) (e : LogEntry) :
  In (DONE es stats) (fst (parseFile clock file)) -> In e es ->
  let a := numberToString (lineStart e) in
  let b := numberToString (lineEnd e) in
  (1 <= lineStart e <= lineEnd e)%Z
  /\ (Viewer.isMultiLine e = true <-> (lineStart e < lineEnd e)%Z)
  /\ Route.lineInfo e
     = (if Viewer.isMultiLine e
        then str "[Lines " ++ a ++ str "-" ++ b ++ str "]"
        else str "[Line " ++ a ++ str "]")
  /\ Viewer.formatLineNum (lineStart e) (lineEnd e)
     = padStart 6 (if Viewer.isMultiLine e then a ++ str "-" ++ b else a)
  /\ (6 <= length (Viewer.formatLineNum (lineStart e) (lineEnd e)))%nat
  /\ Viewer.shownText e
     = Viewer.cut (if (lineStart e <? lineEnd e)%Z then 1000 else 500)
         (text e)
  /\ match timestamp e with
     | Some ts =>
         (19 <= length ts)%nat
         /\ Viewer.shownTimestamp e = Some (firstn 24 ts)
     | None => Viewer.shownTimestamp e = None
     end.
Proof.
  intros Hdone Hin a b.
  destruct (done_entries_cover clock file es stats Hdone) as (next & Hc).
  pose proof (Covers_from es 1 next Hc) as Hfrom.
  pose proof (Covers_ranges es 1 next Hc) as Hr.
  rewrite Forall_forall in Hfrom, Hr.
  specialize (Hfrom e Hin). destruct (Hr e Hin) as (Hle & Hlen).
  unfold linesOf in Hlen.
  assert (Hm : Viewer.isMultiLine e = true <-> (lineStart e < lineEnd e)%Z).
  { unfold Viewer.isMultiLine. rewrite Nat.ltb_lt. lia. }
  assert (Hb : Viewer.isMultiLine e = negb (lineEnd e =? lineStart e)%Z).
  { destruct (Viewer.isMultiLine e) eqn:M.
    - destruct Hm as (Hm & _). specialize (Hm eq_refl).
      symmetry. apply negb_true_iff, Z.eqb_neq. lia.
    - destruct (lineEnd e =? lineStart e)%Z eqn:Q; [reflexivity|].
      apply Z.eqb_neq in Q. destruct Hm as (_ & Hm).
      discriminate (Hm ltac:(lia)). }
  split; [lia|]. split; [exact Hm|]. split; [|split; [|split; [|split]]].
  - unfold Route.lineInfo. rewrite <- Hb. reflexivity.
  - unfold Viewer.formatLineNum. rewrite (Z.eqb_sym (lineStart e)).
    rewrite Hb. fold a b. now destruct (lineEnd e =? lineStart e)%Z.
  - unfold Viewer.formatLineNum, padStart. rewrite length_app, repeat_length.
    lia.
  - unfold Viewer.shownText.
    destruct (Viewer.isMultiLine e) eqn:M.
    + destruct Hm as (Hm & _).
      now replace (lineStart e <? lineEnd e)%Z with true
        by (symmetry; apply Z.ltb_lt; auto).
    + replace (lineStart e <? lineEnd e)%Z with false; [reflexivity|].
      symmetry. apply Z.ltb_ge.
      destruct (Z.lt_ge_cases (lineStart e) (lineEnd e)) as [Hlt|]; [|lia].
      destruct Hm as (_ & Hm). discriminate (Hm Hlt).
  - pose proof (done_entries_classified clock file es stats Hdone) as Hcl.
    unfold Classified in Hcl. rewrite Forall_forall in Hcl.
    destruct (Hcl e Hin) as (_ & Ht).
    unfold Viewer.shownTimestamp. rewrite Ht.
    destruct (detectTimestamp (firstLineOf e)) as [ts|] eqn:D; [|reflexivity].
    destruct (detectTimestamp_some _ _ D) as (pre & post & (_ & Htt) & _).
    pose proof (TimestampText_length ts Htt) as Hl.
    split; [exact Hl|].
    destruct ts as [|c ts]; [cbn in Hl; lia|]. cbn [truthy].
    destruct (24 <? length (c :: ts))%nat eqn:L; [reflexivity|].
    apply Nat.ltb_ge in L. now rewrite firstn_all2.
Qed.

Lemma rows_of_parsed_entries_witness :
  let clock := {| startTime := 0%Q; doneTime := 1%Q |} in
  let e := {| lineStart := 1; lineEnd := 2;
              text := Samples.scenarioLine1 ++ [LF] ++ str "world";
              severity := Some (str "TRACE");
              timestamp := Some (str "2026-01-03T06:29:46.882") |} in
  Viewer.isMultiLine e = true
  /\ Route.lineInfo e = str "[Lines 1-2]"
  /\ Viewer.formatLineNum 1 2 = str "   1-2".
Proof.
  intros clock e.
  assert (Hdone : In (DONE [e; {| lineStart := 3; lineEnd := 3;
                                  text := Samples.scenarioLine3;
                                  severity := Some (str "ERROR");
                                  timestamp :=
                                    Some (str "2026-01-03T06:29:47.000") |}]
                        {| Stats.bytesProcessed := 79;
                           Stats.totalBytes := 79;
                           Stats.lines := 3; Stats.entries := 2;
                           Stats.durationMs := (1 - 0)%Q |})
                     (fst (parseFile clock (Samples.plain Samples.scenario)))).
  { right. left. reflexivity. }
  destruct (rows_of_parsed_entries clock (Samples.plain Samples.scenario)
              _ _ e Hdone ltac:(left; reflexivity))
    as (_ & (_ & H1) & H2 & H3 & _ & _ & _).
  split; [apply H1; reflexivity|].
  split; [exact H2|exact H3].
Defined.

End Labels.

(* ================================================================== *)
(** * Further properties: from the route's encoder to the panel        *)
(* ================================================================== *)

Section RoundTrip.
Import JS Encoding Worker Meaning Denotation Builtins Encoder.

Lemma toByte_number (n : N) : (n < 256)%N -> Byte.to_N (toByte n) = n.
Proof.
  intros H. unfold toByte. destruct (Byte.of_N n) as [b|] eqn:E.
  - now apply Byte.to_of_N.
  - apply Byte.of_N_None_iff in E. lia.
Qed.

Lemma lor_128 (y : N) : N.lor 128 (N.land y 63) = (128 + y mod 64)%N.
Proof.
  change 128%N with (N.shiftl 2 6) at 1. now rewrite lor_continuation.
Qed.

Lemma shiftr_6 (cp : N) : N.shiftr cp 6 = (cp / 64)%N.
Proof. now rewrite N.shiftr_div_pow2. Qed.

Lemma shiftr_12 (cp : N) : N.shiftr cp 12 = (cp / 64 / 64)%N.
Proof. now rewrite N.shiftr_div_pow2, N.Div0.div_div. Qed.

Lemma shiftr_18 (cp : N) : N.shiftr cp 18 = (cp / 64 / 64 / 64)%N.
Proof. now rewrite N.shiftr_div_pow2, !N.Div0.div_div. Qed.

(** The bytes of a scalar value, by its size. *)
Lemma utf8Encode_bytes (cp : N) :
  utf8Encode cp
  = if (cp <=? 127)%N then [cp]
    else if (cp <=? 2047)%N then
      [(cp / 64 + 192)%N; (128 + cp mod 64)%N]
    else if (cp <=? 65535)%N then
      [(cp / 64 / 64 + 224)%N; (128 + (cp / 64) mod 64)%N;
       (128 + cp mod 64)%N]
    else
      [(cp / 64 / 64 / 64 + 240)%N; (128 + (cp / 64 / 64) mod 64)%N;
       (128 + (cp / 64) mod 64)%N; (128 + cp mod 64)%N].
Proof.
  unfold utf8Encode, inRange.
  replace (0 <=? cp)%N with true by (symmetry; apply N.leb_le; lia).
  cbn [andb].
  destruct (cp <=? 127)%N eqn:A; [reflexivity|]. apply N.leb_gt in A.
  replace (128 <=? cp)%N with true by (symmetry; apply N.leb_le; lia).
  cbn [andb].
  destruct (cp <=? 2047)%N eqn:B.
  { cbn [continuation N.of_nat N.mul Pos.of_succ_nat].
    change (N.shiftr cp 0) with cp. now rewrite shiftr_6, lor_128. }
  apply N.leb_gt in B.
  replace (2048 <=? cp)%N with true by (symmetry; apply N.leb_le; lia).
  cbn [andb].
  destruct (cp <=? 65535)%N eqn:C.
  { cbn [continuation N.of_nat N.mul Pos.of_succ_nat Pos.succ Pos.mul
         Pos.add].
    change (N.shiftr cp 0) with cp.
    now rewrite shiftr_12, shiftr_6, !lor_128. }
  cbn [continuation N.of_nat N.mul Pos.of_succ_nat Pos.succ Pos.mul Pos.add].
  change (N.shiftr cp 0) with cp.
  now rewrite shiftr_18, shiftr_12, shiftr_6, !lor_128.
Qed.

Lemma land_low (q k : N) (n : N) :
  (q < 2 ^ n)%N -> N.land (q + k * 2 ^ n) (N.ones n) = q.
Proof.
  intros H. rewrite N.land_ones, N.Div0.mod_add. now apply N.mod_small.
Qed.

Lemma mod_continuation (m : N) : (m < 64)%N -> ((128 + m) mod 64 = m)%N.
Proof.
  intros H. replace (128 + m)%N with (m + 2 * 64)%N by lia.
  rewrite N.Div0.mod_add. now apply N.mod_small.
Qed.

Lemma utf8Run_pair (d : Utf8Decoder) (rest : list byte) :
  (fst (utf8Run d rest), snd (utf8Run d rest)) = utf8Run d rest.
Proof. now destruct (utf8Run d rest). Qed.

(** The decoder on a continuation byte it accepts. *)
Lemma run_continuation (d : Utf8Decoder) (m : N) (rest : list byte) :
  bytesNeeded d <> 0%N -> (m < 64)%N ->
  inRange (lowerBoundary d) (upperBoundary d) (128 + m) = true ->
  utf8Run d (toByte (128 + m) :: rest)
  = if (bytesSeen d + 1 =? bytesNeeded d)%N
    then (fst (utf8Run utf8Initial rest),
          (codePoint d * 64 + m)%N :: snd (utf8Run utf8Initial rest))
    else utf8Run {| codePoint := (codePoint d * 64 + m)%N;
                    bytesSeen := bytesSeen d + 1;
                    bytesNeeded := bytesNeeded d;
                    lowerBoundary := 128; upperBoundary := 191 |} rest.
Proof.
  intros Hn Hm Hr.
  rewrite utf8Run_cons, toByte_number by lia.
  rewrite (utf8Byte_open d _ Hn), Hr, (mod_continuation m Hm).
  destruct (bytesSeen d + 1 =? bytesNeeded d)%N; cbn [fst snd app];
    [reflexivity|apply utf8Run_pair].
Qed.

(** The decoder on the first byte of a sequence of two, three and four
    bytes. *)
Lemma run_lead2 (q : N) (rest : list byte) :
  (2 <= q < 32)%N ->
  utf8Run utf8Initial (toByte (q + 192) :: rest)
  = utf8Run {| codePoint := q; bytesSeen := 0; bytesNeeded := 1;
               lowerBoundary := 128; upperBoundary := 191 |} rest.
Proof.
  intros H. rewrite utf8Run_cons, toByte_number, utf8Byte_lead by lia.
  unfold utf8Lead.
  replace (inRange 0 127 (q + 192)) with false
    by (symmetry; apply inRange_not; lia).
  replace (inRange 194 223 (q + 192)) with true
    by (symmetry; apply inRange_iff; lia).
  cbn [fst snd emitted app].
  change 31%N with (N.ones 5). change 192%N with (6 * 2 ^ 5)%N.
  rewrite land_low by (cbn; lia). apply utf8Run_pair.
Qed.

Lemma run_lead3 (q : N) (rest : list byte) :
  (q < 16)%N ->
  utf8Run utf8Initial (toByte (q + 224) :: rest)
  = utf8Run {| codePoint := q; bytesSeen := 0; bytesNeeded := 2;
               lowerBoundary := if (q =? 0)%N then 160 else 128;
               upperBoundary := if (q =? 13)%N then 159 else 191 |} rest.
Proof.
  intros H. rewrite utf8Run_cons, toByte_number, utf8Byte_lead by lia.
  unfold utf8Lead.
  replace (inRange 0 127 (q + 224)) with false
    by (symmetry; apply inRange_not; lia).
  replace (inRange 194 223 (q + 224)) with false
    by (symmetry; apply inRange_not; lia).
  replace (inRange 224 239 (q + 224)) with true
    by (symmetry; apply inRange_iff; lia).
  cbn [fst snd emitted app].
  replace (q + 224 =? 224)%N with (q =? 0)%N
    by (destruct (q =? 0)%N eqn:E;
        [apply N.eqb_eq in E|apply N.eqb_neq in E]; symmetry;
        [apply N.eqb_eq|apply N.eqb_neq]; lia).
  replace (q + 224 =? 237)%N with (q =? 13)%N
    by (destruct (q =? 13)%N eqn:E;
        [apply N.eqb_eq in E|apply N.eqb_neq in E]; symmetry;
        [apply N.eqb_eq|apply N.eqb_neq]; lia).
  change 15%N with (N.ones 4). change 224%N with (14 * 2 ^ 4)%N.
  rewrite land_low by (cbn; lia). apply utf8Run_pair.
Qed.

Lemma run_lead4 (q : N) (rest : list byte) :
  (q <= 4)%N ->
  utf8Run utf8Initial (toByte (q + 240) :: rest)
  = utf8Run {| codePoint := q; bytesSeen := 0; bytesNeeded := 3;
               lowerBoundary := if (q =? 0)%N then 144 else 128;
               upperBoundary := if (q =? 4)%N then 143 else 191 |} rest.
Proof.
  intros H. rewrite utf8Run_cons, toByte_number, utf8Byte_lead by lia.
  unfold utf8Lead.
  replace (inRange 0 127 (q + 240)) with false
    by (symmetry; apply inRange_not; lia).
  replace (inRange 194 223 (q + 240)) with false
    by (symmetry; apply inRange_not; lia).
  replace (inRange 224 239 (q + 240)) with false
    by (symmetry; apply inRange_not; lia).
  replace (inRange 240 244 (q + 240)) with true
    by (symmetry; apply inRange_iff; lia).
  cbn [fst snd emitted app].
  replace (q + 240 =? 240)%N with (q =? 0)%N
    by (destruct (q =? 0)%N eqn:E;
        [apply N.eqb_eq in E|apply N.eqb_neq in E]; symmetry;
        [apply N.eqb_eq|apply N.eqb_neq]; lia).
  replace (q + 240 =? 244)%N with (q =? 4)%N
    by (destruct (q =? 4)%N eqn:E;
        [apply N.eqb_eq in E|apply N.eqb_neq in E]; symmetry;
        [apply N.eqb_eq|apply N.eqb_neq]; lia).
  change 7%N with (N.ones 3). change 240%N with (30 * 2 ^ 3)%N.
  rewrite land_low by (cbn; lia). apply utf8Run_pair.
Qed.

Ltac in_range :=
  apply inRange_iff; cbn [lowerBoundary upperBoundary];
  repeat match goal with
         | |- context [(?a =? ?b)%N] =>
             let E := fresh "E" in
             destruct (a =? b)%N eqn:E;
             [apply N.eqb_eq in E|apply N.eqb_neq in E]
         end; lia.

Ltac count_bytes :=
  cbn [bytesSeen bytesNeeded codePoint];
  match goal with
  | |- context [(?a =? ?b)%N] =>
      let v := eval vm_compute in (a =? b)%N in
      change (a =? b)%N with v
  end; cbv iota.

(** The decoder gives back a scalar value from its bytes. *)
Lemma decode_scalar (cp : N) (rest : list byte) :
  Scalar cp ->
  utf8Run utf8Initial (map toByte (utf8Encode cp) ++ rest)
  = (fst (utf8Run utf8Initial rest), cp :: snd (utf8Run utf8Initial rest)).
Proof.
  intros (Hmax & Hsur). rewrite utf8Encode_bytes.
  pose proof (N.div_mod cp 64 ltac:(discriminate)) as D1.
  pose proof (N.mod_upper_bound cp 64 ltac:(discriminate)) as U1.
  set (q1 := (cp / 64)%N) in *. set (m1 := (cp mod 64)%N) in *.
  pose proof (N.div_mod q1 64 ltac:(discriminate)) as D2.
  pose proof (N.mod_upper_bound q1 64 ltac:(discriminate)) as U2.
  set (q2 := (q1 / 64)%N) in *. set (m2 := (q1 mod 64)%N) in *.
  pose proof (N.div_mod q2 64 ltac:(discriminate)) as D3.
  pose proof (N.mod_upper_bound q2 64 ltac:(discriminate)) as U3.
  set (q3 := (q2 / 64)%N) in *. set (m3 := (q2 mod 64)%N) in *.
  clearbody q1 m1 q2 m2 q3 m3.
  destruct (cp <=? 127)%N eqn:A.
  { apply N.leb_le in A. cbn [map app].
    rewrite utf8Run_cons, toByte_number, utf8Byte_lead by lia.
    unfold utf8Lead.
    replace (inRange 0 127 cp) with true
      by (symmetry; apply inRange_iff; lia).
    reflexivity. }
  apply N.leb_gt in A. destruct (cp <=? 2047)%N eqn:B.
  { apply N.leb_le in B. cbn [map app].
    rewrite run_lead2 by lia.
    rewrite run_continuation; [|discriminate|lia|in_range].
    count_bytes.
    repeat f_equal. lia. }
  apply N.leb_gt in B. destruct (cp <=? 65535)%N eqn:C.
  { apply N.leb_le in C. cbn [map app].
    rewrite run_lead3 by lia.
    rewrite run_continuation; [|discriminate|lia|in_range].
    count_bytes.
    rewrite run_continuation; [|discriminate|lia|in_range].
    count_bytes.
    repeat f_equal. lia. }
  apply N.leb_gt in C. cbn [map app].
  rewrite run_lead4 by lia.
  rewrite run_continuation; [|discriminate|lia|in_range].
  count_bytes.
  rewrite run_continuation; [|discriminate|lia|in_range].
  count_bytes.
  rewrite run_continuation; [|discriminate|lia|in_range].
  count_bytes.
  repeat f_equal. lia.
Qed.

Lemma decode_scalars (cps : list N) :
  Forall Scalar cps ->
  utf8Run utf8Initial (map toByte (flat_map utf8Encode cps))
  = (utf8Initial, cps).
Proof.
  induction 1 as [|cp cps Hcp _ IH]; [reflexivity|].
  cbn [flat_map]. rewrite map_app, (decode_scalar cp _ Hcp), IH.
  reflexivity.
Qed.

(** Induction on a string two code units at a time. *)
Lemma by_length (P : list N -> Prop) :
  (forall s, (forall t, (length t < length s)%nat -> P t) -> P s) ->
  forall s, P s.
Proof.
  intros H s. remember (length s) as n eqn:E. revert s E.
  induction n as [n IH] using lt_wf_ind. intros s E. apply H.
  intros t Ht. subst n. eapply IH; [exact Ht|reflexivity].
Qed.

Lemma scalarValues_scalar (s : list N) :
  CodeUnits s -> Forall Scalar (scalarValues s).
Proof.
  induction s as [s IH] using by_length. intros Hs.
  destruct s as [|c rest]; [constructor|].
  inversion Hs as [|? ? Hc Hrest]; subst.
  assert (Hrep : Scalar REPLACEMENT) by (unfold Scalar, REPLACEMENT; lia).
  cbn [scalarValues]. unfold isHighSurrogate, isLowSurrogate.
  destruct (inRange 55296 56319 c) eqn:H.
  - apply inRange_iff in H. destruct rest as [|d rest'].
    + constructor; [exact Hrep|constructor].
    + inversion Hrest as [|? ? Hd Hrest']; subst.
      destruct (inRange 56320 57343 d) eqn:L.
      * apply inRange_iff in L. constructor.
        -- unfold Scalar. lia.
        -- apply IH; [cbn; lia|exact Hrest'].
      * constructor; [exact Hrep|]. apply IH; [cbn; lia|exact Hrest].
  - apply inRange_not in H. destruct (inRange 56320 57343 c) eqn:L.
    + constructor; [exact Hrep|]. apply IH; [cbn; lia|exact Hrest].
    + apply inRange_not in L. constructor.
      * unfold Scalar. lia.
      * apply IH; [cbn; lia|exact Hrest].
Qed.

(** The two code units of a pair come back from its scalar value. *)
Lemma utf16_pair (c d : N) :
  (55296 <= c <= 56319)%N -> (56320 <= d <= 57343)%N ->
  utf16 (65536 + (c - 55296) * 1024 + (d - 56320)) = [c; d].
Proof.
  intros Hc Hd. unfold utf16.
  replace (65536 + (c - 55296) * 1024 + (d - 56320) <=? 65535)%N with false
    by (symmetry; apply N.leb_gt; lia).
  replace (65536 + (c - 55296) * 1024 + (d - 56320) - 65536)%N
    with ((d - 56320) + (c - 55296) * 1024)%N by lia.
  rewrite N.div_add, N.Div0.mod_add by discriminate.
  rewrite N.div_small, N.mod_small by lia.
  f_equal; [lia|f_equal; lia].
Qed.

Lemma toWellFormed_same (s : list N) :
  CodeUnits s -> isWellFormed s = true -> toWellFormed s = s.
Proof.
  unfold toWellFormed.
  induction s as [s IH] using by_length. intros Hs Hw.
  destruct s as [|c rest]; [reflexivity|].
  inversion Hs as [|? ? Hc Hrest]; subst.
  cbn [scalarValues isWellFormed] in *.
  unfold isHighSurrogate, isLowSurrogate in *.
  destruct (inRange 55296 56319 c) eqn:H.
  - destruct rest as [|d rest']; [discriminate|].
    apply andb_prop in Hw. destruct Hw as (L & Hw). rewrite L.
    inversion Hrest as [|? ? Hd Hrest']; subst.
    apply inRange_iff in H, L.
    cbn [flat_map]. rewrite (utf16_pair c d H L).
    rewrite IH; [reflexivity|cbn; lia|exact Hrest'|exact Hw].
  - apply andb_prop in Hw. destruct Hw as (L & Hw).
    apply negb_true_iff in L. rewrite L.
    cbn [flat_map]. unfold utf16 at 1.
    replace (c <=? 65535)%N with true by (symmetry; apply N.leb_le; lia).
    cbn [app]. rewrite IH; [reflexivity|cbn; lia|exact Hrest|exact Hw].
Qed.

(** The decoder's output as a string, the mark at its start dropped. *)
Lemma serialize_dropMark (cps : list N) :
  Forall Scalar cps ->
  snd (serialize false cps) = dropMark (flat_map utf16 cps).
Proof.
  intros H. destruct cps as [|cp cps]; [reflexivity|].
  inversion H as [|? ? (Hmax & Hsur) _]; subst.
  unfold serialize. cbn [snd flat_map].
  destruct (cp =? 65279)%N eqn:E.
  - apply N.eqb_eq in E. subst cp. reflexivity.
  - apply N.eqb_neq in E. set (tail := flat_map utf16 cps).
    unfold utf16. destruct (cp <=? 65535)%N eqn:B.
    + cbn [app dropMark].
      now replace (cp =? 65279)%N with false
        by (symmetry; apply N.eqb_neq; exact E).
    + apply N.leb_gt in B. cbn [app dropMark].
      pose proof (N.div_mod (cp - 65536) 1024 ltac:(discriminate)) as D.
      pose proof (N.mod_upper_bound (cp - 65536) 1024 ltac:(discriminate)).
      replace (55296 + (cp - 65536) / 1024 =? 65279)%N with false;
        [reflexivity|].
      symmetry. apply N.eqb_neq. clearbody tail. name_divisions. lia.
Qed.

Lemma encode_texts (texts : list jsString) :
  flat_map encode texts
  = map toByte (flat_map utf8Encode (flat_map scalarValues texts)).
Proof.
  induction texts as [|t texts IH]; [reflexivity|].
  cbn [flat_map]. rewrite IH. unfold encode.
  now rewrite flat_map_app, map_app.
Qed.

Lemma wellFormed_texts (texts : list jsString) :
  flat_map utf16 (flat_map scalarValues texts)
  = flat_map toWellFormed texts.
Proof.
  induction texts as [|t texts IH]; [reflexivity|].
  cbn [flat_map]. now rewrite flat_map_app, IH.
Qed.

Lemma scalar_texts (texts : list jsString) :
  Forall CodeUnits texts -> Forall Scalar (flat_map scalarValues texts).
Proof.
  induction 1 as [|t texts Ht _ IH]; [constructor|].
  cbn [flat_map]. apply Forall_app. split; [|exact IH].
  now apply scalarValues_scalar.
Qed.

(** Texts encoded one by one and decoded as one stream. *)
Lemma decoded_encoded (texts : list jsString) :
  Forall CodeUnits texts ->
  decodedSoFar (flat_map encode texts)
  = dropMark (flat_map toWellFormed texts).
Proof.
  intros H. unfold decodedSoFar. rewrite text_decode_stream.
  change (core newTextDecoder) with (utf8Initial, false). cbn [fst snd].
  rewrite encode_texts, (decode_scalars _ (scalar_texts texts H)).
  cbn [snd]. rewrite (serialize_dropMark _ (scalar_texts texts H)).
  now rewrite wellFormed_texts.
Qed.

End RoundTrip.

Section Relayed.
Import JS Encoding Worker Meaning Denotation Builtins Encoder.

Variable events : jsString -> list jsString.

Lemma wellFormed_concat (texts : list jsString) :
  Forall CodeUnits texts -> forallb isWellFormed texts = true ->
  flat_map toWellFormed texts = concat texts.
Proof.
  induction 1 as [|t texts Ht _ IH]; [reflexivity|].
  cbn [forallb flat_map concat]. intros H.
  apply andb_prop in H. destruct H as (H1 & H2).
  now rewrite (toWellFormed_same t Ht H1), IH.
Qed.

(** X16.  From the route back to the panel.  For a request the
    panel sends and an answer of the API that is [ok], the route relays a
    stream of texts, each as its UTF-8 bytes; when the transport hands
    those bytes to the panel, chunked in any way, the answer the panel
    adds after the question is the texts one after the other, as
    well-formed strings and without a byte order mark at the very start:
    for texts with no surrogate alone and no such mark, exactly the
    texts relayed; and no error is set. *)
Theorem answer_is_what_was_relayed (selectedEntries : list LogEntry)
  (st : ChatPanel.State)
  (upstream : option (list (list byte) * option Thrown))
  (chunks : list (list byte)) :
  ChatPanel.canSend selectedEntries st = true ->
  let texts := Route.start events upstream in
  Forall CodeUnits texts ->
  concat chunks = flat_map encode texts ->
  let done :=
    ChatPanel.handleSubmit selectedEntries (ChatPanel.Streamed chunks None)
      st in
  let asked := {| ChatPanel.role := ChatPanel.user;
                  ChatPanel.content := trim (ChatPanel.question st) |} in
  exists request,
    snd done = Some request
    /\ Route.POST events (Route.bodyOf request) (Route.Ok upstream)
       = Route.Stream texts
    /\ ChatPanel.messages (fst done)
       = ChatPanel.messages st
         ++ [asked;
             {| ChatPanel.role := ChatPanel.assistant;
                ChatPanel.content :=
                  dropMark (flat_map toWellFormed texts) |}]
    /\ ChatPanel.error (fst done) = None
    /\ (forallb isWellFormed texts = true ->
        dropMark (concat texts) = concat texts ->
        ChatPanel.messages (fst done)
        = ChatPanel.messages st
          ++ [asked;
              {| ChatPanel.role := ChatPanel.assistant;
                 ChatPanel.content := concat texts |}]).
Proof.
  intros Hcan texts Hunits Hbytes done asked.
  destruct (submit_streamed selectedEntries chunks st Hcan)
    as (Hsent & Hmsgs & Herr).
  cbv zeta in Hsent, Hmsgs, Herr. fold done in Hsent, Hmsgs, Herr.
  rewrite Hbytes, (decoded_encoded texts Hunits) in Hmsgs.
  eexists. split; [exact Hsent|].
  assert (V : Route.validate
                (Route.bodyOf
                   {| ChatPanel.requestApiKey := trim (ChatPanel.apiKey st);
                      ChatPanel.requestQuestion :=
                        trim (ChatPanel.question st);
                      ChatPanel.requestEntries := selectedEntries |})
              = None).
  { unfold ChatPanel.canSend in Hcan.
    apply andb_prop in Hcan. destruct Hcan as (Hcan & _).
    apply andb_prop in Hcan. destruct Hcan as (Hcan & _).
    apply andb_prop in Hcan. destruct Hcan as (Hcan & Hq).
    apply andb_prop in Hcan. destruct Hcan as (Hsel & Hkey).
    unfold Route.validate, Route.bodyOf.
    cbn [Route.apiKey Route.question Route.entries ChatPanel.requestApiKey
         ChatPanel.requestQuestion ChatPanel.requestEntries].
    rewrite Hkey, Hq. cbn [negb].
    destruct selectedEntries; [discriminate Hsel|reflexivity]. }
  split; [unfold Route.POST; now rewrite V|].
  split; [exact Hmsgs|]. split; [exact Herr|].
  intros Hw Hm. rewrite Hmsgs.
  now rewrite (wellFormed_concat texts Hunits Hw), Hm.
Qed.

End Relayed.

Lemma answer_is_what_was_relayed_witness :
  let selected := [{| Worker.lineStart := 1; Worker.lineEnd := 1;
                      Worker.text := JS.str "ERROR x";
                      Worker.severity := Some (JS.str "ERROR");
                      Worker.timestamp := None |}] in
  let st := {| ChatPanel.apiKey := JS.str "sk";
               ChatPanel.question := JS.str "why?";
               ChatPanel.messages := []; ChatPanel.isLoading := false;
               ChatPanel.error := None |} in
  let upstream :=
    Some ([[x64; x61; x74; x61; x3a; x20; x68; xc3];
           [xa9; x0a; x64; x61; x74; x61; x3a; x20; x21; x0a; x78]],
          @None Worker.Thrown) in
  let chunks := [[x68]; [xc3]; [xa9; x21]] in
  ChatPanel.messages
    (fst (ChatPanel.handleSubmit selected (ChatPanel.Streamed chunks None) st))
  = [{| ChatPanel.role := ChatPanel.user; ChatPanel.content := JS.str "why?" |};
     {| ChatPanel.role := ChatPanel.assistant;
        ChatPanel.content := [104%N; 233%N; 33%N] |}].
Proof.
  intros selected st upstream chunks.
  destruct (answer_is_what_was_relayed (fun data => [data]) selected st
              upstream chunks eq_refl
              ltac:(repeat constructor) eq_refl)
    as (request & _ & _ & H & _).
  exact H.
Defined.

(* ================================================================== *)
(** * Further properties: the prompt and the estimate of the panel     *)
(* ================================================================== *)

Section Prompt.
Import JS Encoding Worker Builtins.

Lemma list_sum_map_add {A : Type} (f g : A -> nat) (l : list A) :
  list_sum (map (fun x => f x + g x)%nat l)
  = (list_sum (map f l) + list_sum (map g l))%nat.
Proof.
  induction l as [|x l IH]; [reflexivity|].
  cbn [map]. change (list_sum (?a :: ?r)) with (a + list_sum r)%nat.
  rewrite IH. lia.
Qed.

(** X17.  The prompt the route builds holds the text of every entry of
    the request in full, and more than the panel counted: its length
    is that of the text whose tokens the panel estimated, plus that of
    the question, the 53 code units of the framing, one header and one
    line feed for each entry, and six more code units between two
    entries. *)
Theorem prompt_is_longer_than_estimated (body : Route.ChatRequest) :
  let header e :=
    Route.lineInfo e ++ str " " ++ Route.bracketed (severity e) ++ str " "
    ++ Route.bracketed (timestamp e) in
  let n := length (Route.entries body) in
  length (Route.userMessage body)
  = (length (ChatPanel.selectedText (Route.entries body))
     + length (Route.question body) + 53
     + list_sum (map (fun e => length (header e) + 1) (Route.entries body))
     + 6 * (n - 1))%nat.
Proof.
  intros header n.
  unfold Route.userMessage, Route.formattedEntries, ChatPanel.selectedText.
  rewrite !length_app, !join_length, !length_map.
  replace (map (@length N) (map Route.formatEntry (Route.entries body)))
    with (map (fun e => (length (header e) + 1) + length (text e))%nat
            (Route.entries body)).
  2:{ rewrite map_map. apply map_ext. intros e.
      unfold Route.formatEntry, header. rewrite !length_app. cbn [length].
      lia. }
  rewrite list_sum_map_add, (map_map text (@length N)).
  fold n. cbn [length str].
  change (length (JS.str "Here are the selected log entries:")) with 34%nat.
  change (length (JS.str "---")) with 3%nat.
  change (length (JS.str "Question: ")) with 10%nat.
  change (length ([LF; LF] ++ JS.str "---" ++ [LF; LF])) with 7%nat.
  clearbody n header. lia.
Qed.

End Prompt.
